(** * Counting C/C++ lines per directory (example/ex11-count-lines.c)

    A shallow embedding of the line counter built on the M*LIB tree
    container: the scanner that walks a directory and fills one tree node per
    directory, the consolidation pass that folds the counts of the children
    into their parents and sorts every sibling group, the report that
    [print_result] writes from the consolidated tree, and the exits of the
    program. *)

From Stdlib Require Import ZArith Lia.
From Stdlib.Strings Require Import Byte Ascii.
From Stdlib Require Import DecimalString DecimalN DecimalPos.
From Stdlib Require Import Sorting.Sorted.
From stdpp Require Import base option list strings.
From Equations Require Import Equations.

Local Open Scope Z_scope.

(** ** Unsigned arithmetic

    [unsigned] and [atomic_uint] are 32 bits wide; every addition is reduced
    modulo [UINT_MAX + 1]. *)

Definition UINT_MAX : Z := 4294967295.

Definition to_uint (x : Z) : Z := x mod (UINT_MAX + 1).

Definition uint_add (a b : Z) : Z := to_uint (a + b).

(** [atomic_uint_cmp]: the biggest value first. *)
Definition atomic_uint_cmp (a b : Z) : Z :=
  if a >? b then -1 else if a <? b then 1 else 0.

(** ** Files *)

Definition MAX_READ_BUFFER : nat := Z.to_nat 8192.
Definition MAX_DIRECTORY : N := 100000.

(** [count_eol buffer num]: the list holds the [num] bytes that were read. *)
Definition count_eol (buffer : list byte) : Z :=
  fold_left (λ count c, uint_add count (if Byte.eqb c x0a then 1 else 0)) buffer 0.

(** The [do ... while (num == MAX_READ_BUFFER)] loop of [scan_file], on the
    unread bytes [f] of the stream.  [fread (buffer, 1, MAX_READ_BUFFER, f)]
    delivers [take MAX_READ_BUFFER f] and leaves [drop MAX_READ_BUFFER f]
    unread; the loop ends because every full buffer shortens what is left. *)
Equations read_loop (f : list byte) (count : Z) : Z by wf (length f) lt :=
  read_loop f count with decide (length (take MAX_READ_BUFFER f) = MAX_READ_BUFFER) := {
    | left Hfull =>
        read_loop (drop MAX_READ_BUFFER f)
                  (uint_add count (count_eol (take MAX_READ_BUFFER f)));
    | right _ => uint_add count (count_eol (take MAX_READ_BUFFER f)) }.
Next Obligation.
  rewrite length_drop. rewrite length_take in Hfull.
  assert (0 < MAX_READ_BUFFER)%nat by (unfold MAX_READ_BUFFER; lia). lia.
Qed.

(** Modelled from the spec: [string_end_with_str_p] of m-string.h, which is
    not part of the sources; the name "ends in" the suffix, case-sensitive. *)
Definition string_end_with_str_p (s suffix : string) : bool :=
  let n := String.length s in
  let m := String.length suffix in
  bool_decide (m ≤ n)%nat && String.eqb (String.substring (n - m) m s) suffix.

Definition is_a_c_file (filename : string) : bool :=
  string_end_with_str_p filename ".c"
  || string_end_with_str_p filename ".h"
  || string_end_with_str_p filename ".cpp"
  || string_end_with_str_p filename ".hpp".

(** ** The file system as the scanner observes it

    What [stat], [opendir], [readdir] and [fopen] answer for a path. *)

Local Unset Elimination Schemes.

Inductive inode :=
| NoStat                                          (* [stat] fails *)
| NoFile                                          (* not a directory; [fopen] fails *)
| RegFile (contents : list byte)                  (* not a directory; [fopen] succeeds *)
| NoDir                                           (* a directory; [opendir] fails *)
| Directory (entries : list (string * inode)).    (* [readdir] order, with [d_name] *)

Local Set Elimination Schemes.

Definition S_ISDIR (n : inode) : bool :=
  match n with
  | Directory _ | NoDir => true
  | _ => false
  end.

Definition fopen (n : inode) : option (list byte) :=
  match n with
  | RegFile contents => Some contents
  | _ => None
  end.

Definition opendir (n : inode) : option (list (string * inode)) :=
  match n with
  | Directory entries => Some entries
  | _ => None
  end.

(** [entry->d_name[0] == '.'] *)
Definition is_hidden (d_name : string) : bool :=
  match d_name with
  | String "."%char _ => true
  | _ => false
  end.

(** ** Ways the program ends *)

Inductive error :=
| UsageError (argv0 : string)
| FileOpenError (filename : string)
| DirectoryOpenError (dirname : string)
| MetadataError (filename : string).

(** The argument of [exit] on each error branch. *)
Definition exit_code (e : error) : Z :=
  match e with
  | UsageError _ => 1
  | FileOpenError _ => 1
  | DirectoryOpenError _ => 1
  | MetadataError _ => 2
  end.


(** [Ok]: the computation goes on; [Exit e]: [exit (exit_code e)] after
    [message e] was written; [Abort]: the container found its memory full. *)
Inductive outcome (A : Type) :=
| Ok (a : A)
| Exit (e : error)
| Abort.
Arguments Ok {A} a.
Arguments Exit {A} e.
Arguments Abort {A}.

#[global] Instance outcome_bind : MBind outcome := λ A B k m,
  match m with
  | Ok a => k a
  | Exit e => Exit e
  | Abort => Abort
  end.

(** ** The directory tree *)

(** [TUPLE_DEF2 (dir, (nlines, atomic_uint), (name, string_t))] *)
Record dir_t := mk_dir { nlines : Z; name : string }.

(** The comparison of [dir_t]: the comparison of [name] is disabled, so that
    only [nlines] is compared, with [atomic_uint_cmp]. *)
Definition dir_cmp (a b : dir_t) : Z := atomic_uint_cmp (nlines a) (nlines b).

(** Modelled from the spec: the tree container of m-tree.h ([M_TREE_DEF]), which
    is not part of the sources.  An arena of slots addressed by stable indices;
    each node has one parent (none for the root) and an ordered sequence of
    children. *)
Record node_t := mk_node { data : dir_t; parent : option nat; child : list nat }.

Record tree_t := mk_tree {
  tab : list node_t;        (* the nodes in use, by index *)
  root : option nat;
  capacity : N;             (* number of reserved slots *)
  lock : bool               (* no growth beyond [capacity] *)
}.

(** An iterator is a node reference, or the end. *)
Definition tree_it_t := option nat.

Definition tree_end_p (it : tree_it_t) : bool :=
  match it with
  | None => true
  | Some _ => false
  end.

Definition tree_it_end (t : tree_t) : tree_it_t := None.

(** Modelled from the spec: [tree_init], [tree_reserve] and [tree_lock] of
    m-tree.h. *)
Definition tree_init : tree_t := mk_tree [] None 0 false.

Definition tree_reserve (t : tree_t) (n : N) : tree_t :=
  mk_tree (tab t) (root t) (N.max (capacity t) n) (lock t).

Definition tree_lock (t : tree_t) (b : bool) : tree_t :=
  mk_tree (tab t) (root t) (capacity t) b.

(** Modelled from the spec: the allocation of a slot for a new node.  Slots
    already in use never move; when no reserved slot is left a locked tree
    fails, an unlocked one grows. *)
Definition alloc_node (t : tree_t) (nd : node_t) : outcome (tree_t * nat) :=
  let i := length (tab t) in
  if decide (N.of_nat i < capacity t)%N then
    Ok (mk_tree (tab t ++ [nd]) (root t) (capacity t) (lock t), i)
  else if lock t then Abort
  else Ok (mk_tree (tab t ++ [nd]) (root t) (N.of_nat (S i)) (lock t), i).

(** Modelled from the spec: [tree_set_root] of m-tree.h. *)
Definition tree_set_root (t : tree_t) (d : dir_t) : outcome (tree_t * nat) :=
  '(t, i) ← alloc_node t (mk_node d None []);
  Ok (mk_tree (tab t) (Some i) (capacity t) (lock t), i).

Definition add_child (i : nat) (nd : node_t) : node_t :=
  mk_node (data nd) (parent nd) (child nd ++ [i]).

(** Modelled from the spec: [tree_insert_child] of m-tree.h, which appends a
    new child under [p]. *)
Definition tree_insert_child (t : tree_t) (p : nat) (d : dir_t) : outcome (tree_t * nat) :=
  '(t, i) ← alloc_node t (mk_node d (Some p) []);
  Ok (mk_tree (alter (add_child i) p (tab t)) (root t) (capacity t) (lock t), i).

(** Modelled from the spec: [tree_ref] and [tree_up_ref] of m-tree.h, and the
    children of a node. *)
Definition tree_ref (t : tree_t) (i : nat) : option dir_t :=
  data <$> tab t !! i.

(** [tree_up_ref] refers to the data of the node [tree_up], and is [NULL]
    when there is none. *)
Definition tree_up (t : tree_t) (i : nat) : option nat :=
  tab t !! i ≫= parent.

Definition tree_down (t : tree_t) (i : nat) : list nat :=
  default [] (child <$> tab t !! i).

(** The data that the reference [i] reads, and the value of its counter. *)
Definition node_data (t : tree_t) (i : nat) : dir_t :=
  default (mk_dir 0 "") (tree_ref t i).

Definition nlines_at (t : tree_t) (i : nat) : Z := nlines (node_data t i).

(** [atomic_fetch_add (&( *d)->nlines, count)] on the node [i]. *)
Definition fetch_add (count : Z) (nd : node_t) : node_t :=
  mk_node (mk_dir (uint_add (nlines (data nd)) count) (name (data nd)))
          (parent nd) (child nd).

Definition atomic_fetch_add (t : tree_t) (i : nat) (count : Z) : tree_t :=
  mk_tree (alter (fetch_add count) i (tab t)) (root t) (capacity t) (lock t).

(** Modelled from the spec: the stable sort behind [tree_sort_child]; [x] goes
    in front of the first element that does not come before it. *)
Fixpoint sort_insert (cmp : nat → nat → Z) (x : nat) (l : list nat) : list nat :=
  match l with
  | [] => [x]
  | y :: l' => if cmp x y <=? 0 then x :: l else y :: sort_insert cmp x l'
  end.

Definition stable_sort (cmp : nat → nat → Z) (l : list nat) : list nat :=
  foldr (sort_insert cmp) [] l.

(** The comparison of two nodes is the comparison of their data. *)
Definition node_cmp (t : tree_t) (a b : nat) : Z :=
  dir_cmp (node_data t a) (node_data t b).

Definition sort_children (t : tree_t) (nd : node_t) : node_t :=
  mk_node (data nd) (parent nd) (stable_sort (node_cmp t) (child nd)).

(** Modelled from the spec: [tree_sort_child] of m-tree.h. *)
Definition tree_sort_child (t : tree_t) (i : nat) : tree_t :=
  mk_tree (alter (sort_children t) i (tab t)) (root t) (capacity t) (lock t).

(** Modelled from the spec: the post-order iterator of m-tree.h.  [deepest]
    follows the first child down to a node without children. *)
Fixpoint deepest (fuel : nat) (t : tree_t) (i : nat) : option nat :=
  match fuel with
  | O => None
  | S fuel =>
      match tree_down t i with
      | [] => Some i
      | c :: _ => deepest fuel t c
      end
  end.

Definition tree_it_post (t : tree_t) : option tree_it_t :=
  match root t with
  | None => Some None
  | Some r => Some <$> deepest (S (length (tab t))) t r
  end.

(** The element that follows the first occurrence of [i]. *)
Fixpoint next_in (i : nat) (l : list nat) : option nat :=
  match l with
  | [] => None
  | x :: l' => if decide (x = i) then head l' else next_in i l'
  end.

Definition right_sibling (t : tree_t) (i : nat) : option nat :=
  tree_up t i ≫= λ p, next_in i (tree_down t p).

Definition tree_next_post (t : tree_t) (i : nat) : option tree_it_t :=
  match right_sibling t i with
  | Some s => Some <$> deepest (S (length (tab t))) t s
  | None => Some (tree_up t i)
  end.

(** ** The scanner *)

Definition add_directory (t : tree_t) (parent : tree_it_t) (dirname : string)
  : outcome (tree_t * nat) :=
  let data := mk_dir 0 dirname in
  match parent with
  | None => tree_set_root t data
  | Some p => tree_insert_child t p data
  end.

(** [n] is what the file system holds at [filename]. *)
Definition scan_file (t : tree_t) (parent : nat) (filename : string) (n : inode)
  : outcome tree_t :=
  if negb (is_a_c_file filename) then Ok t
  else match fopen n with
       | None => Exit (FileOpenError filename)
       | Some f =>
           let count := read_loop f 0 in
           Ok (atomic_fetch_add t parent count)
       end.

(** [n] is what the file system holds at [dirname]. *)
Fixpoint scan_directories (n : inode) (t : tree_t) (parent : tree_it_t)
  (dirname : string) {struct n} : outcome tree_t :=
  '(t, it) ← add_directory t parent dirname;
  match n with
  | Directory entries =>
      (fix readdir_loop (entries : list (string * inode)) (t : tree_t) : outcome tree_t :=
         match entries with
         | [] => Ok t
         | (d_name, n') :: entries =>
             if is_hidden d_name then readdir_loop entries t
             else
               let filename := dirname +:+ "/" +:+ d_name in
               match n' with
               | NoStat => Exit (MetadataError filename)
               | _ =>
                   t ← (if S_ISDIR n' then scan_directories n' t (Some it) filename
                        else scan_file t it filename n');
                   readdir_loop entries t
               end
         end) entries t
  | _ => Exit (DirectoryOpenError dirname)
  end.

(** The [while (entry)] loop of [scan_directories] by itself, for the node
    [it] of the directory [dirname]. *)
Fixpoint readdir_loop (it : nat) (dirname : string) (entries : list (string * inode))
  (t : tree_t) : outcome tree_t :=
  match entries with
  | [] => Ok t
  | (d_name, n') :: entries =>
      if is_hidden d_name then readdir_loop it dirname entries t
      else
        let filename := dirname +:+ "/" +:+ d_name in
        match n' with
        | NoStat => Exit (MetadataError filename)
        | _ =>
            t ← (if S_ISDIR n' then scan_directories n' t (Some it) filename
                 else scan_file t it filename n');
            readdir_loop it dirname entries t
        end
  end.

(** ** Consolidation *)

(** The body of the loop of [consolidate_directories] at the node [i]: add
    the number of lines of the node to its parent, if it has one, and sort its
    children. *)
Definition add_to_parent (t : tree_t) (i : nat) : tree_t :=
  match tree_up t i with
  | Some p => atomic_fetch_add t p (nlines_at t i)
  | None => t
  end.

Definition consolidate_node (t : tree_t) (i : nat) : tree_t :=
  tree_sort_child (add_to_parent t i) i.

(** The loop of [consolidate_directories]; [None] when [fuel] iterations did
    not reach the end of the tree. *)
Fixpoint consolidate_loop (fuel : nat) (t : tree_t) (it : tree_it_t) : option tree_t :=
  match it with
  | None => Some t
  | Some i =>
      match fuel with
      | O => None
      | S fuel =>
          let t := consolidate_node t i in
          tree_next_post t i ≫= consolidate_loop fuel t
      end
  end.

Definition consolidate_directories (t : tree_t) : option tree_t :=
  tree_it_post t ≫= consolidate_loop (length (tab t)) t.

(** ** The report *)

(** Modelled from the spec: the pre-order iterator of m-tree.h ([tree_it] and
    [tree_next]); a node comes before its children, and the children come in
    their order.  [next_right] leaves the subtree of a node: it moves to the
    right sibling of the node or, when there is none, of the nearest ancestor
    that has one. *)
Definition tree_it (t : tree_t) : tree_it_t := root t.

Fixpoint next_right (fuel : nat) (t : tree_t) (i : nat) : option tree_it_t :=
  match fuel with
  | O => None
  | S fuel =>
      match right_sibling t i with
      | Some s => Some (Some s)
      | None =>
          match tree_up t i with
          | Some p => next_right fuel t p
          | None => Some None
          end
      end
  end.

Definition tree_next (t : tree_t) (i : nat) : option tree_it_t :=
  match tree_down t i with
  | c :: _ => Some (Some c)
  | [] => next_right (S (length (tab t))) t i
  end.

(** Modelled from the spec: [tree_depth] of m-tree.h, the number of the
    ancestors of a node. *)
Fixpoint depth_from (fuel : nat) (t : tree_t) (i : nat) : option nat :=
  match fuel with
  | O => None
  | S fuel =>
      match tree_up t i with
      | Some p => S <$> depth_from fuel t p
      | None => Some O
      end
  end.

Definition tree_depth (t : tree_t) (i : nat) : option nat :=
  depth_from (S (length (tab t))) t i.

(** [n] times the character [c]: what each of the two [for] loops of
    [print_result] writes, the markers of the depth and the spaces up to the
    column 8. *)
Fixpoint chars (n : nat) (c : ascii) : string :=
  match n with
  | O => ""
  | S n => String c (chars n c)
  end.

(** The digits that [printf] writes for the conversion %u. *)
Definition decimal (n : Z) : string := NilZero.string_of_uint (N.to_uint (Z.to_N n)).

(** The conversion %6u: the digits, right-justified in six columns or more. *)
Definition printf_6u (n : Z) : string :=
  let digits := decimal n in
  chars (6 - String.length digits) " " +:+ digits.

(** The line of one node at the depth [depth]: the markers, the spaces, and
    the count, cast to [unsigned], with the name and a line feed. *)
Definition print_dir (depth : nat) (d : dir_t) : string :=
  chars depth "+" +:+ chars (8 - depth) " "
  +:+ printf_6u (to_uint (nlines d)) +:+ " " +:+ name d +:+ "
".

(** The loop of [print_result], with what was written to [stdout] so far;
    [None] when [fuel] iterations did not reach the end of the tree. *)
Fixpoint print_loop (fuel : nat) (t : tree_t) (it : tree_it_t) (out : string)
  : option string :=
  match it with
  | None => Some out
  | Some i =>
      match fuel with
      | O => None
      | S fuel =>
          depth ← tree_depth t i;
          let out := out +:+ print_dir depth (node_data t i) in
          tree_next t i ≫= λ it, print_loop fuel t it out
      end
  end.

Definition print_result (t : tree_t) : option string :=
  print_loop (length (tab t)) t (tree_it t) "".

(** ** The program *)

(** [main argv fs] with [fs] what the file system holds at [argv[1]]: the way
    the program ends, with the tree at the time of the report; [None] when the
    consolidation ran out of fuel. *)
Definition main (argv : list string) (fs : inode) : option (outcome tree_t) :=
  match argv with
  | _ :: str :: _ =>
      let directories := tree_init in
      let directories := tree_reserve directories MAX_DIRECTORY in
      let directories := tree_lock directories true in
      let it := tree_it_end directories in
      match scan_directories fs directories it str with
      | Ok directories => Ok <$> consolidate_directories directories
      | Exit e => Some (Exit e)
      | Abort => Some Abort
      end
  | _ => Some (Exit (UsageError (default "" (head argv))))
  end.



(** * Reference definitions

    What a directory holds, computed by a plain walk over the file system,
    without a tree and without machine arithmetic. *)

(** ** Lines *)

(** The number of line-feed bytes. *)
Fixpoint newlines (l : list byte) : Z :=
  match l with
  | [] => 0
  | c :: l => (if Byte.eqb c x0a then 1 else 0) + newlines l
  end.

(** The lines of one file that is not a directory. *)
Definition file_lines (filename : string) (n : inode) : Z :=
  if is_a_c_file filename then
    match fopen n with
    | Some contents => newlines contents
    | None => 0
    end
  else 0.

(** The lines of the files directly in a directory. *)
Fixpoint own_lines (dirname : string) (entries : list (string * inode)) : Z :=
  match entries with
  | [] => 0
  | (d_name, n) :: entries =>
      (if is_hidden d_name || S_ISDIR n then 0
       else file_lines (dirname +:+ "/" +:+ d_name) n)
      + own_lines dirname entries
  end.

(** The entries of a directory that are directories which the scanner
    enters, with their paths. *)
Fixpoint subdirs (dirname : string) (entries : list (string * inode))
  : list (string * inode) :=
  match entries with
  | [] => []
  | (d_name, n) :: entries =>
      if negb (is_hidden d_name) && S_ISDIR n
      then (dirname +:+ "/" +:+ d_name, n) :: subdirs dirname entries
      else subdirs dirname entries
  end.

(** The lines of all files below a directory. *)
Fixpoint total_lines (dirname : string) (n : inode) : Z :=
  match n with
  | Directory entries =>
      (fix total (entries : list (string * inode)) : Z :=
         match entries with
         | [] => 0
         | (d_name, n') :: entries =>
             (if is_hidden d_name then 0
              else if S_ISDIR n' then total_lines (dirname +:+ "/" +:+ d_name) n'
              else file_lines (dirname +:+ "/" +:+ d_name) n')
             + total entries
         end) entries
  | _ => 0
  end.

Definition zsum (l : list Z) : Z := foldr Z.add 0 l.

(** ** Trees with any number of children *)

Local Unset Elimination Schemes.

Inductive rose (A : Type) := Rose (label : A) (kids : list (rose A)).

Local Set Elimination Schemes.
Arguments Rose {A} label kids.

Definition rlabel {A} (r : rose A) : A := let 'Rose a _ := r in a.
Definition rkids {A} (r : rose A) : list (rose A) := let 'Rose _ ks := r in ks.

Fixpoint preorder {A} (r : rose A) : list A :=
  let 'Rose a ks := r in a :: concat (map preorder ks).

Fixpoint postorder {A} (r : rose A) : list A :=
  let 'Rose a ks := r in concat (map postorder ks) ++ [a].

Definition rsize {A} (r : rose A) : nat := length (preorder r).

(** The first node of [postorder]. *)
Fixpoint leftmost {A} (r : rose A) : A :=
  match r with
  | Rose a [] => a
  | Rose _ (k :: _) => leftmost k
  end.

(** All the subtrees, in the order of [preorder]. *)
Fixpoint subtrees {A} (r : rose A) : list (rose A) :=
  r :: match r with Rose _ ks => concat (map subtrees ks) end.

(** The nodes numbered from [start] in the order of [preorder]. *)
Fixpoint number {A} (start : nat) (r : rose A) : rose nat :=
  let 'Rose _ ks := r in
  Rose start
    ((fix forest (start : nat) (ks : list (rose A)) : list (rose nat) :=
        match ks with
        | [] => []
        | k :: ks => number start k :: forest (start + rsize k)%nat ks
        end) (S start) ks).

Fixpoint number_forest {A} (start : nat) (ks : list (rose A)) : list (rose nat) :=
  match ks with
  | [] => []
  | k :: ks => number start k :: number_forest (start + rsize k)%nat ks
  end.

(** Induction on a tree, with the property for all children. *)
Definition rose_ind {A} (P : rose A → Prop)
  (HRose : ∀ a ks, Forall P ks → P (Rose a ks)) : ∀ r, P r :=
  fix go (r : rose A) : P r :=
    match r with
    | Rose a ks =>
        HRose a ks
          ((fix all (ks : list (rose A)) : Forall P ks :=
              match ks with
              | [] => List.Forall_nil P
              | k :: ks => List.Forall_cons P k ks (go k) (all ks)
              end) ks)
    end.

(** ** The directories of a scan *)

(** Induction on what a path holds, with the property for all entries. *)
Definition inode_ind (P : inode → Prop)
  (HNoStat : P NoStat) (HNoFile : P NoFile)
  (HRegFile : ∀ contents, P (RegFile contents)) (HNoDir : P NoDir)
  (HDirectory : ∀ entries, Forall (λ e, P e.2) entries → P (Directory entries))
  : ∀ n, P n :=
  fix go (n : inode) : P n :=
    match n with
    | NoStat => HNoStat
    | NoFile => HNoFile
    | RegFile contents => HRegFile contents
    | NoDir => HNoDir
    | Directory entries =>
        HDirectory entries
          ((fix all (entries : list (string * inode)) : Forall (λ e, P e.2) entries :=
              match entries with
              | [] => List.Forall_nil _
              | e :: entries => List.Forall_cons _ e entries (go e.2) (all entries)
              end) entries)
    end.

(** The directories that the scanner enters, as a tree. *)
Fixpoint dir_tree (dirname : string) (n : inode) : rose (string * inode) :=
  Rose (dirname, n)
    match n with
    | Directory entries =>
        (fix forest (entries : list (string * inode)) : list (rose (string * inode)) :=
           match entries with
           | [] => []
           | (d_name, n') :: entries =>
               if negb (is_hidden d_name) && S_ISDIR n'
               then dir_tree (dirname +:+ "/" +:+ d_name) n' :: forest entries
               else forest entries
           end) entries
    | _ => []
    end.

Definition dir_forest (dirname : string) (entries : list (string * inode))
  : list (rose (string * inode)) :=
  map (λ e, dir_tree e.1 e.2) (subdirs dirname entries).

(** The directories that the scanner enters, in the order of the visits. *)
Definition visited (dirname : string) (n : inode) : list (string * inode) :=
  preorder (dir_tree dirname n).

(** The lines of the files directly in a directory of [visited]. *)
Definition own_lines_of (d : string * inode) : Z :=
  match d.2 with
  | Directory entries => own_lines d.1 entries
  | _ => 0
  end.

(** The data of a directory right after the scan. *)
Definition scanned_dir (d : string * inode) : dir_t :=
  mk_dir (to_uint (own_lines_of d)) d.1.

(** The directories directly in a directory of [visited]. *)
Definition subdirs_of (d : string * inode) : list (string * inode) :=
  default [] (subdirs d.1 <$> opendir d.2).

(** The entries of a directory that [scan_file] counts. *)
Definition matching_files (dirname : string) (entries : list (string * inode))
  : list (string * inode) :=
  List.filter
    (λ e, negb (is_hidden e.1) && negb (S_ISDIR e.2)
          && is_a_c_file (dirname +:+ "/" +:+ e.1))
    entries.

(** The lines of the files of all the directories of [r]. *)
Definition rtotal (r : rose (string * inode)) : Z :=
  zsum (map own_lines_of (preorder r)).

(** The lines of the files of all the directories of [r], as a node holds
    them. *)
Definition utotal (r : rose (string * inode)) : Z := to_uint (rtotal r).

(** ** Hidden entries and failures *)

(** The file system without its hidden entries. *)
Fixpoint prune (n : inode) : inode :=
  match n with
  | Directory entries =>
      Directory
        ((fix entries_of (entries : list (string * inode)) : list (string * inode) :=
            match entries with
            | [] => []
            | (d_name, n') :: entries =>
                if is_hidden d_name then entries_of entries
                else (d_name, prune n') :: entries_of entries
            end) entries)
  | _ => n
  end.

(** The entries of a directory without the hidden ones. *)
Fixpoint prune_entries (entries : list (string * inode)) : list (string * inode) :=
  match entries with
  | [] => []
  | (d_name, n') :: entries =>
      if is_hidden d_name then prune_entries entries
      else (d_name, prune n') :: prune_entries entries
  end.

(** The first failure that a walk in the order of [readdir] meets. *)
Fixpoint first_error (dirname : string) (n : inode) : option error :=
  match n with
  | Directory entries =>
      (fix first (entries : list (string * inode)) : option error :=
         match entries with
         | [] => None
         | (d_name, n') :: entries =>
             if is_hidden d_name then first entries
             else
               let filename := dirname +:+ "/" +:+ d_name in
               match n' with
               | NoStat => Some (MetadataError filename)
               | NoFile =>
                   if is_a_c_file filename then Some (FileOpenError filename)
                   else first entries
               | RegFile _ => first entries
               | _ =>
                   match first_error filename n' with
                   | Some e => Some e
                   | None => first entries
                   end
               end
         end) entries
  | _ => Some (DirectoryOpenError dirname)
  end.

(** The first failure among the entries of the directory [dirname]. *)
Fixpoint first_error_in (dirname : string) (entries : list (string * inode))
  : option error :=
  match entries with
  | [] => None
  | (d_name, n') :: entries =>
      if is_hidden d_name then first_error_in dirname entries
      else
        let filename := dirname +:+ "/" +:+ d_name in
        match n' with
        | NoStat => Some (MetadataError filename)
        | NoFile =>
            if is_a_c_file filename then Some (FileOpenError filename)
            else first_error_in dirname entries
        | RegFile _ => first_error_in dirname entries
        | _ =>
            match first_error filename n' with
            | Some e => Some e
            | None => first_error_in dirname entries
            end
        end
  end.


(** The outcome of a scan agrees with the first failure of the plain walk. *)
Definition agrees {A} (o : outcome A) (e : option error) : Prop :=
  match o with
  | Ok _ => e = None
  | Exit e' => e = Some e'
  | Abort => True
  end.

(** ** The arena that a scan builds *)

(** The tree that [main] hands to the scanner. *)
Definition directories0 : tree_t :=
  tree_lock (tree_reserve tree_init MAX_DIRECTORY) true.

(** The table after the node [i] became a child of [parent]. *)
Definition attach (parent : tree_it_t) (i : nat) (l : list node_t) : list node_t :=
  match parent with
  | Some p => alter (add_child i) p l
  | None => l
  end.

(** The slots of the directories of [r], which the scanner allocates from the
    index [start] on in the order of its visits, below the parent [p]. *)
Fixpoint arena_of (start : nat) (p : option nat) (r : rose (string * inode))
  : list node_t :=
  let 'Rose d ks := r in
  mk_node (mk_dir (to_uint (own_lines_of d)) d.1) p
          (map rlabel (number_forest (S start) ks))
  :: (fix forest (st : nat) (ks : list (rose (string * inode))) : list node_t :=
        match ks with
        | [] => []
        | k :: ks => arena_of st (Some start) k ++ forest (st + rsize k)%nat ks
        end) (S start) ks.

Fixpoint arena_forest (start : nat) (p : option nat) (ks : list (rose (string * inode)))
  : list node_t :=
  match ks with
  | [] => []
  | k :: ks => arena_of start p k ++ arena_forest (start + rsize k)%nat p ks
  end.

(** The scanner of one directory [n], for all the directories below it. *)
Definition scan_spec (n : inode) : Prop :=
  ∀ t parent dirname t',
    scan_directories n t parent dirname = Ok t' →
    (∀ p, parent = Some p → (p < length (tab t))%nat) →
    tab t' = attach parent (length (tab t)) (tab t)
             ++ arena_of (length (tab t)) parent (dir_tree dirname n)
    ∧ lock t' = lock t
    ∧ root t' = match parent with None => Some (length (tab t)) | Some _ => root t end
    ∧ (lock t = true →
       capacity t' = capacity t ∧ (N.of_nat (length (tab t')) ≤ capacity t')%N).

(** ** The tree that an arena holds *)

(** [repr t p s]: the node [rlabel s] of [t] has the parent [p], and its
    children are, in their order, the roots of the children of [s], which [t]
    holds in the same way. *)
Local Unset Elimination Schemes.

Inductive repr (t : tree_t) : option nat → rose nat → Prop :=
| repr_node p i ks nd :
    tab t !! i = Some nd →
    parent nd = p →
    child nd = map rlabel ks →
    Forall (repr t (Some i)) ks →
    repr t p (Rose i ks).

Local Set Elimination Schemes.

(** The arena holds one tree, which is made of all its nodes. *)
Definition arena_wf (t : tree_t) : Prop :=
  ∃ s, repr t None s ∧ root t = Some (rlabel s)
       ∧ preorder s ≡ₚ seq 0 (length (tab t)).

(** ** The consolidation, node by node *)

(** The comparison of two indices by a key, the biggest key first. *)
Definition key_cmp (key : nat → Z) (x y : nat) : Z := atomic_uint_cmp (key x) (key y).

(** The order of the children after the sort: the biggest value first. *)
Definition key_ge (key : nat → Z) (x y : nat) : Prop := key y ≤ key x.

(** The nodes of [l] consolidated one after the other. *)
Definition consolidate_all (t : tree_t) (l : list nat) : tree_t :=
  foldl consolidate_node t l.

(** The node after the consolidation that ended in the tree [t']: the final
    numbers of lines of its children were added one after the other, and its
    children are sorted by their final numbers of lines. *)
Definition add_counts (l : list Z) (nd : node_t) : node_t :=
  mk_node (mk_dir (foldl uint_add (nlines (data nd)) l) (name (data nd)))
          (parent nd) (child nd).

Definition consolidated (t' : tree_t) (nd : node_t) : node_t :=
  sort_children t' (add_counts (map (nlines_at t') (child nd)) nd).

(** The loop of the consolidation on the nodes of [s]: from the first node of
    the post-order it reaches the root of [s], with all the nodes below the
    root consolidated in post-order. *)
Definition loop_spec (s : rose nat) : Prop :=
  ∀ t p m,
    repr t p s →
    NoDup (preorder s) →
    consolidate_loop (length (concat (map preorder (rkids s))) + m) t (Some (leftmost s))
    = consolidate_loop m (consolidate_all t (concat (map postorder (rkids s))))
        (Some (rlabel s)).

(** The consolidation of the nodes of [s] in post-order, below the parent [p]. *)
Definition fold_spec (s : rose nat) : Prop :=
  ∀ t p,
    repr t p s →
    NoDup (preorder s) →
    (∀ q, p = Some q → q ∉ preorder s) →
    let t' := consolidate_all t (postorder s) in
    (∀ j, j ∉ preorder s → p ≠ Some j → tab t' !! j = tab t !! j)
    ∧ (∀ q, p = Some q → tab t' !! q = fetch_add (nlines_at t' (rlabel s)) <$> tab t !! q)
    ∧ (∀ j, j ∈ preorder s → tab t' !! j = consolidated t' <$> tab t !! j).

(** ** The counts below a node *)

(** The counts of the node of [s] and of all the nodes below it, added up
    without machine arithmetic. *)
Definition subtree_sum (t : tree_t) (s : rose nat) : Z :=
  zsum (map (nlines_at t) (preorder s)).

(** ** The lines of the report *)

(** The nodes in the order of [preorder], each with its depth, from the depth
    [d] of the root on. *)
Fixpoint preorder_depth {A} (d : nat) (s : rose A) : list (nat * A) :=
  let 'Rose a ks := s in (d, a) :: concat (map (preorder_depth (S d)) ks).

(** The lines of the nodes of [l], each with its depth, one after the other. *)
Definition report_lines (t : tree_t) (l : list (nat * nat)) : string :=
  foldr (λ x out, print_dir x.1 (node_data t x.2) +:+ out) "" l.

(** The loop of [print_result] on the nodes of [s], whose root has the depth
    [d]: it writes their lines in the order of [preorder] and goes on with the
    node [nxt] that follows the subtree. *)
Definition report_spec (t : tree_t) (s : rose nat) : Prop :=
  ∀ d m out nxt p,
    repr t p s →
    NoDup (preorder s) →
    (d + rsize s ≤ length (tab t))%nat →
    (∀ f, (d < f)%nat → depth_from f t (rlabel s) = Some d) →
    (∀ f, (d < f)%nat → next_right f t (rlabel s) = Some nxt) →
    print_loop (rsize s + m) t (Some (rlabel s)) out
    = print_loop m t nxt (out +:+ report_lines t (preorder_depth d s)).

(** ** The names of the nodes *)

(** Whether the character [c] occurs in [s]. *)
Fixpoint has_char (c : ascii) (s : string) : bool :=
  match s with
  | EmptyString => false
  | String a s => Ascii.eqb a c || has_char c s
  end.

(** [child] is a directory that the scanner enters from the directory
    [parent]: an entry of [parent] that is not hidden and is a directory, with
    the path of [parent], a slash and the name of the entry as its path. *)
Definition child_entry (parent child : string * inode) : Prop :=
  ∃ entries d_name,
    parent.2 = Directory entries
    ∧ (d_name, child.2) ∈ entries
    ∧ is_hidden d_name = false
    ∧ S_ISDIR child.2 = true
    ∧ child.1 = parent.1 +:+ "/" +:+ d_name.

(** The slots of the directories of [r]: every slot but the first has its
    parent among the slots before it, and the tree of the slot is one of the
    children of the tree of its parent. *)
Definition kids_spec (r : rose (string * inode)) : Prop :=
  ∀ start p j nd,
    arena_of start p r !! j = Some nd → (0 < j)%nat →
    ∃ q sq sj, parent nd = Some (start + q)%nat ∧ (q < j)%nat
               ∧ subtrees r !! q = Some sq ∧ subtrees r !! j = Some sj
               ∧ sj ∈ rkids sq.

(** ** The room of the tree *)

(** The scanner of one directory [n] never finds the locked tree full when
    the tree has room for all the directories below [n]. *)
Definition no_abort_spec (n : inode) : Prop :=
  ∀ t parent dirname,
    lock t = true →
    (∀ p, parent = Some p → (p < length (tab t))%nat) →
    (N.of_nat (length (tab t) + rsize (dir_tree dirname n)) ≤ capacity t)%N →
    scan_directories n t parent dirname ≠ Abort.

(** ** Examples *)

Definition bytes_of (s : string) : list byte := String.list_byte_of_string s.

(** A directory with a file of three lines, a hidden entry that is broken, a
    directory with a header of five lines, and a script that is not readable. *)
Definition example_fs : inode :=
  Directory
    [ ("a.c", RegFile (bytes_of "a
b
c
"));
      (".git", NoStat);
      ("sub", Directory [("b.h", RegFile (bytes_of "1
2
3
4
5
"))]);
      ("x.py", NoFile) ]%string.

(** A directory with one file of 2^32 empty lines. *)
Definition overflow_file : list byte := repeat x0a (Z.to_nat 4294967296).

Definition overflow_fs : inode := Directory [("a.c"%string, RegFile overflow_file)].

(** A tree with one node, which counts seven lines. *)
Definition example_tree : tree_t :=
  mk_tree [mk_node (mk_dir 7 "root") None []] (Some 0%nat) MAX_DIRECTORY true.

Definition ten_lines : list byte := repeat x0a 10.

(** A locked tree whose single reserved slot is in use. *)
Definition full_tree : tree_t :=
  mk_tree [mk_node (mk_dir 0 "root") None []] (Some 0%nat) 1 true.

(** The tree of [example_fs] as the scanner leaves it, and its shape. *)
Definition scanned_tree : tree_t :=
  mk_tree [mk_node (mk_dir 3 "root") None [1%nat];
           mk_node (mk_dir 5 "root/sub") (Some 0%nat) []]
    (Some 0%nat) MAX_DIRECTORY true.

Definition scanned_shape : rose nat := Rose 0%nat [Rose 1%nat []].

(** A file of [n] empty lines. *)
Definition lines_file (n : nat) : inode := RegFile (repeat x0a n).

(** Three directories in a directory, of five, eight and five lines. *)
Definition ties_fs : inode :=
  Directory
    [ ("a", Directory [("x.c", lines_file 5)]);
      ("b", Directory [("x.h", lines_file 8)]);
      ("c", Directory [("x.cpp", lines_file 5)]) ]%string.

(** A tree of four directories: the root, two directories in it, and a
    directory in the first of the two. *)
Definition four_dirs : tree_t :=
  mk_tree [mk_node (mk_dir 1 "root") None [1%nat; 3%nat];
           mk_node (mk_dir 2 "root/a") (Some 0%nat) [2%nat];
           mk_node (mk_dir 3 "root/a/b") (Some 1%nat) [];
           mk_node (mk_dir 4 "root/c") (Some 0%nat) []]
    (Some 0%nat) MAX_DIRECTORY true.

(** A tree whose root holds the biggest count that fits, with a directory of
    one line in it. *)
Definition wrap_tree : tree_t :=
  mk_tree [mk_node (mk_dir UINT_MAX "root") None [1%nat];
           mk_node (mk_dir 1 "root/sub") (Some 0%nat) []]
    (Some 0%nat) MAX_DIRECTORY true.

(** * Properties *)

(** ** Unsigned arithmetic *)

Lemma to_uint_range x : 0 ≤ to_uint x < UINT_MAX + 1.
Proof. unfold to_uint, UINT_MAX. apply Z.mod_pos_bound. lia. Qed.

Lemma to_uint_small x : 0 ≤ x < UINT_MAX + 1 → to_uint x = x.
Proof. intros. unfold to_uint. by apply Z.mod_small. Qed.

Lemma to_uint_idemp x : to_uint (to_uint x) = to_uint x.
Proof. apply to_uint_small, to_uint_range. Qed.

Lemma to_uint_add_l a b : to_uint (to_uint a + b) = to_uint (a + b).
Proof. unfold to_uint, UINT_MAX. by rewrite Zplus_mod_idemp_l. Qed.

Lemma to_uint_add_r a b : to_uint (a + to_uint b) = to_uint (a + b).
Proof. unfold to_uint, UINT_MAX. by rewrite Zplus_mod_idemp_r. Qed.

Lemma uint_add_range a b : 0 ≤ uint_add a b < UINT_MAX + 1.
Proof. apply to_uint_range. Qed.

Lemma to_uint_add_mid a b c : to_uint (a + to_uint b + c) = to_uint (a + b + c).
Proof.
  replace (a + to_uint b + c) with (to_uint b + (a + c)) by lia.
  rewrite to_uint_add_l. f_equal. lia.
Qed.

(** Reductions inside a reduction disappear. *)
Create Rewrite HintDb uint.
#[global] Hint Rewrite to_uint_idemp to_uint_add_l to_uint_add_r to_uint_add_mid
  Z.add_0_l Z.add_0_r : uint.

Ltac uint_simpl := unfold uint_add; autorewrite with uint.

(** ** Counting the lines of a file *)

Lemma newlines_nonneg l : 0 ≤ newlines l.
Proof. induction l as [|c l IH]; simpl; [lia|]. destruct (Byte.eqb c x0a); lia. Qed.

Lemma newlines_app l1 l2 : newlines (l1 ++ l2) = newlines l1 + newlines l2.
Proof. induction l1 as [|c l1 IH]; simpl; [done|]. rewrite IH. lia. Qed.

Lemma newlines_repeat n : newlines (repeat x0a n) = Z.of_nat n.
Proof. induction n as [|n IH]; [done|]. cbn [repeat newlines]. rewrite IH. simpl. lia. Qed.

Lemma count_eol_from buffer count :
  fold_left (λ count c, uint_add count (if Byte.eqb c x0a then 1 else 0)) buffer
    (to_uint count)
  = to_uint (count + newlines buffer).
Proof.
  revert count. induction buffer as [|c buffer IH]; intros count; simpl.
  - by rewrite Z.add_0_r.
  - unfold uint_add at 2. rewrite to_uint_add_l, IH. f_equal. lia.
Qed.

Lemma count_eol_newlines buffer : count_eol buffer = to_uint (newlines buffer).
Proof.
  unfold count_eol. pose proof (count_eol_from buffer 0) as H.
  rewrite Z.add_0_l in H. exact H.
Qed.

Lemma read_loop_newlines f count : read_loop f count = to_uint (count + newlines f).
Proof.
  funelim (read_loop f count); simpl in *.
  - rewrite H, count_eol_newlines. uint_simpl.
    rewrite <-(take_drop MAX_READ_BUFFER f) at 3. rewrite newlines_app. f_equal. lia.
  - rewrite count_eol_newlines. uint_simpl.
    rewrite take_ge; [done|].
    clear Heq Heqcall. rewrite length_take in n. lia.
Qed.

(** ** The suffixes of the file names *)

Lemma append_cons a s1 s2 : String a s1 +:+ s2 = String a (s1 +:+ s2).
Proof. reflexivity. Qed.

Lemma append_nil s : ""%string +:+ s = s.
Proof. reflexivity. Qed.

Lemma substring_all s : String.substring 0 (String.length s) s = s.
Proof. induction s as [|a s IH]; simpl; [done|]. by rewrite IH. Qed.

Lemma substring_suffix stem suffix :
  String.substring (String.length stem) (String.length suffix) (stem +:+ suffix) = suffix.
Proof.
  induction stem as [|a stem IH].
  - rewrite append_nil. apply substring_all.
  - rewrite append_cons. simpl. done.
Qed.

Lemma substring_split s k :
  (k ≤ String.length s)%nat →
  ∃ stem, s = stem +:+ String.substring k (String.length s - k) s.
Proof.
  revert k. induction s as [|a s IH]; intros k Hk.
  - exists ""%string. by destruct k.
  - destruct k as [|k].
    + exists ""%string. by rewrite append_nil, Nat.sub_0_r, substring_all.
    + destruct (IH k) as [stem Hstem]; [simpl in Hk; lia|].
      exists (String a stem). rewrite append_cons. simpl. by f_equal.
Qed.

Lemma app_length_string s1 s2 :
  String.length (s1 +:+ s2) = (String.length s1 + String.length s2)%nat.
Proof.
  induction s1 as [|a s1 IH]; [done|].
  rewrite append_cons. simpl. by rewrite IH.
Qed.

Lemma string_end_with_str_p_spec s suffix :
  string_end_with_str_p s suffix = true ↔ ∃ stem, s = stem +:+ suffix.
Proof.
  unfold string_end_with_str_p. rewrite andb_true_iff, bool_decide_eq_true, String.eqb_eq.
  split.
  - intros [Hle Heq].
    destruct (substring_split s (String.length s - String.length suffix)) as [stem Hstem];
      [lia|].
    exists stem.
    replace (String.length s - (String.length s - String.length suffix))%nat
      with (String.length suffix) in Hstem by lia.
    by rewrite Heq in Hstem.
  - intros [stem ->]. rewrite app_length_string. split; [lia|].
    replace (String.length stem + String.length suffix - String.length suffix)%nat
      with (String.length stem) by lia.
    apply substring_suffix.
Qed.

Lemma is_a_c_file_spec filename :
  is_a_c_file filename = true ↔
  ∃ stem suffix, suffix ∈ [".c"; ".h"; ".cpp"; ".hpp"]%string ∧ filename = stem +:+ suffix.
Proof.
  unfold is_a_c_file. rewrite !orb_true_iff, !string_end_with_str_p_spec. split.
  - intros [[[[stem ->]|[stem ->]]|[stem ->]]|[stem ->]]; exists stem; eexists;
      (split; [|done]); repeat constructor.
  - intros (stem & suffix & Hin & ->).
    rewrite !elem_of_cons, elem_of_nil in Hin.
    destruct Hin as [->|[->|[->|[->|[]]]]]; eauto 6.
Qed.

(** ** The shape of the trees *)

Lemma number_unfold {A} start (a : A) ks :
  number start (Rose a ks) = Rose start (number_forest (S start) ks).
Proof.
  simpl. f_equal. generalize (S start). induction ks as [|k ks IH]; intros st; simpl; [done|].
  by rewrite IH.
Qed.

Lemma rlabel_number {A} start (r : rose A) : rlabel (number start r) = start.
Proof. by destruct r. Qed.

Lemma arena_of_unfold start p d ks :
  arena_of start p (Rose d ks) =
  mk_node (mk_dir (to_uint (own_lines_of d)) d.1) p (map rlabel (number_forest (S start) ks))
  :: arena_forest (S start) (Some start) ks.
Proof.
  simpl. f_equal. generalize (S start). induction ks as [|k ks IH]; intros st; simpl; [done|].
  by rewrite IH.
Qed.

Lemma dir_tree_unfold dirname n :
  dir_tree dirname n =
  Rose (dirname, n) (default [] (dir_forest dirname <$> opendir n)).
Proof.
  destruct n as [| | | |entries]; simpl; try done. f_equal.
  unfold dir_forest. induction entries as [|[d_name n'] entries IH]; simpl; [done|].
  destruct (negb (is_hidden d_name) && S_ISDIR n'); simpl; by rewrite IH.
Qed.

(** ** What the scanner does to the table *)

Lemma outcome_bind_ext {A B} (f g : A → outcome B) (m : outcome A) :
  (∀ a, f a = g a) → m ≫= f = m ≫= g.
Proof. intros Hfg. destruct m; simpl; auto. Qed.

Lemma outcome_bind_Ok {A B} (f : A → outcome B) (m : outcome A) b :
  m ≫= f = Ok b → ∃ a, m = Ok a ∧ f a = Ok b.
Proof. destruct m; simpl; eauto; done. Qed.

Lemma scan_directories_unfold n t parent dirname :
  scan_directories n t parent dirname =
  '(t, it) ← add_directory t parent dirname;
  match opendir n with
  | Some entries => readdir_loop it dirname entries t
  | None => Exit (DirectoryOpenError dirname)
  end.
Proof.
  destruct n as [| | | |entries]; simpl; try done.
  destruct (add_directory t parent dirname) as [[t1 it]| |]; simpl; try done.
  revert t1. induction entries as [|[d_name n'] entries IH]; intros t1; simpl; [done|].
  destruct (is_hidden d_name); [done|].
  destruct n'; try done; by apply outcome_bind_ext.
Qed.

Lemma add_directory_tab t parent dirname t1 it :
  add_directory t parent dirname = Ok (t1, it) →
  (∀ p, parent = Some p → (p < length (tab t))%nat) →
  it = length (tab t)
  ∧ tab t1 = attach parent it (tab t) ++ [mk_node (mk_dir 0 dirname) parent []]
  ∧ lock t1 = lock t
  ∧ root t1 = match parent with None => Some it | Some _ => root t end
  ∧ (lock t = true →
     capacity t1 = capacity t ∧ (N.of_nat (length (tab t1)) ≤ capacity t1)%N).
Proof.
  intros Hadd Hp. unfold add_directory, tree_set_root, tree_insert_child, alloc_node in Hadd.
  destruct (decide (N.of_nat (length (tab t)) < capacity t)%N) as [Hlt|Hge];
    [|destruct (lock t) eqn:Hlock; [by destruct parent|]];
    destruct parent as [p|]; simpl in Hadd; injection Hadd as <- <-; simpl;
    rewrite ?alter_app_l by eauto; split_and!; try done;
    intros _; rewrite ?length_app, ?length_alter; simpl; split; (done || lia).
Qed.

Lemma scan_file_tab t filename n t' pre post a nm p c :
  scan_file t (length pre) filename n = Ok t' →
  tab t = pre ++ mk_node (mk_dir (to_uint a) nm) p c :: post →
  tab t' = pre ++ mk_node (mk_dir (to_uint (a + file_lines filename n)) nm) p c :: post
  ∧ lock t' = lock t ∧ root t' = root t ∧ capacity t' = capacity t.
Proof.
  unfold scan_file, file_lines. intros Hscan Htab.
  destruct (is_a_c_file filename); simpl in *.
  - destruct (fopen n) as [f|]; [|done]. injection Hscan as <-. simpl. split; [|done].
    rewrite Htab, alter_app_r_alt, Nat.sub_diag by lia. simpl.
    unfold fetch_add; simpl. rewrite read_loop_newlines. by uint_simpl.
  - injection Hscan as <-. by rewrite Z.add_0_r.
Qed.

Lemma arena_of_length start p r : length (arena_of start p r) = rsize r.
Proof.
  revert start p. induction r as [d ks IH] using rose_ind; intros start p.
  rewrite arena_of_unfold. unfold rsize. simpl. f_equal.
  generalize (S start) (Some start). induction IH as [|k ks Hk _ IHks]; intros st q; simpl; [done|].
  rewrite !length_app, Hk, IHks. done.
Qed.

Lemma readdir_loop_tab dirname entries :
  Forall (λ e, scan_spec e.2) entries →
  ∀ t t' pre post a nm p c,
    readdir_loop (length pre) dirname entries t = Ok t' →
    tab t = pre ++ mk_node (mk_dir (to_uint a) nm) p c :: post →
    tab t' = pre
             ++ mk_node (mk_dir (to_uint (a + own_lines dirname entries)) nm) p
                  (c ++ map rlabel (number_forest (length (tab t)) (dir_forest dirname entries)))
             :: post
             ++ arena_forest (length (tab t)) (Some (length pre)) (dir_forest dirname entries)
    ∧ lock t' = lock t ∧ root t' = root t
    ∧ (lock t = true →
       capacity t' = capacity t
       ∧ ((N.of_nat (length (tab t)) ≤ capacity t)%N →
          (N.of_nat (length (tab t')) ≤ capacity t')%N)).
Proof.
  induction 1 as [|[d_name n] entries Hn _ IH]; intros t t' pre post a nm p c Hloop Htab.
  { simpl in *. injection Hloop as <-. by rewrite !app_nil_r, Z.add_0_r. }
  unfold dir_forest in *. cbn [readdir_loop subdirs own_lines] in *.
  destruct (is_hidden d_name) eqn:Hhid; cbn [negb andb orb] in *.
  { rewrite Z.add_0_l. eauto. }
  set (filename := dirname +:+ "/" +:+ d_name) in *.
  destruct (S_ISDIR n) eqn:Hdir.
  - (* a directory *)
    assert (∃ t1, scan_directories n t (Some (length pre)) filename = Ok t1
                  ∧ readdir_loop (length pre) dirname entries t1 = Ok t') as (t1 & Hscan & Hrest).
    { destruct n; try done; cbn [S_ISDIR] in Hloop; by apply outcome_bind_Ok in Hloop. }
    destruct (Hn t (Some (length pre)) filename t1 Hscan) as (Htab1 & Hlock1 & Hroot1 & Hcap1).
    { intros ? [= <-]. rewrite Htab, length_app. simpl. lia. }
    simpl in Htab1.
    rewrite Htab, alter_app_r_alt, Nat.sub_diag in Htab1 by lia. simpl in Htab1.
    unfold add_child in Htab1; simpl in Htab1.
    rewrite <-Htab, <-app_assoc in Htab1. simpl in Htab1.
    destruct (IH t1 t' pre _ a nm p _ Hrest Htab1) as (Htab' & Hlock' & Hroot' & Hcap').
    split_and!; [|congruence|congruence|].
    2:{ intros Hlock. rewrite Hlock1 in Hcap'.
        destruct (Hcap1 Hlock) as [Hc1 Hle1], (Hcap' Hlock) as [Hc' Hle'].
        split; [congruence|]. intros _. by apply Hle'. }
    rewrite Htab'.
    assert (length (tab t1) = (length (tab t) + rsize (dir_tree filename n))%nat) as ->.
    { rewrite Htab1, !length_app. simpl. rewrite length_app, arena_of_length.
      rewrite Htab, length_app. simpl. lia. }
    rewrite Z.add_0_l. cbn [map number_forest arena_forest].
    rewrite <-!app_assoc, rlabel_number. done.
  - (* not a directory *)
    assert (∃ t1, scan_file t (length pre) filename n = Ok t1
                  ∧ readdir_loop (length pre) dirname entries t1 = Ok t') as (t1 & Hscan & Hrest).
    { destruct n; try done; cbn [S_ISDIR] in Hloop; by apply outcome_bind_Ok in Hloop. }
    destruct (scan_file_tab _ _ _ _ _ _ _ _ _ _ Hscan Htab) as (Htab1 & Hlock1 & Hroot1 & Hcap1).
    destruct (IH t1 t' pre _ _ nm p _ Hrest Htab1) as (Htab' & Hlock' & Hroot' & Hcap').
    assert (length (tab t1) = length (tab t)) as Hlen1.
    { rewrite Htab1, Htab, !length_app. done. }
    split_and!; [|congruence|congruence|].
    2:{ intros Hlock. rewrite Hlock1, Hcap1, Hlen1 in Hcap'. auto. }
    rewrite Htab', Hlen1. by rewrite Z.add_assoc.
Qed.

Lemma scan_directories_tab n : scan_spec n.
Proof.
  induction n as [| | | |entries IH] using inode_ind; intros t parent dirname t' Hscan Hp;
    rewrite scan_directories_unfold in Hscan;
    destruct (add_directory t parent dirname) as [[t1 it]| |] eqn:Hadd; try done;
    simpl in Hscan; try done.
  destruct (add_directory_tab _ _ _ _ _ Hadd Hp) as (-> & Htab1 & Hlock1 & Hroot1 & Hcap1).
  assert (length (attach parent (length (tab t)) (tab t)) = length (tab t)) as Hlen.
  { destruct parent; simpl; [apply length_alter|done]. }
  rewrite <-Hlen in Hscan at 1.
  change 0 with (to_uint 0) in Htab1.
  destruct (readdir_loop_tab dirname entries IH _ _ _ _ _ _ _ _ Hscan Htab1)
    as (Htab' & Hlock' & Hroot' & Hcap').
  split_and!.
  2:{ congruence. }
  2:{ rewrite Hroot', Hroot1. by destruct parent. }
  2:{ intros Hlock. rewrite Hlock1 in Hcap'.
      destruct (Hcap1 Hlock) as [Hc1 Hle1], (Hcap' Hlock) as [Hc' Hle'].
      split; [congruence|auto]. }
  rewrite Htab', Hlen.
  rewrite dir_tree_unfold, arena_of_unfold. simpl.
  rewrite Htab1, length_app, Hlen. simpl.
  rewrite Nat.add_1_r. done.
Qed.

(** ** Trees and their numbering *)

Lemma rsize_unfold {A} (a : A) ks :
  rsize (Rose a ks) = S (length (concat (map preorder ks))).
Proof. done. Qed.

Lemma rsize_pos {A} (r : rose A) : (0 < rsize r)%nat.
Proof. destruct r. rewrite rsize_unfold. lia. Qed.

Lemma preorder_number_forest {A} (ks : list (rose A)) :
  Forall (λ k, ∀ start, preorder (number start k) = seq start (rsize k)) ks →
  ∀ start, concat (map preorder (number_forest start ks))
           = seq start (length (concat (map preorder ks))).
Proof.
  induction 1 as [|k ks Hk _ IH]; intros start; simpl; [done|].
  rewrite Hk, IH, length_app, seq_app. done.
Qed.

Lemma preorder_number {A} (r : rose A) start :
  preorder (number start r) = seq start (rsize r).
Proof.
  revert start. induction r as [a ks IH] using rose_ind; intros start.
  rewrite number_unfold, rsize_unfold. cbn [preorder seq]. f_equal.
  by apply preorder_number_forest.
Qed.

Lemma postorder_preorder {A} (r : rose A) : postorder r ≡ₚ preorder r.
Proof.
  induction r as [a ks IH] using rose_ind. cbn [postorder preorder].
  rewrite <-Permutation_cons_append. constructor.
  induction IH as [|k ks Hk _ IHks]; simpl; [done|]. by rewrite Hk, IHks.
Qed.

Lemma rlabel_preorder {A} (r : rose A) : rlabel r ∈ preorder r.
Proof. destruct r. simpl. left. Qed.

Lemma leftmost_preorder {A} (r : rose A) : leftmost r ∈ preorder r.
Proof.
  induction r as [a ks IH] using rose_ind. destruct IH as [|k ks Hk _]; simpl.
  - left.
  - right. apply elem_of_app. by left.
Qed.

(** ** The tree that the arena of a scan holds *)

Lemma arena_forest_length start p ks :
  length (arena_forest start p ks) = length (concat (map preorder ks)).
Proof.
  revert start. induction ks as [|k ks IH]; intros start; simpl; [done|].
  rewrite !length_app, arena_of_length, IH. done.
Qed.

Lemma arena_of_repr r : ∀ t start p pre post,
  tab t = pre ++ arena_of start p r ++ post →
  start = length pre →
  repr t p (number start r).
Proof.
  induction r as [d ks IH] using rose_ind. intros t start p pre post Htab ->.
  rewrite number_unfold. rewrite arena_of_unfold in Htab.
  econstructor.
  - rewrite Htab, lookup_app_r, Nat.sub_diag by lia. done.
  - done.
  - done.
  - assert (∀ st pre' post', tab t = pre' ++ arena_forest st (Some (length pre)) ks ++ post' →
              st = length pre' →
              Forall (repr t (Some (length pre))) (number_forest st ks)) as Hforest.
    { clear Htab. induction IH as [|k ks Hk _ IHks]; intros st pre' post' Htab ->; simpl.
      - constructor.
      - simpl in Htab. rewrite <-app_assoc in Htab. constructor.
        + by eapply Hk.
        + eapply (IHks _ (pre' ++ arena_of (length pre') (Some (length pre)) k)).
          * by rewrite <-app_assoc.
          * by rewrite length_app, arena_of_length. }
    eapply (Hforest _ (pre ++ [_])).
    + rewrite <-app_assoc. exact Htab.
    + rewrite length_app. simpl. lia.
Qed.

Lemma arena_of_data r start p :
  map data (arena_of start p r) = map scanned_dir (preorder r).
Proof.
  revert start p. induction r as [d ks IH] using rose_ind; intros start p.
  rewrite arena_of_unfold. cbn [map preorder data]. f_equal.
  generalize (S start) (Some start).
  induction IH as [|k ks Hk _ IHks]; intros st q; simpl; [done|].
  by rewrite !map_app, Hk, IHks.
Qed.

(** ** The stable sort *)

Lemma atomic_uint_cmp_le a b : (atomic_uint_cmp a b <=? 0) = true ↔ b ≤ a.
Proof.
  unfold atomic_uint_cmp.
  destruct (Z.gtb_spec a b), (Z.ltb_spec a b); rewrite Z.leb_le; lia.
Qed.

Lemma sort_insert_perm cmp x l : sort_insert cmp x l ≡ₚ x :: l.
Proof.
  induction l as [|y l IH]; simpl; [done|].
  destruct (cmp x y <=? 0); [done|]. by rewrite IH, Permutation_swap.
Qed.

Lemma stable_sort_perm cmp l : stable_sort cmp l ≡ₚ l.
Proof.
  induction l as [|x l IH]; simpl; [done|]. by rewrite sort_insert_perm, IH.
Qed.

Section stable_sort.
Context (key : nat → Z).

Lemma sort_insert_sorted x l :
  StronglySorted (key_ge key) l → StronglySorted (key_ge key) (sort_insert (key_cmp key) x l).
Proof.
  induction 1 as [|y l Hl IH Hy]; simpl.
  - repeat constructor.
  - destruct (key_cmp key x y <=? 0) eqn:Hxy.
    + apply atomic_uint_cmp_le in Hxy. constructor; [by constructor|].
      constructor; [done|].
      eapply Forall_impl; [exact Hy|]. unfold key_ge. simpl. intros; lia.
    + assert (key x < key y).
      { destruct (Z.le_gt_cases (key y) (key x)) as [Hle|]; [|lia].
        apply atomic_uint_cmp_le in Hle. unfold key_cmp in Hxy. congruence. }
      constructor; [done|].
      rewrite sort_insert_perm. constructor; [unfold key_ge; lia|done].
Qed.

Lemma stable_sort_sorted l : StronglySorted (key_ge key) (stable_sort (key_cmp key) l).
Proof.
  induction l as [|x l IH]; simpl; [constructor|]. by apply sort_insert_sorted.
Qed.

Lemma sort_insert_filter v x l :
  filter (λ y, key y = v) (sort_insert (key_cmp key) x l) = filter (λ y, key y = v) (x :: l).
Proof.
  induction l as [|y l IH]; simpl; [done|].
  destruct (key_cmp key x y <=? 0) eqn:Hxy; [done|].
  assert (key x < key y).
  { destruct (Z.le_gt_cases (key y) (key x)) as [Hle|]; [|lia].
    apply atomic_uint_cmp_le in Hle. unfold key_cmp in Hxy. congruence. }
  rewrite !filter_cons in *. rewrite IH.
  repeat case_decide; try done; lia.
Qed.

Lemma stable_sort_filter v l :
  filter (λ y, key y = v) (stable_sort (key_cmp key) l) = filter (λ y, key y = v) l.
Proof.
  induction l as [|x l IH]; simpl; [done|].
  rewrite sort_insert_filter, !filter_cons, IH. done.
Qed.

Lemma sort_insert_sorted_id x l :
  Forall (key_ge key x) l → sort_insert (key_cmp key) x l = x :: l.
Proof.
  destruct 1 as [|y l Hy _]; simpl; [done|].
  apply atomic_uint_cmp_le in Hy. unfold key_cmp. by rewrite Hy.
Qed.

Lemma stable_sort_sorted_id l : StronglySorted (key_ge key) l → stable_sort (key_cmp key) l = l.
Proof.
  induction 1 as [|x l _ IH Hx]; simpl; [done|].
  rewrite IH. by apply sort_insert_sorted_id.
Qed.
End stable_sort.

Lemma sort_insert_ext cmp1 cmp2 x l :
  (∀ y, y ∈ l → cmp1 x y = cmp2 x y) → sort_insert cmp1 x l = sort_insert cmp2 x l.
Proof.
  induction l as [|y l IH]; intros Hcmp; simpl; [done|].
  rewrite Hcmp by left. rewrite IH; [done|]. intros; apply Hcmp. by right.
Qed.

Lemma stable_sort_ext cmp1 cmp2 l :
  (∀ x y, x ∈ l → y ∈ l → cmp1 x y = cmp2 x y) → stable_sort cmp1 l = stable_sort cmp2 l.
Proof.
  induction l as [|x l IH]; intros Hcmp; simpl; [done|].
  rewrite IH by (intros; apply Hcmp; by right).
  apply sort_insert_ext. intros y Hy. apply Hcmp; [left|right].
  by rewrite <-(stable_sort_perm cmp2 l).
Qed.

(** ** One step of the consolidation *)

Lemma add_to_parent_lookup t i j :
  tab (add_to_parent t i) !! j =
  (if decide (tree_up t i = Some j) then fetch_add (nlines_at t i) else id) <$> tab t !! j.
Proof.
  unfold add_to_parent. destruct (decide (tree_up t i = Some j)) as [Hp|Hp].
  - rewrite Hp. apply list_lookup_alter_eq.
  - rewrite option_fmap_id. destruct (tree_up t i) as [p|]; simpl; [|done].
    apply list_lookup_alter_ne. congruence.
Qed.

Lemma consolidate_node_lookup t i j :
  tab (consolidate_node t i) !! j =
  (if decide (j = i) then sort_children (add_to_parent t i) else id)
    <$> tab (add_to_parent t i) !! j.
Proof.
  unfold consolidate_node, tree_sort_child. simpl. destruct (decide (j = i)) as [->|Hj].
  - apply list_lookup_alter_eq.
  - rewrite option_fmap_id. by apply list_lookup_alter_ne.
Qed.

Lemma add_to_parent_length t i : length (tab (add_to_parent t i)) = length (tab t).
Proof. unfold add_to_parent. destruct (tree_up t i); simpl; [apply length_alter|done]. Qed.

Lemma consolidate_node_length t i : length (tab (consolidate_node t i)) = length (tab t).
Proof. unfold consolidate_node. simpl. by rewrite length_alter, add_to_parent_length. Qed.

Lemma add_to_parent_root t i : root (add_to_parent t i) = root t.
Proof. unfold add_to_parent. by destruct (tree_up t i). Qed.

Lemma consolidate_node_root t i : root (consolidate_node t i) = root t.
Proof. unfold consolidate_node. simpl. apply add_to_parent_root. Qed.

Lemma tree_up_add_to_parent t i j : tree_up (add_to_parent t i) j = tree_up t j.
Proof.
  unfold tree_up. rewrite add_to_parent_lookup.
  destruct (tab t !! j) as [nd|]; [|done]. simpl. by case_decide.
Qed.

Lemma tree_down_add_to_parent t i j : tree_down (add_to_parent t i) j = tree_down t j.
Proof.
  unfold tree_down. rewrite add_to_parent_lookup.
  destruct (tab t !! j) as [nd|]; [|done]. simpl. by case_decide.
Qed.

Lemma tree_up_consolidate_node t i j : tree_up (consolidate_node t i) j = tree_up t j.
Proof.
  rewrite <-(tree_up_add_to_parent t i j). unfold tree_up at 1.
  rewrite consolidate_node_lookup. unfold tree_up.
  destruct (tab (add_to_parent t i) !! j) as [nd|]; [|done]. simpl. by case_decide.
Qed.

Lemma tree_down_consolidate_node_ne t i j :
  j ≠ i → tree_down (consolidate_node t i) j = tree_down t j.
Proof.
  intros Hj. rewrite <-(tree_down_add_to_parent t i j). unfold tree_down at 1.
  rewrite consolidate_node_lookup. unfold tree_down.
  destruct (tab (add_to_parent t i) !! j) as [nd|]; [|done]. simpl. by case_decide.
Qed.

Lemma consolidate_all_length t l : length (tab (consolidate_all t l)) = length (tab t).
Proof.
  revert t. induction l as [|i l IH]; intros t; simpl; [done|].
  by rewrite IH, consolidate_node_length.
Qed.

Lemma consolidate_all_root t l : root (consolidate_all t l) = root t.
Proof.
  revert t. induction l as [|i l IH]; intros t; simpl; [done|].
  by rewrite IH, consolidate_node_root.
Qed.

Lemma tree_up_consolidate_all t l j : tree_up (consolidate_all t l) j = tree_up t j.
Proof.
  revert t. induction l as [|i l IH]; intros t; simpl; [done|].
  by rewrite IH, tree_up_consolidate_node.
Qed.

Lemma tree_down_consolidate_all t l j :
  j ∉ l → tree_down (consolidate_all t l) j = tree_down t j.
Proof.
  revert t. induction l as [|i l IH]; intros t Hj; simpl; [done|].
  apply not_elem_of_cons in Hj as [? ?].
  by rewrite IH, tree_down_consolidate_node_ne.
Qed.

Lemma consolidate_all_app t l1 l2 :
  consolidate_all t (l1 ++ l2) = consolidate_all (consolidate_all t l1) l2.
Proof. apply foldl_app. Qed.

(** ** The tree that an arena holds *)

Lemma elem_of_concat_map {A B} (f : A → list B) (l : list A) (x : B) :
  x ∈ concat (map f l) ↔ ∃ a, a ∈ l ∧ x ∈ f a.
Proof.
  induction l as [|a l IH]; simpl.
  - split; [by intros ?%elem_of_nil|by intros (? & ?%elem_of_nil & _)].
  - rewrite elem_of_app, IH. split.
    + intros [?|(a' & ? & ?)]; [exists a; split; [left|done]|exists a'; split; [by right|done]].
    + intros (a' & [->|?]%elem_of_cons & ?); eauto.
Qed.

Lemma repr_inv t p i ks :
  repr t p (Rose i ks) ↔
  (i < length (tab t))%nat ∧ tree_up t i = p ∧ tree_down t i = map rlabel ks
  ∧ Forall (repr t (Some i)) ks.
Proof.
  unfold tree_up, tree_down. split.
  - inversion 1 as [? ? ? nd Hnd Hp Hc Hks]; subst. rewrite Hnd. simpl.
    split_and!; try done. by eapply lookup_lt_Some.
  - intros (Hi & Hp & Hc & Hks). apply lookup_lt_is_Some in Hi as [nd Hnd].
    rewrite Hnd in Hp, Hc. simpl in *. by econstructor.
Qed.

Lemma repr_frame t t' s : ∀ p,
  length (tab t') = length (tab t) →
  (∀ j, tree_up t' j = tree_up t j) →
  (∀ j, j ∈ preorder s → tree_down t' j = tree_down t j) →
  repr t p s → repr t' p s.
Proof.
  induction s as [i ks IH] using rose_ind. intros p Hlen Hup Hdown.
  rewrite !repr_inv. intros (Hi & Hp & Hc & Hks).
  split_and!; [lia|by rewrite Hup|by rewrite Hdown by left|].
  assert (∀ k, k ∈ ks → ∀ j, j ∈ preorder k → tree_down t' j = tree_down t j) as Hdown'.
  { intros k Hk j Hj. apply Hdown. simpl. right.
    apply elem_of_concat_map. eauto. }
  clear Hc Hdown. induction Hks as [|k ks Hk Hks IHks]; [constructor|].
  apply Forall_cons in IH as [IHk IH]. constructor.
  - apply IHk; [done..| |done]. apply Hdown'. left.
  - apply IHks; [done|]. intros k' Hk'. apply Hdown'. by right.
Qed.

Lemma repr_lt t p s j : repr t p s → j ∈ preorder s → (j < length (tab t))%nat.
Proof.
  revert p. induction s as [i ks IH] using rose_ind. intros p.
  rewrite repr_inv. intros (Hi & _ & _ & Hks). simpl.
  rewrite elem_of_cons. intros [->|Hj]; [done|].
  induction Hks as [|k ks Hk Hks IHks]; simpl in Hj; [by apply elem_of_nil in Hj|].
  apply Forall_cons in IH as [IHk IH].
  apply elem_of_app in Hj as [Hj|Hj]; eauto.
Qed.

Lemma NoDup_lt_length (l : list nat) n :
  NoDup l → (∀ j, j ∈ l → (j < n)%nat) → (length l ≤ n)%nat.
Proof.
  intros Hl Hlt. trans (length (seq 0 n)); [|by rewrite length_seq].
  apply submseteq_length.
  apply NoDup_submseteq; [done|]. intros j Hj. apply elem_of_seq. split; [lia|].
  by apply Hlt.
Qed.

Lemma repr_size t p s : repr t p s → NoDup (preorder s) → (rsize s ≤ length (tab t))%nat.
Proof. intros Hs Hnd. apply NoDup_lt_length; [done|]. intros j. by eapply repr_lt. Qed.

(** ** The post-order iterator *)

Lemma deepest_leftmost s : ∀ t p fuel,
  repr t p s → (rsize s ≤ fuel)%nat → deepest fuel t (rlabel s) = Some (leftmost s).
Proof.
  induction s as [i ks IH] using rose_ind. intros t p fuel.
  rewrite repr_inv, rsize_unfold. intros (_ & _ & Hc & Hks) Hfuel.
  destruct fuel as [|fuel]; [lia|]. simpl. rewrite Hc.
  destruct Hks as [|k ks Hk _]; simpl; [done|].
  apply Forall_cons in IH as [IHk _]. destruct k as [c ks'].
  apply (IHk t (Some i)); [done|]. simpl in Hfuel. rewrite length_app in Hfuel.
  unfold rsize. simpl in *. lia.
Qed.

Lemma next_in_app i pre rest : i ∉ pre → next_in i (pre ++ i :: rest) = head rest.
Proof.
  induction pre as [|x pre IH]; intros Hi; simpl.
  - by rewrite decide_True.
  - apply not_elem_of_cons in Hi as [? ?]. rewrite decide_False by done. auto.
Qed.

Lemma tree_next_post_sibling t i p pre s rest d :
  tree_up t i = Some p →
  tree_down t p = pre ++ i :: s :: rest →
  i ∉ pre →
  deepest (S (length (tab t))) t s = Some d →
  tree_next_post t i = Some (Some d).
Proof.
  intros Hup Hdown Hi Hd. unfold tree_next_post, right_sibling.
  rewrite Hup. cbn -[deepest]. rewrite Hdown, next_in_app by done.
  cbn -[deepest]. by rewrite Hd.
Qed.

Lemma tree_next_post_up t i p pre :
  tree_up t i = Some p →
  tree_down t p = pre ++ [i] →
  i ∉ pre →
  tree_next_post t i = Some (Some p).
Proof.
  intros Hup Hdown Hi. unfold tree_next_post, right_sibling.
  rewrite Hup. simpl. by rewrite Hdown, next_in_app by done.
Qed.

Lemma tree_next_post_root t i : tree_up t i = None → tree_next_post t i = Some None.
Proof. intros Hup. unfold tree_next_post, right_sibling. by rewrite Hup. Qed.

(** ** The loop of the consolidation visits the nodes in post-order *)

Lemma consolidate_loop_step fuel t i :
  consolidate_loop (S fuel) t (Some i) =
  tree_next_post (consolidate_node t i) i ≫= consolidate_loop fuel (consolidate_node t i).
Proof. done. Qed.

Lemma postorder_unfold {A} (s : rose A) :
  postorder s = concat (map postorder (rkids s)) ++ [rlabel s].
Proof. by destruct s. Qed.

Lemma preorder_length {A} (s : rose A) :
  length (preorder s) = S (length (concat (map preorder (rkids s)))).
Proof. by destruct s. Qed.

Lemma not_elem_of_postorder {A} (s : rose A) x : x ∉ preorder s → x ∉ postorder s.
Proof. by rewrite postorder_preorder. Qed.

Lemma consolidate_loop_forest i ks :
  Forall loop_spec ks →
  ∀ k t m pre,
    loop_spec k →
    tree_down t i = pre ++ map rlabel (k :: ks) →
    Forall (repr t (Some i)) (k :: ks) →
    NoDup (pre ++ concat (map preorder (k :: ks))) →
    i ∉ concat (map preorder (k :: ks)) →
    consolidate_loop (length (concat (map preorder (k :: ks))) + m) t (Some (leftmost k))
    = consolidate_loop m (consolidate_all t (concat (map postorder (k :: ks)))) (Some i).
Proof.
  induction 1 as [|k2 ks Hk2 _ IH]; intros k t m pre Hk Hdown Hrepr Hnd Hi;
    apply Forall_cons in Hrepr as [Hrk Hrepr];
    cbn [map concat] in *;
    apply NoDup_app in Hnd as (Hpre & Hdisj & Hnd);
    apply NoDup_app in Hnd as (Hndk & Hdisjk & Hndks);
    apply not_elem_of_app in Hi as [Hik Hiks];
    rewrite length_app, preorder_length, consolidate_all_app, postorder_unfold,
      consolidate_all_app;
    change (consolidate_all ?t [rlabel k]) with (consolidate_node t (rlabel k));
    rewrite <-Nat.add_assoc, Nat.add_succ_comm, (Hk t (Some i)) by done;
    rewrite consolidate_loop_step;
    set (t_a := consolidate_all t (concat (map postorder (rkids k))));
    set (t_b := consolidate_node t_a (rlabel k));
    assert (length (tab t_b) = length (tab t)) as Hlen
      by (unfold t_b, t_a; by rewrite consolidate_node_length, consolidate_all_length);
    assert (∀ j, tree_up t_b j = tree_up t j) as Hup
      by (intros j; unfold t_b, t_a;
          by rewrite tree_up_consolidate_node, tree_up_consolidate_all);
    assert (∀ j, j ∉ preorder k → tree_down t_b j = tree_down t j) as Hdn
      by (intros j Hj%not_elem_of_postorder; rewrite postorder_unfold in Hj;
          apply not_elem_of_app in Hj as [Hj1 Hj2%not_elem_of_cons]; unfold t_b, t_a;
          rewrite tree_down_consolidate_node_ne, tree_down_consolidate_all by tauto; done);
    pose proof Hrk as Hrk'; destruct k as [c cks]; apply repr_inv in Hrk' as (Hc & Hupc & _);
    cbn [rlabel rkids] in *.
  - (* the last child *)
    erewrite tree_next_post_up; [done| | |].
    + by rewrite Hup.
    + by rewrite Hdn.
    + intros Hcpre. apply (Hdisj c Hcpre). apply elem_of_app. left. left.
  - (* a child with a right sibling *)
    change (preorder k2 ++ concat (map preorder ks))
      with (concat (map preorder (k2 :: ks))) in *.
    assert (c ∉ pre) as Hcpre.
    { intros Hcpre. apply (Hdisj c Hcpre). apply elem_of_app. left. left. }
    assert (Forall (repr t_b (Some i)) (k2 :: ks)) as Hrepr_b.
    { apply Forall_forall. intros k' Hk'. rewrite Forall_forall in Hrepr.
      apply (repr_frame t); [done|done| |by apply Hrepr].
      intros j Hj. apply Hdn. intros Hjc. apply (Hdisjk j Hjc).
      apply elem_of_concat_map. eauto. }
    assert (tree_down t_b i = pre ++ c :: rlabel k2 :: map rlabel ks) as Hdown_b.
    { by rewrite Hdn. }
    erewrite tree_next_post_sibling; [|by rewrite Hup|exact Hdown_b|done|].
    2:{ apply Forall_cons in Hrepr_b as [Hrk2 _].
        eapply deepest_leftmost; [exact Hrk2|].
        apply Nat.le_le_succ_r. eapply repr_size; [exact Hrk2|].
        cbn [map concat] in Hndks. by apply NoDup_app in Hndks as (? & _ & _). }
    cbn [mbind option_bind].
    assert (consolidate_all t (concat (map postorder cks) ++ [c]) = t_b) as ->
      by (by rewrite consolidate_all_app).
    rewrite <-consolidate_all_app.
    apply (IH k2 t_b m (pre ++ [c])); try done.
    + by rewrite <-app_assoc.
    + apply NoDup_app. split_and!; [|  |done].
      * apply NoDup_app. split_and!; [done| |apply NoDup_singleton].
        intros x Hx ->%list_elem_of_singleton. done.
      * intros x [Hx| ->%list_elem_of_singleton]%elem_of_app.
        -- intros Hx'. apply (Hdisj x Hx). apply elem_of_app. by right.
        -- apply Hdisjk. left.
Qed.

Lemma consolidate_loop_subtree s : loop_spec s.
Proof.
  induction s as [i ks IH] using rose_ind. intros t p m Hrepr Hnd.
  cbn [rkids rlabel]. destruct IH as [|k ks Hk Hks].
  { done. }
  apply repr_inv in Hrepr as (Hi & Hup & Hdown & Hks').
  cbn [preorder] in Hnd. apply NoDup_cons in Hnd as [Hi' Hnd].
  change (leftmost (Rose i (k :: ks))) with (leftmost k).
  by apply (consolidate_loop_forest i ks Hks k t m []).
Qed.

Lemma consolidate_directories_postorder t s :
  repr t None s →
  root t = Some (rlabel s) →
  NoDup (preorder s) →
  rsize s = length (tab t) →
  consolidate_directories t = Some (consolidate_all t (postorder s)).
Proof.
  intros Hrepr Hroot Hnd Hsize. unfold consolidate_directories, tree_it_post.
  rewrite Hroot. erewrite deepest_leftmost; [|exact Hrepr|lia].
  cbn [fmap option_fmap option_map mbind option_bind].
  rewrite <-Hsize. unfold rsize. rewrite preorder_length, <-Nat.add_1_r.
  rewrite (consolidate_loop_subtree s t None 1%nat Hrepr Hnd), consolidate_loop_step.
  rewrite tree_next_post_root.
  - by rewrite postorder_unfold, consolidate_all_app.
  - rewrite tree_up_consolidate_node, tree_up_consolidate_all.
    destruct s. by apply repr_inv in Hrepr as (_ & ? & _).
Qed.

(** ** What the consolidation does to the nodes *)

Lemma nlines_at_ext t1 t2 j : tab t1 !! j = tab t2 !! j → nlines_at t1 j = nlines_at t2 j.
Proof. unfold nlines_at, node_data, tree_ref. by intros ->. Qed.

Lemma sort_children_ext t1 t2 nd :
  (∀ c, c ∈ child nd → nlines_at t1 c = nlines_at t2 c) →
  sort_children t1 nd = sort_children t2 nd.
Proof.
  intros Hc. unfold sort_children. f_equal. apply stable_sort_ext.
  intros x y Hx Hy. unfold node_cmp, dir_cmp. fold (nlines_at t1 x) (nlines_at t1 y).
  by rewrite !Hc.
Qed.

Lemma consolidated_ext t1 t2 nd :
  (∀ c, c ∈ child nd → nlines_at t1 c = nlines_at t2 c) →
  consolidated t1 nd = consolidated t2 nd.
Proof.
  intros Hc. unfold consolidated.
  rewrite (sort_children_ext t1 t2) by done. do 2 f_equal.
  apply map_ext_in. intros c Hin. apply Hc. by apply list_elem_of_In.
Qed.

Lemma repr_ext t t' s : ∀ p,
  (∀ j, j ∈ preorder s → tab t' !! j = tab t !! j) →
  repr t p s → repr t' p s.
Proof.
  induction s as [i ks IH] using rose_ind. intros p Heq.
  inversion 1 as [? ? ? nd Hnd Hp Hc Hks]; subst.
  econstructor; [by rewrite Heq by left|done|done|].
  apply Forall_forall. intros k Hk. rewrite Forall_forall in IH, Hks.
  apply IH; [done| |by apply Hks].
  intros j Hj. apply Heq. right. apply elem_of_concat_map. eauto.
Qed.

Lemma repr_child_closed t s : ∀ p j nd c,
  repr t p s → j ∈ preorder s → tab t !! j = Some nd → c ∈ child nd → c ∈ preorder s.
Proof.
  induction s as [i ks IH] using rose_ind. intros p j nd c.
  inversion 1 as [? ? ? nd' Hnd' Hp Hc Hks]; subst.
  cbn [preorder]. rewrite !elem_of_cons. intros [->|Hj] Hnd Hin; right.
  - assert (nd' = nd) as -> by congruence. rewrite Hc in Hin.
    apply list_elem_of_fmap in Hin as (k & -> & Hk).
    apply elem_of_concat_map. exists k. split; [done|]. apply rlabel_preorder.
  - apply elem_of_concat_map in Hj as (k & Hk & Hj).
    apply elem_of_concat_map. exists k. split; [done|].
    rewrite Forall_forall in IH, Hks. eapply IH; eauto.
Qed.

Lemma consolidate_node_lookup_other t i j :
  j ≠ i → tree_up t i ≠ Some j → tab (consolidate_node t i) !! j = tab t !! j.
Proof.
  intros Hj Hup. rewrite consolidate_node_lookup, add_to_parent_lookup.
  rewrite !decide_False by done. by rewrite !option_fmap_id.
Qed.

Lemma consolidate_node_lookup_parent t i q :
  tree_up t i = Some q → q ≠ i →
  tab (consolidate_node t i) !! q = fetch_add (nlines_at t i) <$> tab t !! q.
Proof.
  intros Hup Hq. rewrite consolidate_node_lookup, add_to_parent_lookup.
  rewrite decide_False, decide_True by done. by rewrite option_fmap_id.
Qed.

Lemma consolidate_node_lookup_self t i :
  tree_up t i ≠ Some i →
  tab (consolidate_node t i) !! i = sort_children (add_to_parent t i) <$> tab t !! i.
Proof.
  intros Hup. rewrite consolidate_node_lookup, add_to_parent_lookup.
  rewrite decide_True, decide_False by done. by rewrite option_fmap_id.
Qed.

Lemma add_counts_fetch_add l x nd :
  add_counts l (fetch_add x nd) = add_counts (x :: l) nd.
Proof. done. Qed.

Lemma add_counts_nil nd : add_counts [] nd = nd.
Proof. by destruct nd as [[] ? ?]. Qed.

Lemma consolidate_all_forest i ks :
  Forall fold_spec ks →
  ∀ t,
    Forall (repr t (Some i)) ks →
    NoDup (concat (map preorder ks)) →
    i ∉ concat (map preorder ks) →
    let t1 := consolidate_all t (concat (map postorder ks)) in
    (∀ j, j ∉ concat (map preorder ks) → j ≠ i → tab t1 !! j = tab t !! j)
    ∧ tab t1 !! i = add_counts (map (λ k, nlines_at t1 (rlabel k)) ks) <$> tab t !! i
    ∧ (∀ j, j ∈ concat (map preorder ks) → tab t1 !! j = consolidated t1 <$> tab t !! j).
Proof.
  induction 1 as [|k ks Hk _ IH]; intros t Hrepr Hnd Hi; cbn zeta.
  { simpl. split_and!; [done| |by intros j ?%elem_of_nil].
    destruct (tab t !! i) as [nd|]; [|done]. simpl. by rewrite add_counts_nil. }
  cbn [map concat] in *. rewrite consolidate_all_app.
  apply Forall_cons in Hrepr as [Hrk Hrepr].
  apply NoDup_app in Hnd as (Hndk & Hdisj & Hndks).
  apply not_elem_of_app in Hi as [Hik Hiks].
  set (t_a := consolidate_all t (postorder k)).
  destruct (Hk t (Some i) Hrk Hndk) as (Ha1 & Ha2 & Ha3).
  { by intros q [= <-]. }
  fold t_a in Ha1, Ha2, Ha3.
  assert (Forall (repr t_a (Some i)) ks) as Hrepr_a.
  { apply Forall_forall. intros k' Hk'. rewrite Forall_forall in Hrepr.
    apply (repr_ext t); [|by apply Hrepr].
    assert (j_in : ∀ j, j ∈ preorder k' → j ∈ concat (map preorder ks))
      by (intros j Hj; apply elem_of_concat_map; eauto).
    intros j Hj. apply Ha1.
    - intros Hjk. by apply (Hdisj j Hjk), j_in.
    - intros [= ->]. by apply Hiks, j_in. }
  destruct (IH t_a Hrepr_a Hndks Hiks) as (Hb1 & Hb2 & Hb3).
  set (t1 := consolidate_all t_a (concat (map postorder ks))) in *.
  assert (∀ j, j ∈ preorder k → tab t1 !! j = tab t_a !! j) as Hk1.
  { intros j Hj. apply Hb1; [by apply Hdisj|]. by intros ->. }
  split_and!.
  - intros j [Hjk Hjks]%not_elem_of_app Hji.
    rewrite Hb1, Ha1 by congruence. done.
  - rewrite Hb2, (Ha2 i eq_refl), <-option_fmap_compose.
    apply option_fmap_ext. intros nd. cbn [compose map].
    rewrite add_counts_fetch_add. do 2 f_equal.
    symmetry. apply nlines_at_ext, Hk1, rlabel_preorder.
  - intros j [Hj|Hj]%elem_of_app.
    + rewrite Hk1, Ha3 by done.
      destruct (tab t !! j) as [nd|] eqn:Hnd; [|done]. simpl. f_equal.
      apply consolidated_ext. intros c Hc. symmetry. apply nlines_at_ext, Hk1.
      by eapply repr_child_closed.
    + rewrite Hb3 by done. rewrite Ha1; [done| |].
      * intros Hjk. by apply (Hdisj j).
      * intros [= ->]. done.
Qed.

Lemma consolidate_all_subtree s : fold_spec s.
Proof.
  induction s as [i ks IH] using rose_ind. intros t p Hrepr Hnd Hp. cbn zeta.
  pose proof Hrepr as Hrepr'. apply repr_inv in Hrepr' as (Hi & Hup & Hdown & Hks).
  cbn [preorder] in *. apply NoDup_cons in Hnd as [Hiks Hnd].
  rewrite postorder_unfold, consolidate_all_app. cbn [rkids rlabel].
  destruct (consolidate_all_forest i ks IH t Hks Hnd Hiks) as (Hc1 & Hc2 & Hc3).
  set (t1 := consolidate_all t (concat (map postorder ks))) in *.
  change (consolidate_all t1 [i]) with (consolidate_node t1 i).
  set (t' := consolidate_node t1 i).
  assert (tree_up t1 i = p) as Hup1 by (unfold t1; by rewrite tree_up_consolidate_all).
  assert (p ≠ Some i) as Hpi.
  { intros ->. apply (Hp i eq_refl). left. }
  assert (∀ j, j ≠ i → p ≠ Some j → tab t' !! j = tab t1 !! j) as Hother.
  { intros j Hj Hpj. apply consolidate_node_lookup_other; [done|congruence]. }
  assert (∀ c, c ∈ concat (map preorder ks) → nlines_at t' c = nlines_at t1 c) as Hkids.
  { intros c Hc. apply nlines_at_ext, Hother; [by intros ->|].
    intros ->. apply (Hp c eq_refl). by right. }
  assert (tab t' !! i = sort_children (add_to_parent t1 i) <$> tab t1 !! i) as Hself.
  { apply consolidate_node_lookup_self. congruence. }
  assert (nlines_at t' i = nlines_at t1 i) as Hni.
  { unfold nlines_at, node_data, tree_ref. rewrite Hself. by destruct (tab t1 !! i). }
  split_and!.
  - intros j [Hji Hjks]%not_elem_of_cons Hpj. rewrite Hother, Hc1 by done. done.
  - intros q ->. rewrite Hni.
    assert (q ≠ i) by congruence.
    unfold t'. rewrite consolidate_node_lookup_parent by done.
    rewrite Hc1; [done| |done].
    intros Hq. apply (Hp q eq_refl). by right.
  - intros j [->|Hj]%elem_of_cons.
    + rewrite Hself, Hc2, <-option_fmap_compose.
      destruct (tab t !! i) as [nd|] eqn:Hndi; [|done].
      assert (child nd = map rlabel ks) as Hchild.
      { unfold tree_down in Hdown. by rewrite Hndi in Hdown. }
      cbn [fmap option_fmap option_map compose]. f_equal. unfold consolidated.
      rewrite Hchild, map_map.
      assert (∀ c, c ∈ map rlabel ks → c ∈ concat (map preorder ks)) as Hsub.
      { intros c (k & -> & Hk)%list_elem_of_fmap. apply elem_of_concat_map.
        exists k. split; [done|apply rlabel_preorder]. }
      rewrite (sort_children_ext _ t').
      * do 2 f_equal. apply map_ext_in. intros k Hk%list_elem_of_In.
        symmetry. apply Hkids, Hsub. by apply list_elem_of_fmap_2.
      * cbn [child add_counts]. rewrite Hchild. intros c Hc.
        rewrite Hkids by auto. apply nlines_at_ext.
        rewrite add_to_parent_lookup, Hup1.
        rewrite decide_False, option_fmap_id; [done|].
        intros ->. apply (Hp c eq_refl). right. auto.
    + rewrite Hother, Hc3; [|done|by intros ->|].
      * destruct (tab t !! j) as [nd|] eqn:Hndj; [|done]. simpl. f_equal.
        apply consolidated_ext. intros c Hc. symmetry. apply Hkids.
        assert (c ∈ preorder (Rose i ks)) as [->|?]%elem_of_cons; [|  |done].
        -- eapply repr_child_closed; [exact Hrepr| |exact Hndj|exact Hc]. by right.
        -- exfalso. apply elem_of_concat_map in Hj as (k & Hk & Hj).
           rewrite Forall_forall in Hks.
           assert (i ∈ preorder k) by (by eapply repr_child_closed; [by apply Hks|..]).
           apply Hiks, elem_of_concat_map. eauto.
      * intros ->. apply (Hp j eq_refl). by right.
Qed.

(** ** The consolidation of a whole tree *)

Lemma consolidate_all_capacity t l :
  capacity (consolidate_all t l) = capacity t ∧ lock (consolidate_all t l) = lock t.
Proof.
  revert t. induction l as [|i l IH]; intros t; simpl; [done|].
  destruct (IH (consolidate_node t i)) as [-> ->].
  unfold consolidate_node, add_to_parent. by destruct (tree_up t i).
Qed.

Lemma Permutation_concat_map {A B} (f : A → list B) (l1 l2 : list A) :
  l1 ≡ₚ l2 → concat (map f l1) ≡ₚ concat (map f l2).
Proof.
  induction 1 as [|x l1 l2 _ IH|x y l|l1 l2 l3 _ IH1 _ IH2]; simpl.
  - done.
  - by rewrite IH.
  - by rewrite !app_assoc, (Permutation_app_comm (f y)).
  - by rewrite IH1.
Qed.

Lemma repr_permuted t t' s : ∀ p,
  length (tab t') = length (tab t) →
  (∀ j, tree_up t' j = tree_up t j) →
  (∀ j, tree_down t' j ≡ₚ tree_down t j) →
  repr t p s →
  ∃ s', repr t' p s' ∧ rlabel s' = rlabel s ∧ preorder s' ≡ₚ preorder s.
Proof.
  intros p Hlen Hup Hdown. revert p.
  induction s as [i ks IH] using rose_ind. intros p.
  rewrite repr_inv. intros (Hi & Hp & Hc & Hks).
  assert (∃ ks', map rlabel ks' = map rlabel ks
                 ∧ Forall (repr t' (Some i)) ks'
                 ∧ concat (map preorder ks') ≡ₚ concat (map preorder ks))
    as (ks1 & Hlabels & Hrepr1 & Hperm1).
  { clear Hc. induction Hks as [|k ks Hk Hks IHks].
    - exists []. by repeat constructor.
    - apply Forall_cons in IH as [IHk IH].
      destruct (IHk _ Hk) as (k' & Hk' & Hl & Hperm).
      destruct (IHks IH) as (ks' & Hl' & Hks' & Hperm').
      exists (k' :: ks'). simpl. rewrite Hl, Hl', Hperm, Hperm'.
      split_and!; [done| |done]. by constructor. }
  pose proof (Hdown i) as Hdi. rewrite Hc, <-Hlabels in Hdi.
  apply Permutation_map_inv in Hdi as (ks2 & Hd2 & Hperm2).
  exists (Rose i ks2). split_and!.
  - apply repr_inv. split_and!; [lia|by rewrite Hup|done|].
    by rewrite <-Hperm2.
  - done.
  - simpl. constructor. by rewrite <-Hperm1, Hperm2.
Qed.

Lemma consolidated_parent t' nd : parent (consolidated t' nd) = parent nd.
Proof. done. Qed.

Lemma consolidated_child t' nd :
  child (consolidated t' nd) = stable_sort (node_cmp t') (child nd).
Proof. done. Qed.

Lemma consolidated_name t' nd : name (data (consolidated t' nd)) = name (data nd).
Proof. done. Qed.

Lemma consolidate_directories_wf t :
  arena_wf t →
  ∃ t', consolidate_directories t = Some t'
        ∧ tab t' = map (consolidated t') (tab t)
        ∧ root t' = root t ∧ capacity t' = capacity t ∧ lock t' = lock t
        ∧ arena_wf t'.
Proof.
  intros (s & Hrepr & Hroot & Hperm).
  assert (NoDup (preorder s)) as Hnd by (rewrite Hperm; apply NoDup_seq).
  assert (rsize s = length (tab t)) as Hsize.
  { unfold rsize. by rewrite Hperm, length_seq. }
  exists (consolidate_all t (postorder s)).
  set (t' := consolidate_all t (postorder s)).
  assert (length (tab t') = length (tab t)) as Hlen by apply consolidate_all_length.
  assert (tab t' = map (consolidated t') (tab t)) as Htab.
  { destruct (consolidate_all_subtree s t None Hrepr Hnd) as (_ & _ & Hin); [done|].
    fold t' in Hin. apply list_eq. intros j. rewrite list_lookup_fmap.
    destruct (decide (j < length (tab t))%nat) as [Hj|Hj].
    - apply Hin. rewrite Hperm. apply elem_of_seq. lia.
    - rewrite !lookup_ge_None_2 by lia. done. }
  destruct (consolidate_all_capacity t (postorder s)) as [Hcap Hlock].
  split_and!; try done.
  - by apply consolidate_directories_postorder.
  - apply consolidate_all_root.
  - destruct (repr_permuted t t' s None) as (s' & Hrepr' & Hl' & Hperm'); try done.
    + intros j. apply tree_up_consolidate_all.
    + intros j. unfold tree_down. rewrite Htab, list_lookup_fmap.
      destruct (tab t !! j) as [nd|]; [|done]. simpl. apply stable_sort_perm.
    + exists s'. split_and!; [done| |].
      * unfold t'. by rewrite consolidate_all_root, Hl'.
      * by rewrite Hperm', Hlen.
Qed.

(** ** The numbers of lines after the scan and after the consolidation *)

Lemma zsum_app l1 l2 : zsum (l1 ++ l2) = zsum l1 + zsum l2.
Proof. induction l1 as [|x l1 IH]; simpl; [done|]. rewrite IH. lia. Qed.

Lemma foldl_uint_add a l :
  foldl uint_add (to_uint a) (map to_uint l) = to_uint (a + zsum l).
Proof.
  revert a. induction l as [|x l IH]; intros a; simpl.
  - by rewrite Z.add_0_r.
  - unfold uint_add at 2. rewrite to_uint_add_l, to_uint_add_r, IH. f_equal. lia.
Qed.

Lemma foldl_uint_add_range a l :
  0 ≤ a < UINT_MAX + 1 → foldl uint_add a l = to_uint (a + zsum l).
Proof.
  intros Ha. rewrite <-(to_uint_small a) at 1 by done. revert a Ha.
  induction l as [|x l IH]; intros a Ha; simpl.
  - by rewrite Z.add_0_r.
  - unfold uint_add at 2. rewrite to_uint_add_l.
    rewrite <-(to_uint_idemp (a + x)), IH by apply to_uint_range.
    rewrite to_uint_add_l. f_equal. lia.
Qed.

Lemma total_lines_own dirname entries :
  total_lines dirname (Directory entries) =
  own_lines dirname entries
  + zsum (map (λ e, total_lines e.1 e.2) (subdirs dirname entries)).
Proof.
  cbn [total_lines]. induction entries as [|[d_name n] entries IH]; [done|].
  rewrite IH. cbn [own_lines subdirs].
  destruct (is_hidden d_name); cbn [negb andb orb]; [lia|].
  destruct (S_ISDIR n) eqn:Hdir; cbn [map fst snd]; unfold zsum; cbn [foldr]; lia.
Qed.

Lemma subdirs_sub dirname entries e :
  e ∈ subdirs dirname entries → ∃ d_name, (d_name, e.2) ∈ entries.
Proof.
  induction entries as [|[d_name n] entries IH]; simpl; [by intros ?%elem_of_nil|].
  destruct (negb (is_hidden d_name) && S_ISDIR n).
  - intros [->|He]%elem_of_cons.
    + exists d_name. left.
    + destruct (IH He) as [d ?]. exists d. by right.
  - intros He. destruct (IH He) as [d ?]. exists d. by right.
Qed.

Lemma rtotal_unfold d ks :
  rtotal (Rose d ks) = own_lines_of d + zsum (map rtotal ks).
Proof.
  unfold rtotal. simpl. f_equal.
  induction ks as [|k ks IH]; simpl; [done|].
  rewrite map_app, zsum_app, IH. done.
Qed.

Lemma total_lines_rtotal n : ∀ dirname, total_lines dirname n = rtotal (dir_tree dirname n).
Proof.
  induction n as [| | | |entries IH] using inode_ind; intros dirname; try done.
  rewrite total_lines_own, dir_tree_unfold, rtotal_unfold. simpl. f_equal.
  unfold dir_forest. rewrite map_map. f_equal. apply map_ext_in.
  intros e [d He]%list_elem_of_In%subdirs_sub.
  rewrite Forall_forall in IH. apply (IH _ He).
Qed.

Lemma subtrees_unfold {A} (a : A) ks :
  subtrees (Rose a ks) = Rose a ks :: concat (map subtrees ks).
Proof. done. Qed.

Lemma subtrees_dir_tree n : ∀ dirname,
  subtrees (dir_tree dirname n)
  = map (λ d, dir_tree d.1 d.2) (preorder (dir_tree dirname n)).
Proof.
  induction n as [| | | |entries IH] using inode_ind; intros dirname; try done.
  rewrite (dir_tree_unfold dirname (Directory entries)).
  cbn [opendir fmap option_fmap option_map default id].
  rewrite subtrees_unfold. cbn [preorder map fst snd]. f_equal.
  { by rewrite dir_tree_unfold. }
  unfold dir_forest.
  assert (∀ e, e ∈ subdirs dirname entries →
               subtrees (dir_tree e.1 e.2)
               = map (λ d, dir_tree d.1 d.2) (preorder (dir_tree e.1 e.2))) as Hsub.
  { intros e [d He]%subdirs_sub. rewrite Forall_forall in IH. apply (IH _ He). }
  induction (subdirs dirname entries) as [|e es IHes]; [done|].
  cbn [map concat]. rewrite map_app, Hsub, IHes; [done| |left].
  intros e' He'. apply Hsub. by right.
Qed.

Lemma arena_of_lookup t start p d ks pre post :
  tab t = pre ++ arena_of start p (Rose d ks) ++ post →
  start = length pre →
  nlines_at t start = to_uint (own_lines_of d)
  ∧ tree_down t start = map rlabel (number_forest (S start) ks).
Proof.
  intros Htab ->. unfold nlines_at, node_data, tree_ref, tree_down.
  rewrite Htab, arena_of_unfold, lookup_app_r, Nat.sub_diag by lia. done.
Qed.

Section consolidated_totals.
Context (t t' : tree_t).
Hypothesis Htab' : tab t' = map (consolidated t') (tab t).

Lemma nlines_at_consolidated j :
  nlines_at t' j = foldl uint_add (nlines_at t j) (map (nlines_at t') (tree_down t j)).
Proof.
  unfold nlines_at at 1, node_data, tree_ref. rewrite Htab', list_lookup_fmap.
  unfold nlines_at at 1, node_data, tree_ref, tree_down.
  destruct (tab t !! j) as [nd|]; done.
Qed.

Lemma consolidated_totals_forest q ks :
  Forall (λ r, ∀ start p pre post,
            tab t = pre ++ arena_of start p r ++ post →
            start = length pre →
            map (nlines_at t') (seq start (rsize r)) = map utotal (subtrees r)) ks →
  ∀ st pre post,
    tab t = pre ++ arena_forest st q ks ++ post →
    st = length pre →
    map (nlines_at t') (seq st (length (concat (map preorder ks))))
    = map utotal (concat (map subtrees ks))
    ∧ map (nlines_at t') (map rlabel (number_forest st ks)) = map utotal ks.
Proof.
  induction 1 as [|k ks Hk _ IH]; intros st pre post Htab Hst; [done|].
  cbn [arena_forest map concat number_forest] in *.
  rewrite <-app_assoc in Htab.
  specialize (Hk st q pre _ Htab Hst).
  destruct (IH (st + rsize k)%nat (pre ++ arena_of st q k) post) as [IH1 IH2].
  { by rewrite <-app_assoc. }
  { rewrite length_app, arena_of_length. lia. }
  rewrite length_app, seq_app, !map_app.
  fold (rsize k). rewrite Hk, IH1, IH2, rlabel_number. split; [done|]. f_equal.
  destruct k as [d cks]. rewrite rsize_unfold, subtrees_unfold in Hk.
  by injection Hk.
Qed.

Lemma consolidated_totals r : ∀ start p pre post,
  tab t = pre ++ arena_of start p r ++ post →
  start = length pre →
  map (nlines_at t') (seq start (rsize r)) = map utotal (subtrees r).
Proof.
  induction r as [d ks IH] using rose_ind. intros start p pre post Htab Hstart.
  destruct (arena_of_lookup _ _ _ _ _ _ _ Htab Hstart) as [Hn Hdown].
  rewrite rsize_unfold, subtrees_unfold. cbn [seq map]. 
  rewrite arena_of_unfold in Htab.
  match type of Htab with
  | _ = _ ++ (?nd :: _) ++ _ =>
      destruct (consolidated_totals_forest (Some start) ks IH (S start) (pre ++ [nd]) post)
        as [Hf1 Hf2]
  end.
  { by rewrite <-app_assoc. }
  { rewrite length_app. simpl. lia. }
  rewrite Hf1. f_equal.
  rewrite nlines_at_consolidated, Hn, Hdown, Hf2.
  unfold utotal. rewrite rtotal_unfold, <-foldl_uint_add, map_map. done.
Qed.
End consolidated_totals.

Lemma map_nlines_at t :
  map (nlines_at t) (seq 0 (length (tab t))) = map (λ nd, nlines (data nd)) (tab t).
Proof.
  apply list_eq. intros j. rewrite !list_lookup_fmap.
  destruct (decide (j < length (tab t))%nat) as [Hj|Hj].
  - rewrite lookup_seq_lt by done. simpl. unfold nlines_at, node_data, tree_ref.
    apply lookup_lt_is_Some in Hj as [nd ->]. done.
  - rewrite lookup_seq_ge, lookup_ge_None_2 by lia. done.
Qed.

(** ** The scan and the consolidation of [main] *)

Lemma scan_directories0 fs str t :
  scan_directories fs directories0 None str = Ok t →
  tab t = arena_of 0 None (dir_tree str fs) ∧ root t = Some 0%nat ∧ lock t = true.
Proof.
  intros Hscan. by destruct (scan_directories_tab fs _ _ _ _ Hscan) as (-> & -> & -> & _).
Qed.

Lemma arena_of_wf t r :
  tab t = arena_of 0 None r → root t = Some 0%nat → arena_wf t.
Proof.
  intros Htab Hroot. exists (number 0 r). split_and!.
  - apply (arena_of_repr r t 0%nat None [] []); [|done]. by rewrite app_nil_r.
  - by rewrite rlabel_number.
  - by rewrite preorder_number, Htab, arena_of_length.
Qed.

Lemma to_uint_total_lines fs str :
  map (λ r, to_uint (rtotal r)) (subtrees (dir_tree str fs))
  = map (λ d, to_uint (total_lines d.1 d.2)) (visited str fs).
Proof.
  unfold visited. rewrite subtrees_dir_tree, map_map. apply map_ext.
  intros d. by rewrite total_lines_rtotal.
Qed.

Lemma scan_consolidate fs str t :
  scan_directories fs directories0 None str = Ok t →
  tab t = arena_of 0 None (dir_tree str fs)
  ∧ ∃ t', consolidate_directories t = Some t'
          ∧ tab t' = map (consolidated t') (tab t)
          ∧ arena_wf t'
          ∧ map (λ nd, nlines (data nd)) (tab t')
            = map (λ d, to_uint (total_lines d.1 d.2)) (visited str fs).
Proof.
  intros (Htab & Hroot & _)%scan_directories0. split; [done|].
  destruct (consolidate_directories_wf t) as (t' & Hcons & Htab' & _ & _ & _ & Hwf').
  { by eapply arena_of_wf. }
  exists t'. split_and!; try done.
  rewrite <-map_nlines_at, <-to_uint_total_lines.
  replace (length (tab t')) with (rsize (dir_tree str fs)).
  - apply (consolidated_totals t t' Htab' _ 0%nat None [] []); [|done].
    by rewrite app_nil_r.
  - by rewrite Htab', length_map, Htab, arena_of_length.
Qed.

(** C1 (as amended): after one consolidation of the tree that the scanner
    built, the node of every directory, in the order of the visits, holds the
    number of line-feed bytes of all the files with a recognized suffix in the
    directory and below it, reduced modulo 2^32. *)
Theorem consolidate_nlines fs str t :
  scan_directories fs directories0 None str = Ok t →
  ∃ t', consolidate_directories t = Some t'
        ∧ map (λ nd, name (data nd)) (tab t') = map fst (visited str fs)
        ∧ map (λ nd, nlines (data nd)) (tab t')
          = map (λ d, to_uint (total_lines d.1 d.2)) (visited str fs).
Proof.
  intros (Htab & t' & Hcons & Htab' & _ & Hlines)%scan_consolidate.
  exists t'. split_and!; [done| |done].
  rewrite Htab', map_map. erewrite map_ext; [|intros; apply consolidated_name].
  change (λ nd, name (data nd)) with (name ∘ data).
  rewrite <-(map_map data name), Htab, arena_of_data, map_map. done.
Qed.

Lemma consolidate_nlines_witness :
  ∃ t, scan_directories example_fs directories0 None "root" = Ok t
       ∧ ∃ t', consolidate_directories t = Some t'
               ∧ map (λ nd, name (data nd)) (tab t') = map fst (visited "root" example_fs)
               ∧ map (λ nd, nlines (data nd)) (tab t')
                 = map (λ d, to_uint (total_lines d.1 d.2)) (visited "root" example_fs).
Proof.
  eexists. split; [vm_compute; reflexivity|].
  apply (consolidate_nlines example_fs "root"). vm_compute. reflexivity.
Defined.

Lemma scan_single_file contents :
  scan_directories (Directory [("a.c"%string, RegFile contents)]) directories0 None "root"
  = Ok (mk_tree [mk_node (mk_dir (to_uint (newlines contents)) "root") None []]
          (Some 0%nat) MAX_DIRECTORY true).
Proof.
  rewrite scan_directories_unfold. cbv -[read_loop newlines to_uint Z.add].
  rewrite read_loop_newlines. by autorewrite with uint.
Qed.

Lemma single_file_counts contents :
  ∃ t t', scan_directories (Directory [("a.c"%string, RegFile contents)]) directories0 None
            "root" = Ok t
          ∧ consolidate_directories t = Some t'
          ∧ nlines_at t' 0 = to_uint (newlines contents)
          ∧ total_lines "root" (Directory [("a.c"%string, RegFile contents)])
            = newlines contents.
Proof.
  eexists _, _. split_and!.
  - apply scan_single_file.
  - reflexivity.
  - reflexivity.
  - cbv -[newlines Z.add]. lia.
Qed.

Lemma newlines_overflow_file : newlines overflow_file = 4294967296.
Proof. unfold overflow_file. rewrite newlines_repeat. apply Z2Nat.id. lia. Qed.

(** C1, as it is stated, fails when the lines of a directory do not fit 32
    bits: a file of 2^32 empty lines leaves the count 0 at its directory. *)
Lemma consolidate_nlines_overflow :
  ∃ t t', scan_directories overflow_fs directories0 None "root" = Ok t
          ∧ consolidate_directories t = Some t'
          ∧ total_lines "root" overflow_fs = 4294967296
          ∧ nlines_at t' 0 = 0.
Proof.
  destruct (single_file_counts overflow_file) as (t & t' & Hscan & Hcons & Hn & Htotal).
  rewrite newlines_overflow_file in Hn, Htotal.
  exists t, t'. split_and!; [exact Hscan|exact Hcons|exact Htotal|exact Hn].
Qed.

(** ** The order of the children *)

Lemma number_forest_labels {A} (ks : list (rose A)) start :
  Forall (λ x, start ≤ x)%nat (map rlabel (number_forest start ks))
  ∧ StronglySorted lt (map rlabel (number_forest start ks)).
Proof.
  revert start. induction ks as [|k ks IH]; intros start; simpl.
  { split; constructor. }
  destruct (IH (start + rsize k)%nat) as [Hge Hsorted].
  pose proof (rsize_pos k). rewrite rlabel_number. split.
  - constructor; [done|]. eapply Forall_impl; [exact Hge|]. simpl. lia.
  - constructor; [done|]. eapply Forall_impl; [exact Hge|]. simpl. lia.
Qed.

Lemma arena_of_child_sorted r : ∀ start p,
  Forall (λ nd, StronglySorted lt (child nd)) (arena_of start p r).
Proof.
  induction r as [d ks IH] using rose_ind. intros start p.
  rewrite arena_of_unfold. constructor.
  { apply number_forest_labels. }
  generalize (S start) (Some start).
  induction IH as [|k ks Hk _ IHks]; intros st q; simpl; [constructor|].
  apply Forall_app. auto.
Qed.

(** C2: the consolidation returns a tree with the nodes of the scan at
    their indices, with the lines of all the files below every directory as
    its count; the children of every node are a rearrangement of the children
    that the scanner inserted, ordered by non-increasing [nlines]; children
    with equal [nlines] keep the order of their insertion, which is the order
    of their indices. *)
Theorem children_sorted fs str t :
  scan_directories fs directories0 None str = Ok t →
  ∃ t', consolidate_directories t = Some t'
        ∧ length (tab t') = length (tab t)
        ∧ map (λ nd, nlines (data nd)) (tab t')
          = map (λ d, to_uint (total_lines d.1 d.2)) (visited str fs)
        ∧ ∀ j nd,
            tab t !! j = Some nd →
            ∃ nd', tab t' !! j = Some nd'
                   ∧ child nd' ≡ₚ child nd
                   ∧ StronglySorted (key_ge (nlines_at t')) (child nd')
                   ∧ StronglySorted lt (child nd)
                   ∧ ∀ v, filter (λ c, nlines_at t' c = v) (child nd')
                          = filter (λ c, nlines_at t' c = v) (child nd).
Proof.
  intros (Htab & t' & Hcons & Htab' & _ & Hlines)%scan_consolidate.
  exists t'. split_and!; [done|by rewrite Htab', length_map|done|].
  intros j nd Hnd. exists (consolidated t' nd).
  rewrite Htab', list_lookup_fmap, Hnd.
  rewrite consolidated_child. split_and!.
  - done.
  - apply stable_sort_perm.
  - apply (stable_sort_sorted (nlines_at t')).
  - pose proof (arena_of_child_sorted (dir_tree str fs) 0 None) as Hsorted.
    rewrite <-Htab, Forall_forall in Hsorted. apply Hsorted.
    by eapply list_elem_of_lookup_2.
  - intros v. apply (stable_sort_filter (nlines_at t')).
Qed.

Lemma children_sorted_witness :
  ∃ t, scan_directories ties_fs directories0 None "r" = Ok t
       ∧ tree_down t 0 = [1; 2; 3]%nat
       ∧ ∃ t', consolidate_directories t = Some t'
               ∧ length (tab t') = length (tab t)
               ∧ map (λ nd, nlines (data nd)) (tab t')
                 = map (λ d, to_uint (total_lines d.1 d.2)) (visited "r" ties_fs)
               ∧ ∀ j nd,
                   tab t !! j = Some nd →
                   ∃ nd', tab t' !! j = Some nd'
                          ∧ child nd' ≡ₚ child nd
                          ∧ StronglySorted (key_ge (nlines_at t')) (child nd')
                          ∧ StronglySorted lt (child nd)
                          ∧ ∀ v, filter (λ c, nlines_at t' c = v) (child nd')
                                 = filter (λ c, nlines_at t' c = v) (child nd).
Proof.
  eexists. split; [vm_compute; reflexivity|]. split; [vm_compute; reflexivity|].
  apply (children_sorted ties_fs "r"). vm_compute. reflexivity.
Defined.

(** The three directories of [ties_fs] are inserted in the order of
    [readdir]; the consolidation puts the directory of eight lines first and
    leaves the two directories of five lines in the order of their insertion. *)
Lemma ties_fs_sorted :
  ∃ t t', scan_directories ties_fs directories0 None "r" = Ok t
          ∧ consolidate_directories t = Some t'
          ∧ tree_down t 0 = [1; 2; 3]%nat
          ∧ tree_down t' 0 = [2; 1; 3]%nat
          ∧ map (nlines_at t') [0; 1; 2; 3]%nat = [18; 5; 8; 5].
Proof.
  eexists _, _. split; [vm_compute; reflexivity|].
  split; [vm_compute; reflexivity|]. split_and!; vm_compute; reflexivity.
Qed.

(** ** A second consolidation *)

Lemma stable_sort_zero key l :
  Forall (λ c, key c = 0) l →
  stable_sort (λ x y, atomic_uint_cmp (key x) (key y)) l = l.
Proof.
  intros Hl. apply (stable_sort_sorted_id key).
  induction Hl as [|x l Hx Hl IH]; [constructor|].
  constructor; [done|].
  eapply Forall_impl; [exact Hl|]. intros y Hy. unfold key_ge. simpl in *.
  by rewrite Hx, Hy.
Qed.

Lemma zsum_zero {A} (f : A → Z) l : Forall (λ c, f c = 0) l → zsum (map f l) = 0.
Proof.
  induction 1 as [|x l Hx _ IH]; [done|].
  cbn [map]. unfold zsum in *. cbn [foldr]. by rewrite Hx, IH.
Qed.

(** C3 (as amended): a second consolidation keeps the name and the parent of
    every node, adds the new counts of the children to the count of the node
    once more, modulo 2^32, and sorts the children again by their new counts;
    a node whose children all have the new count 0, such as a node without
    children, is left as the first consolidation left it. *)
Theorem consolidate_twice fs str t :
  scan_directories fs directories0 None str = Ok t →
  ∃ t1 t2, consolidate_directories t = Some t1
           ∧ consolidate_directories t1 = Some t2
           ∧ ∀ j nd1,
               tab t1 !! j = Some nd1 →
               ∃ nd2, tab t2 !! j = Some nd2
                      ∧ name (data nd2) = name (data nd1)
                      ∧ parent nd2 = parent nd1
                      ∧ child nd2 = stable_sort (node_cmp t2) (child nd1)
                      ∧ nlines (data nd2)
                        = to_uint (nlines (data nd1) + zsum (map (nlines_at t2) (child nd1)))
                      ∧ (Forall (λ c, nlines_at t2 c = 0) (child nd1) → nd2 = nd1).
Proof.
  intros (Htab & t1 & Hcons & Htab1 & Hwf1 & Hlines)%scan_consolidate.
  destruct (consolidate_directories_wf t1 Hwf1) as (t2 & Hcons2 & Htab2 & _).
  exists t1, t2. split_and!; [done..|].
  intros j nd1 Hnd1. exists (consolidated t2 nd1).
  assert (0 ≤ nlines (data nd1) < UINT_MAX + 1) as Hrange.
  { assert (nlines (data nd1) ∈ map (λ nd, nlines (data nd)) (tab t1)) as Hin.
    { apply (list_elem_of_fmap_2 (λ nd, nlines (data nd))).
      by eapply list_elem_of_lookup_2. }
    rewrite Hlines in Hin. apply list_elem_of_fmap in Hin as (d & -> & _).
    apply to_uint_range. }
  assert (nlines (data (consolidated t2 nd1))
          = to_uint (nlines (data nd1) + zsum (map (nlines_at t2) (child nd1)))) as Hn.
  { cbn [consolidated sort_children add_counts data nlines].
    by apply foldl_uint_add_range. }
  split_and!; try done.
  - by rewrite Htab2, list_lookup_fmap, Hnd1.
  - intros Hzero. destruct nd1 as [[n nm] p c]. cbn [data nlines child] in *.
    unfold consolidated, sort_children, add_counts in *. cbn [data nlines name parent child] in *.
    f_equal.
    + f_equal. rewrite Hn, zsum_zero, Z.add_0_r by done. by apply to_uint_small.
    + by apply (stable_sort_zero (nlines_at t2)).
Qed.

Lemma consolidate_twice_witness :
  ∃ t, scan_directories example_fs directories0 None "root" = Ok t
       ∧ ∃ t1 t2, consolidate_directories t = Some t1
           ∧ consolidate_directories t1 = Some t2
           ∧ ∀ j nd1,
               tab t1 !! j = Some nd1 →
               ∃ nd2, tab t2 !! j = Some nd2
                      ∧ name (data nd2) = name (data nd1)
                      ∧ parent nd2 = parent nd1
                      ∧ child nd2 = stable_sort (node_cmp t2) (child nd1)
                      ∧ nlines (data nd2)
                        = to_uint (nlines (data nd1) + zsum (map (nlines_at t2) (child nd1)))
                      ∧ (Forall (λ c, nlines_at t2 c = 0) (child nd1) → nd2 = nd1).
Proof.
  eexists. split; [vm_compute; reflexivity|].
  apply (consolidate_twice example_fs "root"). vm_compute. reflexivity.
Defined.

(** C3, as it is stated, fails: the second consolidation adds the five lines
    of the directory below the root to the root once more. *)
Lemma consolidate_twice_differs :
  ∃ t t1 t2, scan_directories example_fs directories0 None "root" = Ok t
             ∧ consolidate_directories t = Some t1
             ∧ consolidate_directories t1 = Some t2
             ∧ nlines_at t1 0 = 8
             ∧ nlines_at t2 0 = 13.
Proof.
  eexists _, _, _.
  split; [vm_compute; reflexivity|].
  split; [vm_compute; reflexivity|].
  split; [vm_compute; reflexivity|].
  split; vm_compute; reflexivity.
Qed.

(** ** Failures *)

Lemma first_error_unfold dirname entries :
  first_error dirname (Directory entries) = first_error_in dirname entries.
Proof.
  cbn [first_error]. induction entries as [|[d_name n] entries IH]; [done|].
  cbn [first_error_in]. rewrite IH. done.
Qed.

Lemma prune_unfold entries : prune (Directory entries) = Directory (prune_entries entries).
Proof.
  cbn [prune]. by f_equal.
Qed.

Lemma readdir_loop_first_error it dirname entries :
  Forall (λ e, ∀ t parent dirname,
            agrees (scan_directories e.2 t parent dirname) (first_error dirname e.2)) entries →
  ∀ t, agrees (readdir_loop it dirname entries t) (first_error_in dirname entries).
Proof.
  induction 1 as [|[d_name n] entries Hn _ IH]; intros t; [done|].
  cbn [readdir_loop first_error_in]. destruct (is_hidden d_name); [done|].
  destruct n as [| | | |sub]; cbn [S_ISDIR snd] in *.
  - done.
  - unfold scan_file. destruct (is_a_c_file _); simpl; [done|apply IH].
  - unfold scan_file. destruct (is_a_c_file _); simpl; apply IH.
  - specialize (Hn t (Some it) (dirname +:+ "/" +:+ d_name)).
    destruct (scan_directories NoDir _ _ _); cbn in Hn |- *; done.
  - specialize (Hn t (Some it) (dirname +:+ "/" +:+ d_name)).
    destruct (scan_directories (Directory sub) _ _ _);
      unfold agrees in Hn; cbn [mbind outcome_bind agrees]; [|by rewrite Hn|done].
    rewrite Hn. apply IH.
Qed.

Lemma add_directory_no_exit t parent dirname e : add_directory t parent dirname ≠ Exit e.
Proof.
  unfold add_directory, tree_set_root, tree_insert_child, alloc_node.
  destruct parent; repeat case_decide; destruct (lock t); done.
Qed.

Lemma scan_directories_first_error n : ∀ t parent dirname,
  agrees (scan_directories n t parent dirname) (first_error dirname n).
Proof.
  induction n as [| | | |entries IH] using inode_ind; intros t parent dirname;
    rewrite scan_directories_unfold, ?first_error_unfold;
    destruct (add_directory t parent dirname) as [[t1 it]|e|] eqn:Hadd; try done;
    try (by apply add_directory_no_exit in Hadd).
  by apply readdir_loop_first_error.
Qed.

(** ** Hidden entries *)

Lemma is_hidden_spec d_name :
  is_hidden d_name = true ↔ ∃ rest, d_name = String "."%char rest.
Proof.
  split.
  - destruct d_name as [|a rest]; [done|]. simpl.
    destruct a as [[] [] [] [] [] [] [] []]; try done. eauto.
  - by intros [rest ->].
Qed.

Lemma readdir_loop_prune it dirname entries :
  Forall (λ e, ∀ t parent dirname,
            scan_directories (prune e.2) t parent dirname
            = scan_directories e.2 t parent dirname) entries →
  ∀ t, readdir_loop it dirname (prune_entries entries) t
       = readdir_loop it dirname entries t.
Proof.
  induction 1 as [|[d_name n] entries Hn _ IH]; intros t; [done|].
  cbn [readdir_loop prune_entries]. destruct (is_hidden d_name) eqn:Hhid; [done|].
  cbn [readdir_loop]. rewrite Hhid.
  destruct n as [| | | |sub]; cbn [S_ISDIR snd prune] in *; try done;
    try (apply outcome_bind_ext; intros; apply IH).
  rewrite <-prune_unfold.
  change (S_ISDIR (prune (Directory sub))) with true. cbn match.
  rewrite Hn. destruct (prune (Directory sub)) eqn:Hp; try (by rewrite prune_unfold in Hp);
    apply outcome_bind_ext; intros; apply IH.
Qed.

Lemma scan_directories_prune n : ∀ t parent dirname,
  scan_directories (prune n) t parent dirname = scan_directories n t parent dirname.
Proof.
  induction n as [| | | |entries IH] using inode_ind; intros t parent dirname; try done.
  rewrite prune_unfold, !scan_directories_unfold.
  destruct (add_directory t parent dirname) as [[t1 it]| |]; try done.
  simpl. by apply readdir_loop_prune.
Qed.

Lemma readdir_loop_hidden it dirname d_name x es1 es2 : ∀ t,
  is_hidden d_name = true →
  readdir_loop it dirname (es1 ++ (d_name, x) :: es2) t
  = readdir_loop it dirname (es1 ++ es2) t.
Proof.
  intros t Hhid. revert t. induction es1 as [|[d n] es1 IH]; intros t.
  - simpl. by rewrite Hhid.
  - cbn [app readdir_loop]. destruct (is_hidden d); [done|].
    destruct n; try done; apply outcome_bind_ext; intros; apply IH.
Qed.

(** ** The count of one file *)

(** C4 (as amended): for a file whose name ends in .c, .h, .cpp or .hpp the
    count added to the node of its directory is the number of line-feed bytes
    of its contents, reduced modulo 2^32; a file with another name, such as
    a.py, leaves the tree as it is, and is not even opened. *)
Theorem scan_file_count t parent :
  (∀ filename,
     is_a_c_file filename = true ↔
     ∃ stem suffix,
       suffix ∈ [".c"; ".h"; ".cpp"; ".hpp"]%string ∧ filename = stem +:+ suffix)
  ∧ (∀ filename contents,
       is_a_c_file filename = true →
       scan_file t parent filename (RegFile contents)
       = Ok (atomic_fetch_add t parent (to_uint (newlines contents))))
  ∧ (∀ filename n,
       is_a_c_file filename = false → scan_file t parent filename n = Ok t)
  ∧ is_a_c_file "a.py" = false.
Proof.
  split_and!.
  - apply is_a_c_file_spec.
  - intros filename contents Hc. unfold scan_file. rewrite Hc. simpl.
    by rewrite read_loop_newlines, Z.add_0_l.
  - intros filename n Hc. unfold scan_file. by rewrite Hc.
  - reflexivity.
Qed.

Lemma scan_file_count_witness :
  scan_file example_tree 0 "a.cpp" (RegFile ten_lines)
  = Ok (atomic_fetch_add example_tree 0 10)
  ∧ scan_file example_tree 0 "a.py" (RegFile ten_lines) = Ok example_tree.
Proof.
  destruct (scan_file_count example_tree 0) as (_ & Hc & Hother & _). split.
  - apply (Hc "a.cpp"%string ten_lines). reflexivity.
  - apply Hother. reflexivity.
Defined.

(** C4, as it is stated, fails for a file with 2^32 line-feed bytes: the
    count that is added is 0, and the node keeps its seven lines. *)
Lemma scan_file_count_overflow :
  newlines overflow_file = 4294967296
  ∧ scan_file example_tree 0 "a.c" (RegFile overflow_file)
    = Ok (atomic_fetch_add example_tree 0 0)
  ∧ nlines_at (atomic_fetch_add example_tree 0 0) 0 = 7.
Proof.
  split_and!.
  - apply newlines_overflow_file.
  - unfold scan_file. change (is_a_c_file "a.c") with true. cbn [negb fopen].
    by rewrite read_loop_newlines, newlines_overflow_file.
  - reflexivity.
Qed.

(** ** What the scan of one file changes *)

(** C8: a successful [scan_file] changes no node but the node [it] of the
    directory of the file, and of it only the counter: the names, the parents
    and the children of all nodes, the root and the size of the tree stay as
    they are. *)
Theorem scan_file_frame t it filename n t' :
  scan_file t it filename n = Ok t' →
  (∀ j, j ≠ it → tab t' !! j = tab t !! j)
  ∧ (∀ nd, tab t !! it = Some nd →
       ∃ nd', tab t' !! it = Some nd'
              ∧ name (data nd') = name (data nd)
              ∧ parent nd' = parent nd
              ∧ child nd' = child nd
              ∧ nlines (data nd')
                = if is_a_c_file filename
                  then uint_add (nlines (data nd)) (to_uint (file_lines filename n))
                  else nlines (data nd))
  ∧ length (tab t') = length (tab t)
  ∧ root t' = root t ∧ capacity t' = capacity t ∧ lock t' = lock t.
Proof.
  unfold scan_file, file_lines. destruct (is_a_c_file filename); simpl.
  - destruct (fopen n) as [f|]; [|done]. intros [= <-]. simpl. split_and!; try done.
    + intros j Hj. by apply list_lookup_alter_ne.
    + intros nd Hnd. exists (fetch_add (read_loop f 0) nd).
      rewrite list_lookup_alter_eq, Hnd. split_and!; try done. simpl.
      by rewrite read_loop_newlines, Z.add_0_l.
    + apply length_alter.
  - intros [= <-]. split_and!; try done. intros nd Hnd. by exists nd.
Qed.

Lemma scan_file_frame_witness :
  scan_file four_dirs 1 "root/a/x.c" (RegFile ten_lines)
  = Ok (atomic_fetch_add four_dirs 1 10)
  ∧ (∀ j, j ≠ 1%nat → tab (atomic_fetch_add four_dirs 1 10) !! j = tab four_dirs !! j)
  ∧ (∀ nd, tab four_dirs !! 1%nat = Some nd →
       ∃ nd', tab (atomic_fetch_add four_dirs 1 10) !! 1%nat = Some nd'
              ∧ name (data nd') = name (data nd)
              ∧ parent nd' = parent nd
              ∧ child nd' = child nd
              ∧ nlines (data nd')
                = if is_a_c_file "root/a/x.c"
                  then uint_add (nlines (data nd))
                         (to_uint (file_lines "root/a/x.c" (RegFile ten_lines)))
                  else nlines (data nd))
  ∧ length (tab (atomic_fetch_add four_dirs 1 10)) = length (tab four_dirs)
  ∧ root (atomic_fetch_add four_dirs 1 10) = root four_dirs
  ∧ capacity (atomic_fetch_add four_dirs 1 10) = capacity four_dirs
  ∧ lock (atomic_fetch_add four_dirs 1 10) = lock four_dirs.
Proof.
  assert (scan_file four_dirs 1 "root/a/x.c" (RegFile ten_lines)
          = Ok (atomic_fetch_add four_dirs 1 10)) as Hscan by reflexivity.
  split; [exact Hscan|].
  exact (scan_file_frame four_dirs 1%nat "root/a/x.c" (RegFile ten_lines) _ Hscan).
Defined.

(** The file of ten lines in the second of the four directories changes the
    count of that directory from 2 to 12 and no other count: the root above it
    keeps 1, the directory below it 3 and the directory beside it 4. *)
Lemma scan_file_four_dirs :
  ∃ t', scan_file four_dirs 1 "root/a/x.c" (RegFile ten_lines) = Ok t'
        ∧ map (nlines_at four_dirs) [0; 1; 2; 3]%nat = [1; 2; 3; 4]
        ∧ map (nlines_at t') [0; 1; 2; 3]%nat = [1; 12; 3; 4]
        ∧ map parent (tab t') = map parent (tab four_dirs)
        ∧ map child (tab t') = map child (tab four_dirs).
Proof. eexists. split; [reflexivity|]. split_and!; reflexivity. Qed.

(** ** Hidden entries are not scanned *)

(** C5: an entry whose name begins with a dot, such as ".", ".." or ".git",
    is skipped: the outcome of the loop over the entries, of the scan of a
    directory and of the whole program, with the tree and with the failures,
    is the outcome for the file system without the hidden entries, whatever
    the hidden entries are. *)
Theorem hidden_entries_ignored :
  (∀ d_name, is_hidden d_name = true ↔ ∃ rest, d_name = String "."%char rest)
  ∧ is_hidden "." = true ∧ is_hidden ".." = true ∧ is_hidden ".git" = true
  ∧ (∀ it dirname d_name x es1 es2 t,
       is_hidden d_name = true →
       readdir_loop it dirname (es1 ++ (d_name, x) :: es2) t
       = readdir_loop it dirname (es1 ++ es2) t)
  ∧ (∀ n t parent dirname,
       scan_directories (prune n) t parent dirname = scan_directories n t parent dirname)
  ∧ (∀ argv fs, main argv (prune fs) = main argv fs)
  ∧ (∀ d_name x entries,
       is_hidden d_name = true →
       prune (Directory ((d_name, x) :: entries)) = prune (Directory entries)).
Proof.
  split_and!; try done.
  - apply is_hidden_spec.
  - intros. by apply readdir_loop_hidden.
  - intros. apply scan_directories_prune.
  - intros argv fs. unfold main. destruct argv as [|a [|str rest]]; try done.
    by rewrite scan_directories_prune.
  - intros d_name x entries Hhid. rewrite !prune_unfold. cbn [prune_entries].
    by rewrite Hhid.
Qed.

Lemma hidden_entries_ignored_witness :
  readdir_loop 0 "root" ([] ++ (".git"%string, NoStat) :: []) example_tree
  = readdir_loop 0 "root" ([] ++ []) example_tree.
Proof.
  destruct hidden_entries_ignored as (_ & _ & _ & _ & Hloop & _).
  apply Hloop. reflexivity.
Defined.

(** ** One node for every directory *)

Lemma number_forest_length {A} (ks : list (rose A)) start :
  length (number_forest start ks) = length ks.
Proof. revert start. induction ks as [|k ks IH]; intros start; simpl; [done|]. by rewrite IH. Qed.

Lemma arena_of_children r : ∀ start p,
  Forall2 (λ nd r', length (child nd) = length (rkids r')) (arena_of start p r) (subtrees r).
Proof.
  induction r as [d ks IH] using rose_ind. intros start p.
  rewrite arena_of_unfold, subtrees_unfold. constructor.
  { simpl. by rewrite length_map, number_forest_length. }
  generalize (S start) (Some start).
  induction IH as [|k ks Hk _ IHks]; intros st q; simpl; [constructor|].
  apply Forall2_app; auto.
Qed.

Lemma own_lines_no_matching dirname entries :
  matching_files dirname entries = [] → own_lines dirname entries = 0.
Proof.
  unfold matching_files. induction entries as [|[d_name n] entries IH]; [done|].
  cbn [List.filter own_lines fst snd]. unfold file_lines.
  destruct (is_hidden d_name), (S_ISDIR n), (is_a_c_file _); cbn [negb andb orb];
    try done; intros ->%IH; done.
Qed.

(** C7: the nodes of the tree after a successful scan are, in the order of
    the visits, the directories that the scanner entered, one node each, with
    the path as the name, the lines of the files of the directory itself as
    the count and one child for each of its directories; a directory without
    matching files and without directories has the count 0 and no child. *)
Theorem scan_nodes fs str t :
  scan_directories fs directories0 None str = Ok t →
  map data (tab t) = map scanned_dir (visited str fs)
  ∧ Forall2 (λ nd d, length (child nd) = length (subdirs_of d)) (tab t) (visited str fs)
  ∧ ∀ j dirname entries nd,
      visited str fs !! j = Some (dirname, Directory entries) →
      tab t !! j = Some nd →
      matching_files dirname entries = [] →
      subdirs dirname entries = [] →
      nlines (data nd) = 0 ∧ child nd = [].
Proof.
  intros (Htab & _ & _)%scan_directories0.
  assert (map data (tab t) = map scanned_dir (visited str fs)) as Hdata.
  { by rewrite Htab, arena_of_data. }
  assert (Forall2 (λ nd d, length (child nd) = length (subdirs_of d))
            (tab t) (visited str fs)) as Hchildren.
  { rewrite Htab. unfold visited.
    pose proof (arena_of_children (dir_tree str fs) 0 None) as Hc.
    rewrite subtrees_dir_tree in Hc. apply Forall2_fmap_r in Hc.
    eapply Forall2_impl; [exact Hc|]. intros nd d ->. simpl.
    rewrite dir_tree_unfold. unfold subdirs_of, dir_forest. simpl.
    destruct (opendir d.2); simpl; [by rewrite length_map|done]. }
  split_and!; [done..|].
  intros j dirname entries nd Hd Hnd Hfiles Hdirs. split.
  - apply (f_equal (λ l, l !! j)) in Hdata. rewrite !list_lookup_fmap, Hd, Hnd in Hdata.
    injection Hdata as ->. unfold scanned_dir, own_lines_of. simpl.
    by rewrite own_lines_no_matching.
  - apply nil_length_inv.
    rewrite (Forall2_lookup_lr _ _ _ _ _ _ Hchildren Hnd Hd).
    unfold subdirs_of. simpl. by rewrite Hdirs.
Qed.

Lemma scan_nodes_witness :
  ∃ t, scan_directories example_fs directories0 None "root" = Ok t
       ∧ map data (tab t) = map scanned_dir (visited "root" example_fs).
Proof.
  eexists. split; [vm_compute; reflexivity|].
  apply (scan_nodes example_fs "root"). vm_compute. reflexivity.
Defined.

(** ** The capacity of the tree *)

Lemma alloc_node_full t nd :
  lock t = true → (capacity t ≤ N.of_nat (length (tab t)))%N → alloc_node t nd = Abort.
Proof.
  intros Hlock Hfull. unfold alloc_node. rewrite decide_False by lia. by rewrite Hlock.
Qed.

Lemma scan_directories_size fs str t :
  scan_directories fs directories0 None str = Ok t →
  length (tab t) = length (visited str fs)
  ∧ (N.of_nat (length (visited str fs)) ≤ MAX_DIRECTORY)%N.
Proof.
  intros Hscan.
  destruct (scan_directories_tab fs _ _ _ _ Hscan) as (Htab & _ & _ & Hcap); [done|].
  destruct (Hcap eq_refl) as [Hc Hle]. simpl in Htab.
  assert (length (tab t) = length (visited str fs)) as Hlen.
  { by rewrite Htab, arena_of_length. }
  split; [done|]. rewrite <-Hlen. by rewrite Hc in Hle.
Qed.

(** C9: the tree of [main] is reserved for [MAX_DIRECTORY] nodes and locked;
    an insertion into a locked tree without a free slot is fatal; an
    insertion that succeeds takes the next index and leaves all the other
    nodes at their indices; a scan that succeeds has one node for each
    directory, at most [MAX_DIRECTORY], and a scan of more directories
    without another failure is fatal. *)
Theorem capacity_ceiling :
  capacity directories0 = MAX_DIRECTORY ∧ lock directories0 = true
  ∧ MAX_DIRECTORY = 100000%N
  ∧ (∀ t p d,
       lock t = true → (capacity t ≤ N.of_nat (length (tab t)))%N →
       tree_insert_child t p d = Abort ∧ tree_set_root t d = Abort)
  ∧ (∀ t p d t' i,
       tree_insert_child t p d = Ok (t', i) →
       i = length (tab t)
       ∧ length (tab t') = S (length (tab t))
       ∧ (∀ j, j ≠ p → (j < length (tab t))%nat → tab t' !! j = tab t !! j)
       ∧ ((p < length (tab t))%nat → tab t' !! p = add_child i <$> tab t !! p))
  ∧ (∀ fs str t,
       scan_directories fs directories0 None str = Ok t →
       length (tab t) = length (visited str fs)
       ∧ (N.of_nat (length (visited str fs)) ≤ MAX_DIRECTORY)%N)
  ∧ (∀ fs str,
       first_error str fs = None →
       (MAX_DIRECTORY < N.of_nat (length (visited str fs)))%N →
       scan_directories fs directories0 None str = Abort).
Proof.
  split_and!; try done.
  - intros t p d Hlock Hfull. unfold tree_insert_child, tree_set_root.
    by rewrite !alloc_node_full.
  - intros t p d t' i. unfold tree_insert_child, alloc_node.
    repeat case_match; try done; simpl; intros [= <- <-]; simpl;
      (split_and!; [done|by rewrite length_alter, length_app, Nat.add_1_r| |]).
    1,3: intros j Hj Hlt; by rewrite list_lookup_alter_ne, lookup_app_l.
    all: intros Hlt; by rewrite list_lookup_alter_eq, lookup_app_l.
  - apply scan_directories_size.
  - intros fs str Hfirst Hmany.
    pose proof (scan_directories_first_error fs directories0 None str) as Hagree.
    destruct (scan_directories fs directories0 None str) as [t|e|] eqn:Hscan; [| |done].
    + apply scan_directories_size in Hscan as [_ Hle]. lia.
    + simpl in Hagree. congruence.
Qed.

Lemma capacity_ceiling_witness :
  tree_insert_child full_tree 0 (mk_dir 0 "root/sub") = Abort
  ∧ tree_set_root full_tree (mk_dir 0 "root/sub") = Abort.
Proof.
  destruct capacity_ceiling as (_ & _ & _ & Hfull & _).
  apply Hfull; [reflexivity|]. vm_compute. by intros [=].
Defined.

(** ** Counting is modulo 2^32 *)

(** C10: the count of a buffer, the count of a file, the addition of the
    count of a file to the node of its directory by [scan_file], the counts of
    the directories after the scan, the addition of a child to its parent in
    the consolidation and the counts after the consolidation are all reduced
    modulo 2^32; a count that reaches 2^32 starts again at 0. *)
Theorem unsigned_wraparound :
  UINT_MAX + 1 = 2 ^ 32
  ∧ (∀ buffer, count_eol buffer = newlines buffer mod 2 ^ 32)
  ∧ (∀ f count, read_loop f count = (count + newlines f) mod 2 ^ 32)
  ∧ (∀ count nd,
       nlines (data (fetch_add count nd)) = (nlines (data nd) + count) mod 2 ^ 32)
  ∧ (∀ t i count nd,
       tab t !! i = Some nd →
       nlines_at (atomic_fetch_add t i count) i = (nlines (data nd) + count) mod 2 ^ 32)
  ∧ (∀ t it filename contents nd,
       is_a_c_file filename = true →
       tab t !! it = Some nd →
       ∃ t', scan_file t it filename (RegFile contents) = Ok t'
             ∧ nlines_at t' it = (nlines (data nd) + newlines contents) mod 2 ^ 32)
  ∧ (∀ fs str t,
       scan_directories fs directories0 None str = Ok t →
       map (λ nd, nlines (data nd)) (tab t)
       = map (λ d, own_lines_of d mod 2 ^ 32) (visited str fs))
  ∧ (∀ t i p nd,
       tree_up t i = Some p → p ≠ i → tab t !! p = Some nd →
       nlines_at (consolidate_node t i) p = (nlines (data nd) + nlines_at t i) mod 2 ^ 32)
  ∧ (∀ fs str t,
       scan_directories fs directories0 None str = Ok t →
       ∃ t', consolidate_directories t = Some t'
             ∧ map (λ nd, nlines (data nd)) (tab t')
               = map (λ d, total_lines d.1 d.2 mod 2 ^ 32) (visited str fs))
  ∧ (∀ fs str t t',
       scan_directories fs directories0 None str = Ok t →
       consolidate_directories t = Some t' →
       Forall (λ nd, 0 ≤ nlines (data nd) < 2 ^ 32) (tab t'))
  ∧ uint_add UINT_MAX 1 = 0
  ∧ read_loop overflow_file 0 = 0
  ∧ (∃ t', scan_file wrap_tree 0 "root/a.c" (RegFile [x0a]) = Ok t'
           ∧ nlines_at wrap_tree 0 = UINT_MAX ∧ nlines_at t' 0 = 0)
  ∧ (∃ t', consolidate_directories wrap_tree = Some t' ∧ nlines_at t' 0 = 0).
Proof.
  split_and!.
  - reflexivity.
  - intros buffer. apply count_eol_newlines.
  - intros f count. apply read_loop_newlines.
  - done.
  - intros t i count nd Hnd. unfold nlines_at, node_data, tree_ref. simpl.
    by rewrite list_lookup_alter_eq, Hnd.
  - intros t it filename contents nd Hname Hnd. eexists. split.
    + unfold scan_file. rewrite Hname. reflexivity.
    + unfold nlines_at, node_data, tree_ref. simpl.
      rewrite list_lookup_alter_eq, Hnd. simpl.
      rewrite read_loop_newlines, Z.add_0_l. unfold uint_add. by rewrite to_uint_add_r.
  - intros fs str t (Htab & _ & _)%scan_directories0.
    change (λ nd, nlines (data nd)) with (nlines ∘ data).
    rewrite <-(map_map data nlines), Htab, arena_of_data, map_map. done.
  - intros t i p nd Hup Hp Hnd. unfold nlines_at at 1, node_data, tree_ref.
    rewrite consolidate_node_lookup_parent, Hnd by done. done.
  - intros fs str t (_ & t' & Hcons & _ & _ & Hlines)%scan_consolidate. by exists t'.
  - intros fs str t t' (_ & t'' & Hcons & _ & _ & Hlines)%scan_consolidate Hcons'.
    assert (t'' = t') as -> by congruence.
    apply Forall_forall. intros nd Hnd.
    assert (nlines (data nd) ∈ map (λ nd, nlines (data nd)) (tab t')) as Hin.
    { by apply (list_elem_of_fmap_2 (λ nd, nlines (data nd))). }
    rewrite Hlines in Hin. apply list_elem_of_fmap in Hin as (d & -> & _).
    apply to_uint_range.
  - reflexivity.
  - by rewrite read_loop_newlines, newlines_overflow_file.
  - eexists. split; [reflexivity|]. split; reflexivity.
  - eexists. split; [vm_compute; reflexivity|]. reflexivity.
Qed.

Lemma unsigned_wraparound_witness :
  is_a_c_file "root/a.c" = true
  ∧ tab wrap_tree !! 0%nat = Some (mk_node (mk_dir UINT_MAX "root") None [1%nat])
  ∧ ∃ t', scan_file wrap_tree 0 "root/a.c" (RegFile [x0a]) = Ok t'
          ∧ nlines_at t' 0 = (UINT_MAX + newlines [x0a]) mod 2 ^ 32.
Proof.
  split; [reflexivity|]. split; [reflexivity|].
  destruct unsigned_wraparound as (_ & _ & _ & _ & _ & Hscan & _).
  apply (Hscan wrap_tree 0%nat "root/a.c"%string [x0a]
           (mk_node (mk_dir UINT_MAX "root") None [1%nat])); reflexivity.
Defined.

(** ** The room of the tree *)

Lemma scan_file_length t it filename n t' :
  scan_file t it filename n = Ok t' →
  length (tab t') = length (tab t) ∧ capacity t' = capacity t ∧ lock t' = lock t.
Proof.
  unfold scan_file. destruct (is_a_c_file filename); simpl.
  - destruct (fopen n); [|done]. intros [= <-]. simpl. by rewrite length_alter.
  - by intros [= <-].
Qed.

Lemma scan_file_no_abort t it filename n : scan_file t it filename n ≠ Abort.
Proof. unfold scan_file. destruct (is_a_c_file filename); simpl; [|done]. by destruct (fopen n). Qed.

Lemma readdir_loop_no_abort it dirname entries :
  Forall (λ e, no_abort_spec e.2) entries →
  ∀ t, lock t = true → (it < length (tab t))%nat →
    (N.of_nat (length (tab t) + length (concat (map preorder (dir_forest dirname entries))))
     ≤ capacity t)%N →
    readdir_loop it dirname entries t ≠ Abort.
Proof.
  induction 1 as [|[d_name n] entries Hn _ IH]; intros t Hlock Hit Hcap; [done|].
  unfold dir_forest in *. cbn [readdir_loop subdirs] in *.
  destruct (is_hidden d_name); cbn [negb andb] in *; [by apply IH|].
  set (filename := dirname +:+ "/" +:+ d_name) in *.
  destruct (S_ISDIR n) eqn:Hdir; cbn [map concat fst snd] in Hcap.
  - rewrite length_app in Hcap. fold (rsize (dir_tree filename n)) in Hcap.
    assert (scan_directories n t (Some it) filename ≫= readdir_loop it dirname entries ≠ Abort);
      [|by destruct n].
    destruct (scan_directories n t (Some it) filename) as [t1| |] eqn:Hscan; [|done|].
    + destruct (scan_directories_tab n _ _ _ _ Hscan) as (Htab & Hlock1 & _ & Hcap1).
      { by intros ? [= <-]. }
      destruct (Hcap1 Hlock) as [Hc1 _].
      assert (length (tab t1) = (length (tab t) + rsize (dir_tree filename n))%nat) as Hlen.
      { rewrite Htab, length_app, arena_of_length. simpl. by rewrite length_alter. }
      cbn [mbind outcome_bind]. apply IH; [congruence|lia|]. rewrite Hlen, Hc1. lia.
    + exfalso. revert Hscan. apply (Hn t (Some it) filename); [done| |].
      * by intros ? [= <-].
      * simpl. lia.
  - assert (scan_file t it filename n ≫= readdir_loop it dirname entries ≠ Abort);
      [|by destruct n].
    destruct (scan_file t it filename n) as [t1| |] eqn:Hscan; [|done|].
    + destruct (scan_file_length _ _ _ _ _ Hscan) as (Hlen & Hc1 & Hl1).
      cbn [mbind outcome_bind]. apply IH; [congruence|lia|]. rewrite Hlen, Hc1. lia.
    + by apply scan_file_no_abort in Hscan.
Qed.

Lemma add_directory_room t parent dirname :
  (N.of_nat (length (tab t)) < capacity t)%N →
  ∃ t1, add_directory t parent dirname = Ok (t1, length (tab t)).
Proof.
  intros Hroom. unfold add_directory, tree_set_root, tree_insert_child, alloc_node.
  destruct parent; rewrite decide_True by done; cbn; eexists; reflexivity.
Qed.

Lemma scan_directories_no_abort n : no_abort_spec n.
Proof.
  induction n as [| | | |entries IH] using inode_ind; intros t parent dirname Hlock Hp Hcap;
    rewrite scan_directories_unfold;
    (destruct (add_directory_room t parent dirname) as [t1 Hadd];
     [match type of Hcap with context [rsize ?r] => pose proof (rsize_pos r) end; lia|]);
    rewrite Hadd; cbn [mbind outcome_bind opendir]; try done.
  destruct (add_directory_tab _ _ _ _ _ Hadd Hp) as (_ & Htab & Hlock1 & _ & Hcap1).
  destruct (Hcap1 Hlock) as [Hc1 _].
  assert (length (tab t1) = S (length (tab t))) as Hlen.
  { rewrite Htab, length_app. destruct parent; simpl; rewrite ?length_alter; lia. }
  rewrite dir_tree_unfold, rsize_unfold in Hcap.
  cbn [opendir fmap option_fmap option_map default id] in Hcap.
  apply readdir_loop_no_abort; [done|congruence|lia|]. rewrite Hlen, Hc1. lia.
Qed.

(** ** The exits of the program *)






(** * Further properties of the functions *)

(** ** The comparison of the counts *)

(** X1: [atomic_uint_cmp] is a three-way comparison for the order with the
    biggest count first: its value is -1, 0 or 1, negative exactly when the
    first count is the bigger one, 0 exactly for equal counts, it changes its
    sign when the arguments are exchanged, and the order is transitive; the
    comparison of two directories is the comparison of their counts, whatever
    their names. *)
Theorem atomic_uint_cmp_order a b c :
  (atomic_uint_cmp a b = -1 ∨ atomic_uint_cmp a b = 0 ∨ atomic_uint_cmp a b = 1)
  ∧ (atomic_uint_cmp a b < 0 ↔ b < a)
  ∧ (atomic_uint_cmp a b = 0 ↔ a = b)
  ∧ atomic_uint_cmp b a = - atomic_uint_cmp a b
  ∧ (atomic_uint_cmp a b ≤ 0 → atomic_uint_cmp b c ≤ 0 → atomic_uint_cmp a c ≤ 0)
  ∧ (∀ name1 name2, dir_cmp (mk_dir a name1) (mk_dir b name2) = atomic_uint_cmp a b).
Proof.
  unfold dir_cmp, atomic_uint_cmp. cbn [nlines].
  destruct (Z.gtb_spec a b), (Z.ltb_spec a b), (Z.gtb_spec b a), (Z.ltb_spec b a),
    (Z.gtb_spec b c), (Z.ltb_spec b c), (Z.gtb_spec a c), (Z.ltb_spec a c);
    split_and!; try lia; auto.
Qed.

Lemma atomic_uint_cmp_order_witness :
  atomic_uint_cmp 9 5 ≤ 0 ∧ atomic_uint_cmp 5 2 ≤ 0 ∧ atomic_uint_cmp 9 2 ≤ 0.
Proof.
  split; [by vm_compute|]. split; [by vm_compute|].
  apply (atomic_uint_cmp_order 9 5 2); by vm_compute.
Defined.

(** ** The line feeds of a buffer and of a file *)

Lemma newlines_le_length l : newlines l ≤ Z.of_nat (length l).
Proof.
  induction l as [|c l IH]; simpl newlines; simpl length; [done|].
  destruct (Byte.eqb c x0a); lia.
Qed.

(** X2: for a buffer of at most [MAX_READ_BUFFER] bytes, which is what the
    array of [scan_file] holds, [count_eol] is the number of line feeds itself,
    without a reduction; it lies between 0 and the number of bytes, and it is
    the sum of the counts of any two parts of the buffer. *)
Theorem count_eol_buffer buffer :
  (length buffer ≤ MAX_READ_BUFFER)%nat →
  count_eol buffer = newlines buffer
  ∧ 0 ≤ count_eol buffer ≤ Z.of_nat (length buffer)
  ∧ ∀ b1 b2, buffer = b1 ++ b2 → count_eol buffer = count_eol b1 + count_eol b2.
Proof.
  intros Hlen. unfold MAX_READ_BUFFER in Hlen.
  pose proof (newlines_nonneg buffer). pose proof (newlines_le_length buffer).
  rewrite count_eol_newlines, to_uint_small by (unfold UINT_MAX; lia).
  split; [done|]. split; [lia|]. intros b1 b2 ->.
  rewrite length_app in *.
  pose proof (newlines_nonneg b1). pose proof (newlines_le_length b1).
  pose proof (newlines_nonneg b2). pose proof (newlines_le_length b2).
  rewrite !count_eol_newlines, !to_uint_small by (unfold UINT_MAX; lia).
  apply newlines_app.
Qed.

Lemma count_eol_buffer_witness :
  (length ten_lines ≤ MAX_READ_BUFFER)%nat
  ∧ count_eol ten_lines = newlines ten_lines
  ∧ 0 ≤ count_eol ten_lines ≤ Z.of_nat (length ten_lines)
  ∧ ∀ b1 b2, ten_lines = b1 ++ b2 → count_eol ten_lines = count_eol b1 + count_eol b2.
Proof.
  assert (length ten_lines ≤ MAX_READ_BUFFER)%nat as Hlen by (vm_compute; lia).
  split; [exact Hlen|]. exact (count_eol_buffer ten_lines Hlen).
Defined.

(** X3: the loop of [scan_file] counts a file of at most [UINT_MAX] bytes
    exactly: the count is the number of its line feeds, between 0 and the
    number of its bytes. *)
Theorem read_loop_exact f :
  Z.of_nat (length f) ≤ UINT_MAX →
  read_loop f 0 = newlines f ∧ 0 ≤ read_loop f 0 ≤ Z.of_nat (length f).
Proof.
  intros Hlen. pose proof (newlines_nonneg f). pose proof (newlines_le_length f).
  rewrite read_loop_newlines, Z.add_0_l, to_uint_small by lia. lia.
Qed.

Lemma read_loop_exact_witness :
  Z.of_nat (length ten_lines) ≤ UINT_MAX
  ∧ read_loop ten_lines 0 = newlines ten_lines
  ∧ 0 ≤ read_loop ten_lines 0 ≤ Z.of_nat (length ten_lines).
Proof.
  assert (Z.of_nat (length ten_lines) ≤ UINT_MAX) as Hlen by (vm_compute; discriminate).
  split; [exact Hlen|]. exact (read_loop_exact ten_lines Hlen).
Defined.

Lemma newlines_no_eol l : Forall (λ c, c ≠ x0a) l → newlines l = 0.
Proof.
  induction 1 as [|c l Hc _ IH]; simpl; [done|]. rewrite IH.
  destruct (Byte.eqb c x0a) eqn:E; [|done]. by apply Byte.byte_dec_bl in E.
Qed.

(** X4: the count of a file does not depend on the places where the buffers cut
    it: to count [f1 ++ f2] is to count [f1] and to go on with [f2] from that
    count.  Bytes without a line feed at the end, such as a last line that is
    not terminated, add nothing; a line feed adds one, modulo 2^32. *)
Theorem read_loop_app f1 f2 count :
  read_loop (f1 ++ f2) count = read_loop f2 (read_loop f1 count)
  ∧ (Forall (λ c, c ≠ x0a) f2 → read_loop (f1 ++ f2) count = read_loop f1 count)
  ∧ read_loop (f1 ++ [x0a]) count = uint_add (read_loop f1 count) 1.
Proof.
  rewrite !read_loop_newlines, !newlines_app. split_and!.
  - uint_simpl. f_equal. lia.
  - intros ->%newlines_no_eol. by rewrite Z.add_0_r.
  - simpl. uint_simpl. f_equal. lia.
Qed.

(** ** The names of the files *)

Lemma has_char_middle c x y : has_char c (x +:+ String c y) = true.
Proof.
  induction x as [|a x IH]; rewrite ?append_nil, ?append_cons; simpl.
  - by rewrite Ascii.eqb_refl.
  - rewrite IH. apply orb_true_r.
Qed.

Lemma append_assoc s1 s2 s3 : (s1 +:+ s2) +:+ s3 = s1 +:+ s2 +:+ s3.
Proof.
  induction s1 as [|a s1 IH]; rewrite ?append_nil, ?append_cons; [done|]. by rewrite IH.
Qed.

Lemma append_nil_r s : s +:+ "" = s.
Proof. induction s as [|a s IH]; rewrite ?append_nil, ?append_cons; [done|]. by rewrite IH. Qed.

Lemma suffix_of_path dirname d_name suffix :
  has_char "/" suffix = false →
  (∃ stem, dirname +:+ "/" +:+ d_name = stem +:+ suffix)
  ↔ (∃ stem, d_name = stem +:+ suffix).
Proof.
  intros Hsuf. split.
  - intros [stem Heq]. revert stem Heq.
    induction dirname as [|c dirname IH]; intros stem;
      rewrite ?append_nil, !append_cons, ?append_nil;
      (destruct stem as [|a stem]; rewrite ?append_nil, ?append_cons; intros Heq;
        [exfalso; rewrite <-Heq in Hsuf|injection Heq as _ Heq; eauto]).
    + simpl in Hsuf. done.
    + pose proof (has_char_middle "/" (String c dirname) d_name) as H.
      rewrite append_cons in H. congruence.
  - intros [stem ->]. exists (dirname +:+ "/" +:+ stem). by rewrite !append_assoc.
Qed.

Lemma is_a_c_file_in_dir dirname d_name :
  is_a_c_file (dirname +:+ "/" +:+ d_name) = true ↔ is_a_c_file d_name = true.
Proof.
  rewrite !is_a_c_file_spec. split.
  - intros (stem & suffix & Hin & Heq).
    assert (has_char "/" suffix = false) as Hsuf.
    { repeat (apply elem_of_cons in Hin as [->|Hin]; [done|]). by apply elem_of_nil in Hin. }
    destruct (proj1 (suffix_of_path dirname d_name suffix Hsuf)) as [stem' ->]; eauto.
  - intros (stem & suffix & Hin & Heq).
    assert (has_char "/" suffix = false) as Hsuf.
    { repeat (apply elem_of_cons in Hin as [->|Hin]; [done|]). by apply elem_of_nil in Hin. }
    destruct (proj2 (suffix_of_path dirname d_name suffix Hsuf)) as [stem' ->]; eauto.
Qed.

(** X5: whether a file is counted depends on the name of its entry only, not
    on the directory: the path that [scan_directories] builds for an entry is
    a C file exactly when the name of the entry is one, and the lines that a
    file counts for are the same under both names. *)
Theorem is_a_c_file_path dirname d_name :
  is_a_c_file (dirname +:+ "/" +:+ d_name) = is_a_c_file d_name
  ∧ (∀ n, file_lines (dirname +:+ "/" +:+ d_name) n = file_lines d_name n).
Proof.
  assert (is_a_c_file (dirname +:+ "/" +:+ d_name) = is_a_c_file d_name) as Heq.
  { pose proof (is_a_c_file_in_dir dirname d_name) as Hiff.
    destruct (is_a_c_file (dirname +:+ "/" +:+ d_name)), (is_a_c_file d_name); try done.
    - symmetry. by apply Hiff.
    - by apply Hiff. }
  split; [done|]. intros n. unfold file_lines. by rewrite Heq.
Qed.

(** ** The loop over the entries of a directory *)

(** X6: an entry that is not a directory, on which [stat] succeeds and whose
    name has none of the four suffixes, is never opened: the loop over the
    entries ends in the same way, with the same tree or the same failure, when
    the entry is taken out of the directory, even when the file cannot be
    opened. *)
Theorem other_files_ignored it dirname d_name x es1 es2 t :
  is_a_c_file d_name = false → S_ISDIR x = false → x ≠ NoStat →
  readdir_loop it dirname (es1 ++ (d_name, x) :: es2) t
  = readdir_loop it dirname (es1 ++ es2) t.
Proof.
  intros Hname Hdir Hstat. revert t.
  induction es1 as [|[d n] es1 IH]; intros t; cbn [app readdir_loop].
  - destruct (is_hidden d_name); [done|].
    assert (scan_file t it (dirname +:+ "/" +:+ d_name) x = Ok t) as Hscan.
    { unfold scan_file.
      destruct (is_a_c_file (dirname +:+ "/" +:+ d_name)) eqn:Hpath; [|done].
      apply is_a_c_file_in_dir in Hpath. congruence. }
    destruct x; try done; cbn [S_ISDIR]; by rewrite Hscan.
  - destruct (is_hidden d); [done|]. destruct n; try done; by apply outcome_bind_ext.
Qed.

Lemma other_files_ignored_witness :
  readdir_loop 0 "root" ([("a.c"%string, RegFile ten_lines)] ++ ("x.py"%string, NoFile) :: [])
    example_tree
  = readdir_loop 0 "root" ([("a.c"%string, RegFile ten_lines)] ++ []) example_tree.
Proof. apply (other_files_ignored 0 "root" "x.py" NoFile); done. Defined.

Lemma outcome_bind_assoc {A B C} (m : outcome A) (f : A → outcome B) (g : B → outcome C) :
  (m ≫= f) ≫= g = m ≫= (λ a, f a ≫= g).
Proof. by destruct m. Qed.

(** X7: the entries are handled one after the other, in the order of
    [readdir]: the loop over [es1 ++ es2] is the loop over [es1] followed, on
    the tree that it leaves, by the loop over [es2]; when the loop over [es1]
    ends the program, the entries of [es2] are not looked at. *)
Theorem readdir_loop_app it dirname es1 es2 t :
  readdir_loop it dirname (es1 ++ es2) t
  = readdir_loop it dirname es1 t ≫= readdir_loop it dirname es2
  ∧ (∀ e, readdir_loop it dirname es1 t = Exit e →
          readdir_loop it dirname (es1 ++ es2) t = Exit e)
  ∧ (readdir_loop it dirname es1 t = Abort →
     readdir_loop it dirname (es1 ++ es2) t = Abort).
Proof.
  assert (readdir_loop it dirname (es1 ++ es2) t
          = readdir_loop it dirname es1 t ≫= readdir_loop it dirname es2) as Happ.
  { revert t. induction es1 as [|[d_name n] es1 IH]; intros t; cbn [app readdir_loop]; [done|].
    destruct (is_hidden d_name); [done|].
    destruct n; try done; rewrite outcome_bind_assoc; by apply outcome_bind_ext. }
  split; [done|]. split.
  - intros e He. by rewrite Happ, He.
  - intros He. by rewrite Happ, He.
Qed.

(** ** The node of a directory *)

(** X8: [add_directory] on the end iterator of an empty tree, or on a node of
    the tree, returns the next free index; the new node holds the count 0 and
    the name of the directory, has the given parent and no children, and is
    the last child of its parent, or the root when there is no parent; the
    data, the parent and the children of the other nodes stay as they are. *)
Theorem add_directory_lookup t parent dirname t' it :
  add_directory t parent dirname = Ok (t', it) →
  (∀ p, parent = Some p → (p < length (tab t))%nat) →
  (parent = None → tab t = []) →
  it = length (tab t)
  ∧ tree_ref t' it = Some (mk_dir 0 dirname)
  ∧ tree_up t' it = parent
  ∧ tree_down t' it = []
  ∧ (∀ p, parent = Some p → tree_down t' p = tree_down t p ++ [it])
  ∧ (∀ j, (j < length (tab t))%nat →
       tree_ref t' j = tree_ref t j ∧ tree_up t' j = tree_up t j
       ∧ (parent ≠ Some j → tree_down t' j = tree_down t j))
  ∧ (parent = None → root t' = Some it).
Proof.
  intros Hadd Hp Hroot.
  destruct (add_directory_tab _ _ _ _ _ Hadd Hp) as (-> & Htab & _ & Hr & _).
  assert (length (attach parent (length (tab t)) (tab t)) = length (tab t)) as Hlen.
  { destruct parent; simpl; [apply length_alter|done]. }
  unfold tree_ref, tree_up, tree_down. rewrite Htab.
  split_and!; try done.
  - by rewrite lookup_app_r, Hlen, Nat.sub_diag by lia.
  - by rewrite lookup_app_r, Hlen, Nat.sub_diag by lia.
  - by rewrite lookup_app_r, Hlen, Nat.sub_diag by lia.
  - intros p ->. specialize (Hp p eq_refl). simpl.
    rewrite lookup_app_l by (by rewrite length_alter).
    rewrite list_lookup_alter_eq. apply lookup_lt_is_Some in Hp as [nd ->]. done.
  - intros j Hj. rewrite lookup_app_l by lia.
    destruct parent as [p|]; simpl; [|done].
    destruct (decide (p = j)) as [->|Hne].
    + rewrite list_lookup_alter_eq. apply lookup_lt_is_Some in Hj as [nd ->].
      by split_and!.
    + by rewrite list_lookup_alter_ne by done.
  - intros ->. done.
Qed.

Lemma add_directory_lookup_witness :
  ∃ t' it, add_directory example_tree (Some 0%nat) "root/sub" = Ok (t', it)
           ∧ it = 1%nat
           ∧ tree_ref t' it = Some (mk_dir 0 "root/sub")
           ∧ tree_up t' it = Some 0%nat
           ∧ tree_down t' 0 = [1%nat].
Proof.
  eexists _, _. split; [by vm_compute|].
  destruct (add_directory_lookup example_tree (Some 0%nat) "root/sub" _ _ eq_refl)
    as (H1 & H2 & H3 & _ & H5 & _).
  - intros p [= <-]. simpl. lia.
  - done.
  - split_and!; [exact H1|exact H2|exact H3|exact (H5 0%nat eq_refl)].
Defined.

(** ** The tree that the scanner builds *)

Lemma repr_children_up t s : ∀ p j c,
  repr t p s → j ∈ preorder s → c ∈ tree_down t j → tree_up t c = Some j.
Proof.
  induction s as [i ks IH] using rose_ind. intros p j c.
  rewrite repr_inv. intros (Hi & Hup & Hdown & Hks). cbn [preorder].
  rewrite Forall_forall in IH, Hks.
  intros [->|Hj]%elem_of_cons Hc.
  - rewrite Hdown in Hc. apply list_elem_of_fmap in Hc as (k & -> & Hk).
    specialize (Hks k Hk). destruct k as [ck cks]. by apply repr_inv in Hks as (_ & ? & _).
  - apply elem_of_concat_map in Hj as (k & Hk & Hj). eauto.
Qed.

Lemma number_parent {A} (r : rose A) : ∀ t start p c,
  repr t p (number start r) →
  c ∈ preorder (number start r) →
  c = start ∨ ∃ q, tree_up t c = Some q ∧ (start ≤ q < c)%nat ∧ c ∈ tree_down t q.
Proof.
  induction r as [a ks IH] using rose_ind. intros t start p c.
  rewrite number_unfold, repr_inv. intros (Hi & Hup & Hdown & Hks). cbn [preorder].
  intros [->|Hc]%elem_of_cons; [by left|right].
  assert (∀ st, (start < st)%nat →
            Forall (repr t (Some start)) (number_forest st ks) →
            (∀ k, k ∈ number_forest st ks → rlabel k ∈ tree_down t start) →
            c ∈ concat (map preorder (number_forest st ks)) →
            ∃ q, tree_up t c = Some q ∧ (start ≤ q < c)%nat ∧ c ∈ tree_down t q) as Hforest.
  { clear Hks Hc Hdown. induction IH as [|k ks Hk _ IHks]; intros st Hst Hks Hin Hc; simpl in *.
    { by apply elem_of_nil in Hc. }
    apply Forall_cons in Hks as [Hrk Hks].
    apply elem_of_app in Hc as [Hc|Hc].
    - destruct (Hk t st (Some start) c Hrk Hc) as [->|(q & Hq & Hlt & Hcq)].
      + exists start. split_and!; [|lia|lia|].
        * destruct k as [b bs]. rewrite number_unfold in Hrk.
          by apply repr_inv in Hrk as (_ & ? & _).
        * rewrite <-(rlabel_number st k). apply Hin. left.
      + exists q. split_and!; [done|lia|lia|done].
    - apply (IHks (st + rsize k)%nat); [lia|done| |done].
      intros k' Hk'. apply Hin. by right. }
  apply (Hforest (S start)); [lia|done| |done].
  intros k Hk. rewrite Hdown. by apply list_elem_of_fmap_2.
Qed.

(** X9: after a successful scan the root is the node 0, which has no parent;
    every other node has a parent with a smaller index and is one of the
    children of that parent; every child of a node has that node as its parent
    and a bigger index; every count fits 32 bits; the arena holds one tree made
    of all its nodes; and the tree is still locked, with the capacity
    [MAX_DIRECTORY]. *)
Theorem scan_tree_shape fs str t :
  scan_directories fs directories0 None str = Ok t →
  root t = Some 0%nat ∧ tree_up t 0 = None ∧ (0 < length (tab t))%nat
  ∧ (∀ c, (0 < c < length (tab t))%nat →
       ∃ p, tree_up t c = Some p ∧ (p < c)%nat ∧ c ∈ tree_down t p)
  ∧ (∀ p c, c ∈ tree_down t p → tree_up t c = Some p ∧ (p < c < length (tab t))%nat)
  ∧ Forall (λ nd, 0 ≤ nlines (data nd) ≤ UINT_MAX) (tab t)
  ∧ arena_wf t
  ∧ lock t = true ∧ capacity t = MAX_DIRECTORY.
Proof.
  intros Hscan. pose proof Hscan as (Htab & Hroot & Hlock)%scan_directories0.
  assert (repr t None (number 0 (dir_tree str fs))) as Hrepr.
  { apply (arena_of_repr _ t 0%nat None [] []); [|done]. by rewrite app_nil_r. }
  assert (preorder (number 0 (dir_tree str fs)) = seq 0 (length (tab t))) as Hpre.
  { by rewrite preorder_number, Htab, arena_of_length. }
  assert (∀ c, (c < length (tab t))%nat → c ∈ preorder (number 0 (dir_tree str fs))) as Hin.
  { intros c Hc. rewrite Hpre. apply elem_of_seq. lia. }
  assert (0 < length (tab t))%nat as Hpos.
  { rewrite Htab, arena_of_length. apply rsize_pos. }
  assert (∀ c, (0 < c < length (tab t))%nat →
            ∃ p, tree_up t c = Some p ∧ (p < c)%nat ∧ c ∈ tree_down t p) as Hparent.
  { intros c Hc. destruct (number_parent _ t 0%nat None c Hrepr) as [->|(q & ? & ? & ?)];
      [apply Hin; lia|lia|]. exists q. split_and!; [done|lia|done]. }
  split_and!; try done.
  - destruct (dir_tree str fs) as [d ks]. rewrite number_unfold in Hrepr.
    by apply repr_inv in Hrepr as (_ & ? & _).
  - intros p c Hc.
    assert (p < length (tab t))%nat as Hp.
    { unfold tree_down in Hc. destruct (tab t !! p) as [nd|] eqn:Hnd.
      - by eapply lookup_lt_Some.
      - by apply elem_of_nil in Hc. }
    assert (tree_up t c = Some p) as Hup.
    { eapply repr_children_up; [exact Hrepr|by apply Hin|done]. }
    assert (c < length (tab t))%nat as Hc'.
    { unfold tree_up in Hup. destruct (tab t !! c) as [nd|] eqn:Hnd; [|done].
      by eapply lookup_lt_Some. }
    split; [done|]. split; [|done].
    destruct (decide (c = 0)%nat) as [->|Hc0].
    + destruct (dir_tree str fs) as [d ks]. rewrite number_unfold in Hrepr.
      apply repr_inv in Hrepr as (_ & Hup0 & _). congruence.
    + destruct (Hparent c) as (q & Hq & Hlt & _); [lia|]. congruence.
  - apply Forall_forall. intros nd Hnd.
    assert (data nd ∈ map data (tab t)) as Hd by (by apply list_elem_of_fmap_2).
    rewrite Htab, arena_of_data in Hd. apply list_elem_of_fmap in Hd as (d & -> & _).
    unfold scanned_dir. cbn [nlines]. pose proof (to_uint_range (own_lines_of d)). lia.
  - by apply (arena_of_wf t (dir_tree str fs)).
  - destruct (scan_directories_tab fs _ _ _ _ Hscan) as (_ & _ & _ & Hcap); [done|].
    by destruct Hcap.
Qed.

Lemma scan_tree_shape_witness :
  ∃ t, scan_directories example_fs directories0 None "root" = Ok t
       ∧ root t = Some 0%nat ∧ tree_up t 0 = None ∧ (0 < length (tab t))%nat
       ∧ (∀ c, (0 < c < length (tab t))%nat →
            ∃ p, tree_up t c = Some p ∧ (p < c)%nat ∧ c ∈ tree_down t p)
       ∧ (∀ p c, c ∈ tree_down t p → tree_up t c = Some p ∧ (p < c < length (tab t))%nat)
       ∧ Forall (λ nd, 0 ≤ nlines (data nd) ≤ UINT_MAX) (tab t)
       ∧ arena_wf t
       ∧ lock t = true ∧ capacity t = MAX_DIRECTORY.
Proof.
  eexists. split; [vm_compute; reflexivity|].
  apply (scan_tree_shape example_fs "root"). vm_compute. reflexivity.
Defined.

Lemma preorder_subtrees {A} (s : rose A) : preorder s = map rlabel (subtrees s).
Proof.
  induction s as [a ks IH] using rose_ind. rewrite subtrees_unfold. cbn [preorder map rlabel].
  f_equal. induction IH as [|k ks Hk _ IHks]; [done|]. cbn [map concat].
  by rewrite map_app, Hk, IHks.
Qed.

Lemma subtrees_length {A} (r : rose A) : length (subtrees r) = rsize r.
Proof. unfold rsize. by rewrite preorder_subtrees, length_map. Qed.


Lemma subtrees_head {A} (r : rose A) : subtrees r !! 0%nat = Some r.
Proof. by destruct r. Qed.


Lemma arena_of_head start p r :
  ∃ nd, arena_of start p r !! 0%nat = Some nd ∧ parent nd = p.
Proof. destruct r. rewrite arena_of_unfold. by eexists. Qed.


Lemma arena_forest_kids start ks :
  Forall kids_spec ks →
  ∀ st j nd,
    arena_forest st (Some start) ks !! j = Some nd →
    (parent nd = Some start ∧ ∃ k, k ∈ ks ∧ concat (map subtrees ks) !! j = Some k)
    ∨ ∃ q sq sj, parent nd = Some (st + q)%nat ∧ (q < j)%nat
                 ∧ concat (map subtrees ks) !! q = Some sq
                 ∧ concat (map subtrees ks) !! j = Some sj
                 ∧ sj ∈ rkids sq.
Proof.
  induction 1 as [|k ks Hk _ IH]; intros st j nd; cbn [map concat arena_forest].
  { by rewrite lookup_nil. }
  pose proof (arena_of_length st (Some start) k) as Hlen.
  pose proof (subtrees_length k) as Hlen'.
  destruct (decide (j < rsize k)%nat) as [Hj|Hj].
  - rewrite lookup_app_l by lia. intros Hnd. destruct j as [|j].
    + left. destruct (arena_of_head st (Some start) k) as (nd0 & Hnd0 & Hp0).
      split; [congruence|]. exists k. split; [left|].
      rewrite lookup_app_l by lia. apply subtrees_head.
    + right. destruct (Hk st (Some start) (S j) nd Hnd) as (q & sq & sj & ? & ? & ? & ? & ?); [lia|].
      exists q, sq, sj. rewrite !lookup_app_l by lia. done.
  - rewrite lookup_app_r by lia. rewrite Hlen. intros Hnd.
    destruct (IH _ _ _ Hnd) as [[Hp (k' & Hk' & Hsub)]|(q & sq & sj & Hq & Hlt & Hsq & Hsj & Hin)].
    + left. split; [done|]. exists k'. split; [by right|].
      rewrite lookup_app_r by lia. by rewrite Hlen'.
    + right. exists (rsize k + q)%nat, sq, sj. split_and!; [|lia| | |done].
      * rewrite Hq. f_equal. lia.
      * rewrite lookup_app_r by lia. rewrite <-Hsq. f_equal. lia.
      * rewrite lookup_app_r by lia. by rewrite Hlen'.
Qed.


Lemma arena_of_kids r : kids_spec r.
Proof.
  induction r as [d ks IH] using rose_ind. intros start p j nd.
  rewrite arena_of_unfold, subtrees_unfold. destruct j as [|j]; [lia|].
  change ((?x :: ?l) !! S j) with (l !! j). intros Hnd _.
  destruct (arena_forest_kids start ks IH _ _ _ Hnd)
    as [[Hp (k & Hk & Hsub)]|(q & sq & sj & Hq & Hlt & Hsq & Hsj & Hin)].
  - exists 0%nat, (Rose d ks), k. split_and!; [by rewrite Nat.add_0_r|lia|done|done|done].
  - exists (S q), sq, sj. split_and!; [|lia|done|done|done].
    rewrite Hq. f_equal. lia.
Qed.


Lemma subdirs_entry dirname entries e :
  e ∈ subdirs dirname entries →
  ∃ d_name, (d_name, e.2) ∈ entries ∧ is_hidden d_name = false ∧ S_ISDIR e.2 = true
            ∧ e.1 = dirname +:+ "/" +:+ d_name.
Proof.
  induction entries as [|[d_name n] entries IH]; simpl; [by intros ?%elem_of_nil|].
  destruct (is_hidden d_name) eqn:Hhid; simpl.
  { intros (d & ? & ?)%IH. exists d. split; [by right|done]. }
  destruct (S_ISDIR n) eqn:Hdir.
  - intros [->|(d & ? & ?)%IH]%elem_of_cons.
    + exists d_name. split; [left|done].
    + exists d. split; [by right|done].
  - intros (d & ? & ?)%IH. exists d. split; [by right|done].
Qed.


Lemma dir_tree_kids d k :
  k ∈ rkids (dir_tree d.1 d.2) → child_entry d (rlabel k) ∧ k = dir_tree (rlabel k).1 (rlabel k).2.
Proof.
  rewrite dir_tree_unfold. cbn [rkids]. destruct d as [dirname n]. cbn [fst snd].
  destruct n as [| | | |entries]; cbn [opendir fmap option_fmap option_map default id];
    try (by intros ?%elem_of_nil).
  unfold dir_forest. intros (e & -> & He)%list_elem_of_fmap.
  rewrite dir_tree_unfold. cbn [rlabel fst snd]. split; [|by rewrite <-dir_tree_unfold].
  destruct (subdirs_entry _ _ _ He) as (d_name & Hin & Hhid & Hdir & Hpath).
  exists entries, d_name. done.
Qed.


(** X10: after a successful scan the name of the root is the argument of the
    program; every other node is the node of an entry of the directory of
    its parent, an entry that is not hidden and is a directory, and its name
    is the name of its parent, a slash, and the name of that entry. *)
Theorem scan_names fs str t :
  scan_directories fs directories0 None str = Ok t →
  name (node_data t 0) = str
  ∧ visited str fs !! 0%nat = Some (str, fs)
  ∧ ∀ c p, tree_up t c = Some p →
      ∃ dirname entries d_name n,
        visited str fs !! p = Some (dirname, Directory entries)
        ∧ visited str fs !! c = Some (dirname +:+ "/" +:+ d_name, n)
        ∧ (d_name, n) ∈ entries
        ∧ is_hidden d_name = false
        ∧ S_ISDIR n = true
        ∧ name (node_data t p) = dirname
        ∧ name (node_data t c) = dirname +:+ "/" +:+ d_name.
Proof.
  intros (Htab & _ & _)%scan_directories0.
  assert (∀ j, name (node_data t j) = default ""%string (fst <$> visited str fs !! j)) as Hname.
  { intros j. unfold node_data, tree_ref, visited.
    pose proof (f_equal (λ l, l !! j) (arena_of_data (dir_tree str fs) 0 None)) as Hd.
    cbn beta in Hd. rewrite !list_lookup_fmap, <-Htab in Hd.
    destruct (tab t !! j) as [nd|], (preorder (dir_tree str fs) !! j) as [d|]; try done.
    simpl in *. by injection Hd as ->. }
  assert (visited str fs !! 0%nat = Some (str, fs)) as H0.
  { unfold visited. by rewrite dir_tree_unfold. }
  split_and!; [by rewrite Hname, H0|done|].
  intros c p Hup. unfold tree_up in Hup.
  destruct (tab t !! c) as [nd|] eqn:Hnd; [|done]. simpl in Hup.
  rewrite Htab in Hnd.
  destruct c as [|c].
  { destruct (arena_of_head 0 None (dir_tree str fs)) as (nd0 & Hnd0 & Hp0). congruence. }
  destruct (arena_of_kids _ _ _ _ _ Hnd) as (q & sq & sj & Hq & _ & Hsq & Hsj & Hin); [lia|].
  assert (q = p) as -> by (simpl in Hq; congruence).
  rewrite subtrees_dir_tree in Hsq, Hsj.
  rewrite list_lookup_fmap in Hsq, Hsj. fold (visited str fs) in Hsq, Hsj.
  destruct (visited str fs !! p) as [dp|] eqn:Hvp; [|done].
  destruct (visited str fs !! S c) as [dc|] eqn:Hvc; [|done].
  simpl in Hsq, Hsj. injection Hsq as <-. injection Hsj as <-.
  apply dir_tree_kids in Hin as [(entries & d_name & Hdir & Hentry & Hhid & Hisdir & Hpath) _].
  rewrite dir_tree_unfold in *. cbn [rlabel] in *.
  destruct dp as [dirname np], dc as [cname nc]. cbn [fst snd] in *. subst np cname.
  exists dirname, entries, d_name, nc.
  split_and!; try done.
  - by rewrite Hname, Hvp.
  - by rewrite Hname, Hvc.
Qed.


Lemma scan_names_witness :
  ∃ t, scan_directories example_fs directories0 None "root" = Ok t
       ∧ name (node_data t 0) = "root"%string
       ∧ visited "root" example_fs !! 0%nat = Some ("root"%string, example_fs)
       ∧ ∀ c p, tree_up t c = Some p →
           ∃ dirname entries d_name n,
             visited "root" example_fs !! p = Some (dirname, Directory entries)
             ∧ visited "root" example_fs !! c = Some (dirname +:+ "/" +:+ d_name, n)
             ∧ (d_name, n) ∈ entries
             ∧ is_hidden d_name = false
             ∧ S_ISDIR n = true
             ∧ name (node_data t p) = dirname
             ∧ name (node_data t c) = dirname +:+ "/" +:+ d_name.
Proof.
  eexists. split; [vm_compute; reflexivity|].
  apply (scan_names example_fs "root"). vm_compute. reflexivity.
Defined.


(** ** The argument of the program and the runs that succeed *)

(** X11: the node of a directory is added before the directory is
    opened, and the argument of the program is opened without a [stat]: a
    path that cannot be opened as a directory ends the scan with the message
    for a directory, which names the path, and with the exit code 1, when the
    tree has room for one more node; on a locked tree without room the failure
    of the tree comes first.  In [main] the tree has room, so that an argument
    that is not a directory always ends with the exit code 1. *)
Theorem unopenable_directory n t parent dirname :
  opendir n = None →
  ((N.of_nat (length (tab t)) < capacity t)%N ∨ lock t = false →
   scan_directories n t parent dirname = Exit (DirectoryOpenError dirname))
  ∧ (lock t = true → (capacity t ≤ N.of_nat (length (tab t)))%N →
     scan_directories n t parent dirname = Abort)
  ∧ (∀ a rest, main (a :: dirname :: rest) n = Some (Exit (DirectoryOpenError dirname)))
  ∧ exit_code (DirectoryOpenError dirname) = 1.
Proof.
  intros Hdir. split_and!; [| |intros a rest; unfold main|done];
    rewrite scan_directories_unfold, Hdir;
    unfold add_directory, tree_set_root, tree_insert_child, alloc_node.
  - intros [Hroom|Hlock].
    + destruct parent; by rewrite decide_True by done.
    + rewrite Hlock. destruct parent; by case_decide.
  - intros Hlock Hfull. destruct parent; rewrite decide_False by lia; by rewrite Hlock.
  - done.
Qed.

Lemma unopenable_directory_witness :
  ((N.of_nat (length (tab full_tree)) < capacity full_tree)%N ∨ lock full_tree = false →
   scan_directories (RegFile ten_lines) full_tree (Some 0%nat) "root/main.c"
   = Exit (DirectoryOpenError "root/main.c"))
  ∧ (lock full_tree = true → (capacity full_tree ≤ N.of_nat (length (tab full_tree)))%N →
     scan_directories (RegFile ten_lines) full_tree (Some 0%nat) "root/main.c" = Abort)
  ∧ (∀ a rest, main (a :: "root/main.c"%string :: rest) (RegFile ten_lines)
               = Some (Exit (DirectoryOpenError "root/main.c")))
  ∧ exit_code (DirectoryOpenError "root/main.c") = 1.
Proof.
  apply (unopenable_directory (RegFile ten_lines) full_tree (Some 0%nat) "root/main.c").
  reflexivity.
Defined.

(** X12: a run with a directory argument succeeds exactly when the walk in the
    order of [readdir] meets no failure and the scanner enters at most
    [MAX_DIRECTORY] directories. *)
Theorem main_succeeds a str rest fs :
  (∃ t', main (a :: str :: rest) fs = Some (Ok t'))
  ↔ first_error str fs = None ∧ (N.of_nat (length (visited str fs)) ≤ MAX_DIRECTORY)%N.
Proof.
  unfold main. fold directories0. unfold tree_it_end.
  pose proof (scan_directories_first_error fs directories0 None str) as Hagree.
  split.
  - intros [t' Hmain].
    destruct (scan_directories fs directories0 None str) as [t| |] eqn:Hscan; try done.
    split; [exact Hagree|]. by apply scan_directories_size in Hscan as [_ ?].
  - intros [Herr Hsize].
    destruct (scan_directories fs directories0 None str) as [t|e|] eqn:Hscan.
    + apply scan_consolidate in Hscan as (_ & t' & -> & _). by exists t'.
    + simpl in Hagree. congruence.
    + exfalso. revert Hscan. apply scan_directories_no_abort; [done|done|].
      unfold visited in Hsize. unfold rsize. simpl. lia.
Qed.

Lemma main_succeeds_witness :
  ∃ t', main ["prog"; "root"]%string example_fs = Some (Ok t').
Proof.
  apply (main_succeeds "prog" "root" [] example_fs). split; [reflexivity|].
  vm_compute. discriminate.
Defined.

(** ** The consolidation of any tree *)

(** X13: on every arena that holds one tree made of all its nodes, the loop of
    [consolidate_directories] ends, and it handles every node once, each node
    after all the nodes below it and the root last: the result is the body of
    the loop applied to the nodes in post-order. *)
Theorem consolidate_postorder t s :
  repr t None s → root t = Some (rlabel s) → preorder s ≡ₚ seq 0 (length (tab t)) →
  consolidate_directories t = Some (foldl consolidate_node t (postorder s))
  ∧ postorder s ≡ₚ seq 0 (length (tab t))
  ∧ last (postorder s) = root t.
Proof.
  intros Hrepr Hroot Hperm. split_and!.
  - apply consolidate_directories_postorder; try done.
    + rewrite Hperm. apply NoDup_seq.
    + unfold rsize. by rewrite Hperm, length_seq.
  - by rewrite postorder_preorder.
  - rewrite postorder_unfold, last_snoc. done.
Qed.

Lemma consolidate_postorder_witness :
  consolidate_directories scanned_tree
  = Some (foldl consolidate_node scanned_tree (postorder scanned_shape))
  ∧ postorder scanned_shape ≡ₚ seq 0 (length (tab scanned_tree))
  ∧ last (postorder scanned_shape) = root scanned_tree.
Proof.
  apply (consolidate_postorder scanned_tree scanned_shape).
  - repeat (econstructor; try reflexivity).
  - reflexivity.
  - reflexivity.
Defined.

(** X14: the consolidation of such an arena keeps the number of nodes, the
    root, the capacity and the lock, and for every node the name, the parent
    and, up to their order, the children; the result is again one tree made of
    all the nodes. *)
Theorem consolidate_keeps_shape t :
  arena_wf t →
  ∃ t', consolidate_directories t = Some t'
        ∧ length (tab t') = length (tab t)
        ∧ root t' = root t ∧ capacity t' = capacity t ∧ lock t' = lock t
        ∧ (∀ j nd, tab t !! j = Some nd →
             ∃ nd', tab t' !! j = Some nd'
                    ∧ name (data nd') = name (data nd)
                    ∧ parent nd' = parent nd
                    ∧ child nd' ≡ₚ child nd)
        ∧ arena_wf t'.
Proof.
  intros (t' & Hcons & Htab & Hroot & Hcap & Hlock & Hwf)%consolidate_directories_wf.
  exists t'. split_and!; try done.
  - by rewrite Htab, length_map.
  - intros j nd Hnd. exists (consolidated t' nd). rewrite Htab, list_lookup_fmap, Hnd.
    split_and!; try done. rewrite consolidated_child. apply stable_sort_perm.
Qed.

Lemma consolidate_keeps_shape_witness :
  ∃ t', consolidate_directories scanned_tree = Some t'
        ∧ length (tab t') = length (tab scanned_tree)
        ∧ root t' = root scanned_tree ∧ capacity t' = capacity scanned_tree
        ∧ lock t' = lock scanned_tree
        ∧ (∀ j nd, tab scanned_tree !! j = Some nd →
             ∃ nd', tab t' !! j = Some nd'
                    ∧ name (data nd') = name (data nd)
                    ∧ parent nd' = parent nd
                    ∧ child nd' ≡ₚ child nd)
        ∧ arena_wf t'.
Proof.
  apply (consolidate_keeps_shape scanned_tree).
  exists scanned_shape. split_and!.
  - repeat (econstructor; try reflexivity).
  - reflexivity.
  - reflexivity.
Defined.

Lemma subtree_sum_unfold t i ks :
  subtree_sum t (Rose i ks) = nlines_at t i + zsum (map (subtree_sum t) ks).
Proof.
  unfold subtree_sum. cbn [preorder map].
  change (zsum (?x :: ?l)) with (x + zsum l). f_equal.
  induction ks as [|k ks IH]; [done|]. cbn [map concat].
  change (zsum (?x :: ?l)) with (x + zsum l). by rewrite map_app, zsum_app, IH.
Qed.

Lemma zsum_nonneg l : Forall (λ x, 0 ≤ x) l → 0 ≤ zsum l.
Proof. induction 1; simpl; lia. Qed.

Lemma zsum_elem_le l x : Forall (λ x, 0 ≤ x) l → x ∈ l → x ≤ zsum l.
Proof.
  induction 1 as [|y l Hy Hl IH]; [by intros ?%elem_of_nil|].
  pose proof (zsum_nonneg l Hl). simpl. intros [->|Hx]%elem_of_cons; [lia|]. specialize (IH Hx). lia.
Qed.

Lemma zsum_perm l1 l2 : l1 ≡ₚ l2 → zsum l1 = zsum l2.
Proof. induction 1; simpl; lia. Qed.

Lemma repr_subtrees t s : ∀ p k,
  repr t p s → k ∈ subtrees s → ∃ q, repr t q k.
Proof.
  induction s as [i ks IH] using rose_ind. intros p k Hrepr.
  rewrite subtrees_unfold. intros [->|Hk]%elem_of_cons; [eauto|].
  apply repr_inv in Hrepr as (_ & _ & _ & Hks).
  apply elem_of_concat_map in Hk as (k' & Hk' & Hk).
  rewrite Forall_forall in IH, Hks. eauto.
Qed.

Lemma subtrees_trans {A} (s : rose A) : ∀ k k',
  k ∈ subtrees s → k' ∈ subtrees k → k' ∈ subtrees s.
Proof.
  induction s as [a ks IH] using rose_ind. intros k k'.
  rewrite !subtrees_unfold. intros [->|Hk]%elem_of_cons Hk'.
  - by rewrite subtrees_unfold in Hk'.
  - right. apply elem_of_concat_map in Hk as (k0 & Hk0 & Hk).
    apply elem_of_concat_map. exists k0. split; [done|].
    rewrite Forall_forall in IH. eauto.
Qed.

Section subtree_sums.
Context (t t' : tree_t).
Hypothesis Htab' : tab t' = map (consolidated t') (tab t).
Hypothesis Hrange : Forall (λ nd, 0 ≤ nlines (data nd) ≤ UINT_MAX) (tab t).

Lemma nlines_at_range j : 0 ≤ nlines_at t j ≤ UINT_MAX.
Proof.
  unfold nlines_at, node_data, tree_ref. destruct (tab t !! j) as [nd|] eqn:Hnd; simpl.
  - rewrite Forall_forall in Hrange. apply Hrange. by eapply list_elem_of_lookup_2.
  - unfold UINT_MAX. lia.
Qed.

Lemma subtree_sum_nonneg s : 0 ≤ subtree_sum t s.
Proof.
  unfold subtree_sum. apply zsum_nonneg, Forall_forall.
  intros x (j & -> & _)%list_elem_of_fmap. apply nlines_at_range.
Qed.

Lemma subtree_sum_le s : ∀ k, k ∈ subtrees s → subtree_sum t k ≤ subtree_sum t s.
Proof.
  induction s as [i ks IH] using rose_ind. intros k.
  rewrite subtrees_unfold. intros [->|Hk]%elem_of_cons; [done|].
  apply elem_of_concat_map in Hk as (k0 & Hk0 & Hk).
  rewrite Forall_forall in IH. specialize (IH k0 Hk0 k Hk).
  rewrite subtree_sum_unfold. pose proof (nlines_at_range i).
  assert (subtree_sum t k0 ≤ zsum (map (subtree_sum t) ks)).
  { apply zsum_elem_le; [|by apply list_elem_of_fmap_2].
    apply Forall_forall. intros x (k1 & -> & _)%list_elem_of_fmap. apply subtree_sum_nonneg. }
  lia.
Qed.

Lemma consolidated_sum s : ∀ p,
  repr t p s → nlines_at t' (rlabel s) = to_uint (subtree_sum t s).
Proof.
  induction s as [i ks IH] using rose_ind. intros p.
  rewrite repr_inv. intros (Hi & Hup & Hdown & Hks). cbn [rlabel].
  rewrite (nlines_at_consolidated t t' Htab'), Hdown, subtree_sum_unfold, map_map.
  pose proof (nlines_at_range i).
  rewrite <-(to_uint_small (nlines_at t i)) at 1 by lia.
  rewrite <-foldl_uint_add, map_map. f_equal.
  apply map_ext_in. intros k Hk%list_elem_of_In.
  rewrite Forall_forall in IH, Hks. eauto.
Qed.

End subtree_sums.

Lemma subtree_sum_all t s :
  preorder s ≡ₚ seq 0 (length (tab t)) →
  subtree_sum t s = zsum (map (λ nd, nlines (data nd)) (tab t)).
Proof.
  intros Hperm. unfold subtree_sum. rewrite <-map_nlines_at.
  apply zsum_perm. by rewrite Hperm.
Qed.

(** X15: when every count fits 32 bits, the consolidation leaves at every node
    the sum of the counts that the node and all the nodes below it had before,
    reduced modulo 2^32; the root ends with the sum of all the counts of the
    tree, reduced modulo 2^32. *)
Theorem consolidate_sums t s :
  repr t None s → root t = Some (rlabel s) → preorder s ≡ₚ seq 0 (length (tab t)) →
  Forall (λ nd, 0 ≤ nlines (data nd) ≤ UINT_MAX) (tab t) →
  ∃ t', consolidate_directories t = Some t'
        ∧ (∀ k, k ∈ subtrees s →
             nlines_at t' (rlabel k) = to_uint (zsum (map (nlines_at t) (preorder k))))
        ∧ nlines_at t' (rlabel s) = to_uint (zsum (map (λ nd, nlines (data nd)) (tab t))).
Proof.
  intros Hrepr Hroot Hperm Hrange.
  destruct (consolidate_directories_wf t) as (t' & Hcons & Htab' & _); [by exists s|].
  exists t'. split_and!; [done| |].
  - intros k [q Hk]%(repr_subtrees t s None); [|done].
    by apply (consolidated_sum t t' Htab' Hrange k q).
  - rewrite <-(subtree_sum_all t s Hperm).
    by apply (consolidated_sum t t' Htab' Hrange s None).
Qed.

Lemma consolidate_sums_witness :
  ∃ t', consolidate_directories scanned_tree = Some t'
        ∧ (∀ k, k ∈ subtrees scanned_shape →
             nlines_at t' (rlabel k)
             = to_uint (zsum (map (nlines_at scanned_tree) (preorder k))))
        ∧ nlines_at t' (rlabel scanned_shape)
          = to_uint (zsum (map (λ nd, nlines (data nd)) (tab scanned_tree))).
Proof.
  apply (consolidate_sums scanned_tree scanned_shape).
  - repeat (econstructor; try reflexivity).
  - reflexivity.
  - reflexivity.
  - repeat constructor; vm_compute; discriminate.
Defined.

(** X16: when moreover the sum of all the counts is at most [UINT_MAX], nothing
    wraps around: every node ends with the exact sum of the counts below it,
    no child ends with a bigger count than its parent, and no node with a
    bigger count than the root. *)
Theorem consolidate_monotone t s :
  repr t None s → root t = Some (rlabel s) → preorder s ≡ₚ seq 0 (length (tab t)) →
  Forall (λ nd, 0 ≤ nlines (data nd) ≤ UINT_MAX) (tab t) →
  zsum (map (λ nd, nlines (data nd)) (tab t)) ≤ UINT_MAX →
  ∃ t', consolidate_directories t = Some t'
        ∧ (∀ k, k ∈ subtrees s →
             nlines_at t' (rlabel k) = zsum (map (nlines_at t) (preorder k)))
        ∧ (∀ p c, c ∈ tree_down t' p → nlines_at t' c ≤ nlines_at t' p)
        ∧ (∀ j, nlines_at t' j ≤ nlines_at t' (rlabel s)).
Proof.
  intros Hrepr Hroot Hperm Hrange Hsum.
  destruct (consolidate_directories_wf t) as (t' & Hcons & Htab' & _); [by exists s|].
  exists t'.
  assert (∀ k, k ∈ subtrees s → nlines_at t' (rlabel k) = subtree_sum t k) as Hexact.
  { intros k Hk. destruct (repr_subtrees t s None k Hrepr Hk) as [q Hq].
    rewrite (consolidated_sum t t' Htab' Hrange k q Hq).
    pose proof (subtree_sum_nonneg t Hrange k).
    pose proof (subtree_sum_le t Hrange s k Hk).
    rewrite (subtree_sum_all t s Hperm) in *. apply to_uint_small. lia. }
  assert (∀ j, (j < length (tab t))%nat → ∃ k, k ∈ subtrees s ∧ rlabel k = j) as Hsub.
  { intros j Hj. assert (j ∈ preorder s) as Hin by (rewrite Hperm; apply elem_of_seq; lia).
    rewrite preorder_subtrees in Hin. apply list_elem_of_fmap in Hin as (k & -> & Hk). eauto. }
  assert (∀ j, (length (tab t) ≤ j)%nat → nlines_at t' j = 0) as Hout.
  { intros j Hj. unfold nlines_at, node_data, tree_ref.
    rewrite Htab', list_lookup_fmap, lookup_ge_None_2 by done. done. }
  split_and!; [done|exact Hexact| |].
  - intros p c Hc.
    assert (p < length (tab t))%nat as Hp.
    { unfold tree_down in Hc. destruct (tab t' !! p) as [nd|] eqn:Hnd.
      - apply lookup_lt_Some in Hnd. by rewrite Htab', length_map in Hnd.
      - by apply elem_of_nil in Hc. }
    destruct (Hsub p Hp) as (k & Hk & <-).
    assert (c ∈ tree_down t (rlabel k)) as Hc0.
    { unfold tree_down in Hc |- *. rewrite Htab', list_lookup_fmap in Hc.
      destruct (tab t !! rlabel k) as [nd|]; [|done].
      cbn [fmap option_fmap option_map default id] in Hc |- *.
      by rewrite consolidated_child, stable_sort_perm in Hc. }
    destruct (repr_subtrees t s None k Hrepr Hk) as [q Hq].
    destruct k as [i ks]. apply repr_inv in Hq as (_ & _ & Hdown & _). cbn [rlabel] in *.
    rewrite Hdown in Hc0. apply list_elem_of_fmap in Hc0 as (kc & -> & Hkc).
    assert (kc ∈ subtrees (Rose i ks)) as Hkc'.
    { rewrite subtrees_unfold. right. apply elem_of_concat_map. exists kc. split; [done|].
      destruct kc. rewrite subtrees_unfold. left. }
    pose proof (Hexact (Rose i ks) Hk) as Hi_exact. cbn [rlabel] in Hi_exact.
    rewrite Hi_exact, (Hexact kc) by (by eapply subtrees_trans).
    by apply subtree_sum_le.
  - intros j. destruct (decide (j < length (tab t))%nat) as [Hj|Hj].
    + destruct (Hsub j Hj) as (k & Hk & <-). rewrite (Hexact k Hk), (Hexact s).
      * by apply subtree_sum_le.
      * destruct s. rewrite subtrees_unfold. left.
    + rewrite Hout by lia. rewrite (Hexact s).
      * by apply subtree_sum_nonneg.
      * destruct s. rewrite subtrees_unfold. left.
Qed.

Lemma consolidate_monotone_witness :
  ∃ t', consolidate_directories scanned_tree = Some t'
        ∧ (∀ k, k ∈ subtrees scanned_shape →
             nlines_at t' (rlabel k) = zsum (map (nlines_at scanned_tree) (preorder k)))
        ∧ (∀ p c, c ∈ tree_down t' p → nlines_at t' c ≤ nlines_at t' p)
        ∧ (∀ j, nlines_at t' j ≤ nlines_at t' (rlabel scanned_shape)).
Proof.
  apply (consolidate_monotone scanned_tree scanned_shape).
  - repeat (econstructor; try reflexivity).
  - reflexivity.
  - reflexivity.
  - repeat constructor; vm_compute; discriminate.
  - vm_compute. discriminate.
Defined.

(** ** The report *)

Section report.
Context (t : tree_t).

Lemma report_lines_app l1 l2 :
  report_lines t (l1 ++ l2) = report_lines t l1 +:+ report_lines t l2.
Proof.
  induction l1 as [|x l1 IH]; simpl; [by rewrite append_nil|].
  by rewrite IH, append_assoc.
Qed.

Lemma next_right_sibling i p pre s rest f :
  tree_up t i = Some p → tree_down t p = pre ++ i :: s :: rest → i ∉ pre →
  next_right (S f) t i = Some (Some s).
Proof.
  intros Hup Hdown Hi. simpl. unfold right_sibling. rewrite Hup. simpl.
  by rewrite Hdown, next_in_app.
Qed.

Lemma next_right_last i p pre f :
  tree_up t i = Some p → tree_down t p = pre ++ [i] → i ∉ pre →
  next_right (S f) t i = next_right f t p.
Proof.
  intros Hup Hdown Hi. simpl. unfold right_sibling. rewrite Hup. simpl.
  by rewrite Hdown, next_in_app.
Qed.

Lemma depth_from_child i p d :
  tree_up t i = Some p →
  (∀ f, (d < f)%nat → depth_from f t p = Some d) →
  ∀ f, (S d < f)%nat → depth_from f t i = Some (S d).
Proof.
  intros Hup Hp f Hf. destruct f as [|f]; [lia|]. simpl. rewrite Hup, Hp by lia. done.
Qed.

Lemma print_loop_step fuel i out d it :
  tree_depth t i = Some d → tree_next t i = Some it →
  print_loop (S fuel) t (Some i) out
  = print_loop fuel t it (out +:+ print_dir d (node_data t i)).
Proof. intros Hd Hn. simpl. rewrite Hd. simpl. rewrite Hn. done. Qed.

Lemma print_loop_forest i d nxt ks :
  (∀ f, (d < f)%nat → depth_from f t i = Some d) →
  (∀ f, (d < f)%nat → next_right f t i = Some nxt) →
  Forall (report_spec t) ks →
  ∀ k m out pre,
    report_spec t k →
    tree_down t i = pre ++ map rlabel (k :: ks) →
    NoDup (pre ++ map rlabel (k :: ks)) →
    Forall (repr t (Some i)) (k :: ks) →
    Forall (λ k, NoDup (preorder k)) (k :: ks) →
    Forall (λ k, (S d + rsize k ≤ length (tab t))%nat) (k :: ks) →
    print_loop (length (concat (map preorder (k :: ks))) + m) t (Some (rlabel k)) out
    = print_loop m t nxt
        (out +:+ report_lines t (concat (map (preorder_depth (S d)) (k :: ks)))).
Proof.
  intros Hdepth Hnext. induction 1 as [|k2 ks Hk2 _ IH];
    intros k m out pre Hk Hdown Hnd Hrepr Hndk Hsize;
    apply Forall_cons in Hrepr as [Hrk Hrepr];
    apply Forall_cons in Hndk as [Hndk Hndks];
    apply Forall_cons in Hsize as [Hsk Hsize];
    assert (tree_up t (rlabel k) = Some i) as Hup
      by (destruct k; by apply repr_inv in Hrk as (_ & ? & _));
    assert (rlabel k ∉ pre) as Hpre
      by (apply NoDup_app in Hnd as (_ & Hdisj & _); intros Hin;
          apply (Hdisj _ Hin); left);
    cbn [map concat] in *; rewrite length_app, report_lines_app, <-append_assoc.
  - (* the last child *)
    cbn [length report_lines foldr]. rewrite Nat.add_0_r, append_nil_r. fold (rsize k).
    apply (Hk (S d) m out nxt (Some i)); try done.
    + by apply (depth_from_child (rlabel k) i).
    + intros f Hf. destruct f as [|f]; [lia|].
      erewrite next_right_last; [apply Hnext; lia|done|exact Hdown|done].
  - (* a child with a right sibling *)
    fold (rsize k). rewrite <-Nat.add_assoc.
    rewrite (Hk (S d) _ out (Some (rlabel k2)) (Some i)); try done.
    + apply (IH k2 m _ (pre ++ [rlabel k])); try done.
      * by rewrite <-app_assoc.
      * by rewrite <-app_assoc.
    + by apply (depth_from_child (rlabel k) i).
    + intros f Hf. destruct f as [|f]; [lia|].
      eapply next_right_sibling; [done|exact Hdown|done].
Qed.

Lemma rlabels_sublist {A} (ks : list (rose A)) :
  map rlabel ks `sublist_of` concat (map preorder ks).
Proof.
  induction ks as [|[a cs] ks IH]; simpl; [done|].
  constructor. by apply sublist_inserts_l.
Qed.

Lemma NoDup_concat_elem {A} (l : list (list A)) x :
  NoDup (concat l) → x ∈ l → NoDup x.
Proof.
  induction l as [|y l IH]; simpl; [by intros _ ?%elem_of_nil|].
  intros (Hy & _ & Hl)%NoDup_app [->|Hx]%elem_of_cons; auto.
Qed.

Lemma rsize_le_concat {A} (ks : list (rose A)) k :
  k ∈ ks → (rsize k ≤ length (concat (map preorder ks)))%nat.
Proof.
  induction ks as [|k0 ks IH]; [by intros ?%elem_of_nil|].
  cbn [map concat]. rewrite length_app. fold (rsize k0).
  intros [->|Hk]%elem_of_cons; [lia|]. specialize (IH Hk). lia.
Qed.

Lemma print_loop_subtree s : report_spec t s.
Proof.
  induction s as [i ks IH] using rose_ind. intros d m out nxt p Hrepr Hnd Hsize Hdepth Hnext.
  apply repr_inv in Hrepr as (Hi & Hup & Hdown & Hks). cbn [rlabel] in *.
  rewrite rsize_unfold in *. cbn [preorder preorder_depth] in *.
  apply NoDup_cons in Hnd as [Hiks Hnd].
  assert (tree_depth t i = Some d) as Hd by (apply Hdepth; lia).
  change (S ?n + m)%nat with (S (n + m)).
  destruct IH as [|k ks Hk IH].
  - erewrite print_loop_step; [|done|].
    2:{ unfold tree_next. rewrite Hdown. cbn [map]. apply Hnext.
        cbn [map concat length] in Hsize. lia. }
    simpl. by rewrite append_nil_r.
  - erewrite print_loop_step; [|done|].
    2:{ unfold tree_next. rewrite Hdown. done. }
    change (report_lines t ((d, i) :: ?l))
      with (print_dir d (node_data t i) +:+ report_lines t l).
    rewrite <-append_assoc.
    apply (print_loop_forest i d nxt ks Hdepth Hnext IH k m _ []); try done.
    + cbn [app]. pose proof (rlabels_sublist (k :: ks)) as Hsub. by eapply sublist_NoDup.
    + apply Forall_forall. intros k' Hk'.
      eapply NoDup_concat_elem; [exact Hnd|]. by apply list_elem_of_fmap_2.
    + apply Forall_forall. intros k' Hk'.
      pose proof (rsize_le_concat (k :: ks) k' Hk'). lia.
Qed.

Lemma print_result_preorder s :
  repr t None s → root t = Some (rlabel s) → NoDup (preorder s) →
  print_result t = Some (report_lines t (preorder_depth 0 s)).
Proof.
  intros Hrepr Hroot Hnd. unfold print_result, tree_it. rewrite Hroot.
  pose proof (repr_size t None s Hrepr Hnd) as Hsize.
  replace (length (tab t)) with (rsize s + (length (tab t) - rsize s))%nat by lia.
  assert (tree_up t (rlabel s) = None) as Hup.
  { destruct s. by apply repr_inv in Hrepr as (_ & ? & _). }
  rewrite (print_loop_subtree s 0%nat _ "" None None); try done.
  - rewrite append_nil. by destruct (length (tab t) - rsize s)%nat.
  - intros [|f] Hf; [lia|]. simpl. by rewrite Hup.
  - intros [|f] Hf; [lia|]. simpl. unfold right_sibling. by rewrite Hup.
Qed.

End report.

Lemma preorder_depth_nodes {A} (s : rose A) d : map snd (preorder_depth d s) = preorder s.
Proof.
  revert d. induction s as [a ks IH] using rose_ind. intros d.
  cbn [preorder_depth preorder map snd]. f_equal.
  induction IH as [|k ks Hk _ IHks]; [done|]. cbn [map concat].
  by rewrite map_app, Hk, IHks.
Qed.

Lemma tree_depth_preorder t s : ∀ d p,
  repr t p s →
  (d + rsize s ≤ length (tab t))%nat →
  (∀ f, (d < f)%nat → depth_from f t (rlabel s) = Some d) →
  Forall (λ x, tree_depth t x.2 = Some x.1) (preorder_depth d s).
Proof.
  induction s as [i ks IH] using rose_ind. intros d p.
  rewrite repr_inv, rsize_unfold. intros (Hi & Hup & Hdown & Hks) Hsize Hdepth.
  cbn [preorder_depth rlabel] in *. constructor.
  { apply Hdepth. lia. }
  apply Forall_concat, Forall_fmap, Forall_forall. intros k Hk.
  rewrite Forall_forall in IH, Hks. apply (IH k Hk (S d) (Some i)); [by apply Hks| |].
  - pose proof (rsize_le_concat ks k Hk). lia.
  - apply (depth_from_child t (rlabel k) i); [|done].
    specialize (Hks k Hk). destruct k. by apply repr_inv in Hks as (_ & ? & _).
Qed.

(** X17: on every arena that holds one tree, [print_result] ends and writes
    one line for every node: the node before the nodes below it, the children
    in their order, and every line with the depth of its node, which is the
    number of its ancestors. *)
Theorem print_result_report t s :
  repr t None s → root t = Some (rlabel s) → NoDup (preorder s) →
  print_result t = Some (report_lines t (preorder_depth 0 s))
  ∧ map snd (preorder_depth 0 s) = preorder s
  ∧ Forall (λ x, tree_depth t x.2 = Some x.1) (preorder_depth 0 s).
Proof.
  intros Hrepr Hroot Hnd. split_and!.
  - by apply print_result_preorder.
  - apply preorder_depth_nodes.
  - apply (tree_depth_preorder t s 0%nat None); [done| |].
    + by apply (repr_size t None).
    + intros [|f] Hf; [lia|]. simpl.
      destruct s. apply repr_inv in Hrepr as (_ & Hup & _). simpl in *. by rewrite Hup.
Qed.

Lemma print_result_report_witness :
  print_result scanned_tree
  = Some (report_lines scanned_tree (preorder_depth 0 scanned_shape))
  ∧ map snd (preorder_depth 0 scanned_shape) = preorder scanned_shape
  ∧ Forall (λ x, tree_depth scanned_tree x.2 = Some x.1) (preorder_depth 0 scanned_shape).
Proof.
  apply (print_result_report scanned_tree scanned_shape).
  - repeat (econstructor; try reflexivity).
  - reflexivity.
  - repeat constructor; vm_compute; intros H; inversion H; subst;
      repeat match goal with H : _ ∈ _ |- _ => inversion H; clear H; subst end.
Defined.

Lemma repr_kids_sorted t t0 s : ∀ p,
  tab t = map (consolidated t) (tab t0) →
  repr t p s →
  Forall (λ k, StronglySorted (key_ge (nlines_at t)) (map rlabel (rkids k))) (subtrees s).
Proof.
  intros p Htab Hrepr. apply Forall_forall. intros k Hk.
  destruct (repr_subtrees t s p k Hrepr Hk) as [q Hq].
  destruct k as [i ks]. apply repr_inv in Hq as (_ & _ & Hdown & _). cbn [rkids].
  rewrite <-Hdown. unfold tree_down. rewrite Htab, list_lookup_fmap.
  destruct (tab t0 !! i) as [nd|]; cbn [fmap option_fmap option_map default id].
  - rewrite consolidated_child. apply (stable_sort_sorted (nlines_at t)).
  - constructor.
Qed.

(** X18: the report of a run that succeeds begins with the line of the
    directory that was given, at the depth 0 and with the lines of all the
    files below it, modulo 2^32; it has one line for every directory that the
    scanner entered; and below every directory the directories directly in it
    come with the biggest count first. *)
Theorem report_of_run a str rest fs t' :
  main (a :: str :: rest) fs = Some (Ok t') →
  ∃ s more,
    print_result t' = Some (report_lines t' (preorder_depth 0 s))
    ∧ report_lines t' (preorder_depth 0 s)
      = print_dir 0 (mk_dir (to_uint (total_lines str fs)) str) +:+ more
    ∧ preorder s ≡ₚ seq 0 (length (visited str fs))
    ∧ Forall (λ k, StronglySorted (key_ge (nlines_at t')) (map rlabel (rkids k)))
        (subtrees s)
    ∧ map data (tab t')
      = map (λ d, mk_dir (to_uint (total_lines d.1 d.2)) d.1) (visited str fs).
Proof.
  unfold main. fold directories0. unfold tree_it_end.
  destruct (scan_directories fs directories0 None str) as [t| |] eqn:Hscan; try done.
  intros Hmain.
  destruct (scan_consolidate fs str t Hscan) as (Htab & t1 & Hcons & Htab' & Hwf & Hlines).
  rewrite Hcons in Hmain. injection Hmain as ->.
  destruct (consolidate_directories_wf t) as (t2 & Hcons2 & _ & Hroot' & _).
  { apply (arena_of_wf t (dir_tree str fs)); [done|]. by apply scan_directories0 in Hscan as (_ & ? & _). }
  assert (t2 = t') as -> by congruence.
  apply scan_directories0 in Hscan as (_ & Hroot & _).
  destruct Hwf as (s & Hrepr & Hroots & Hperm).
  assert (map data (tab t')
          = map (λ d, mk_dir (to_uint (total_lines d.1 d.2)) d.1) (visited str fs)) as Hdata.
  { apply list_eq. intros j. rewrite !list_lookup_fmap.
    pose proof (f_equal (λ l, l !! j) Hlines) as Hl. cbn beta in Hl.
    rewrite !list_lookup_fmap in Hl.
    assert (name ∘ data <$> tab t' !! j = fst <$> visited str fs !! j) as Hn.
    { rewrite Htab', !list_lookup_fmap, Htab. unfold visited.
      pose proof (f_equal (λ l, l !! j) (arena_of_data (dir_tree str fs) 0 None)) as Hd.
      cbn beta in Hd. rewrite !list_lookup_fmap in Hd.
      destruct (arena_of 0 None (dir_tree str fs) !! j) as [nd|],
        (preorder (dir_tree str fs) !! j) as [d|]; try done.
      simpl in *. injection Hd as Hd. by rewrite Hd. }
    destruct (tab t' !! j) as [[[n nm] ? ?]|], (visited str fs !! j) as [d|]; try done.
    simpl in *. injection Hl as ->. injection Hn as ->. done. }
  assert (length (tab t') = length (visited str fs)) as Hlen.
  { by rewrite <-(length_map data), Hdata, length_map. }
  assert (rlabel s = 0%nat) as Hs0 by congruence.
  destruct s as [i ks]. cbn [rlabel] in Hs0. subst i.
  eexists (Rose 0%nat ks), _. split_and!.
  - apply print_result_preorder; [done|done|]. rewrite Hperm. apply NoDup_seq.
  - cbn [preorder_depth report_lines foldr fst snd]. f_equal.
    unfold node_data, tree_ref.
    pose proof (f_equal (λ l, l !! 0%nat) Hdata) as H0. cbn beta in H0.
    rewrite !list_lookup_fmap in H0. unfold visited in H0.
    rewrite H0, dir_tree_unfold. done.
  - by rewrite Hperm, Hlen.
  - by eapply repr_kids_sorted.
  - done.
Qed.

Lemma report_of_run_witness :
  ∃ t', main ["prog"; "root"]%string example_fs = Some (Ok t')
        ∧ ∃ s more,
            print_result t' = Some (report_lines t' (preorder_depth 0 s))
            ∧ report_lines t' (preorder_depth 0 s)
              = print_dir 0 (mk_dir (to_uint (total_lines "root" example_fs)) "root") +:+ more
            ∧ preorder s ≡ₚ seq 0 (length (visited "root" example_fs))
            ∧ Forall (λ k, StronglySorted (key_ge (nlines_at t')) (map rlabel (rkids k)))
                (subtrees s)
            ∧ map data (tab t')
              = map (λ d, mk_dir (to_uint (total_lines d.1 d.2)) d.1)
                  (visited "root" example_fs).
Proof.
  eexists. split; [vm_compute; reflexivity|].
  apply (report_of_run "prog" "root" [] example_fs). vm_compute. reflexivity.
Defined.

Lemma length_chars n c : String.length (chars n c) = n.
Proof. induction n as [|n IH]; simpl; [done|]. by rewrite IH. Qed.

Lemma substring_prefix s1 s2 :
  String.substring 0 (String.length s1) (s1 +:+ s2) = s1.
Proof.
  induction s1 as [|a s1 IH]; rewrite ?append_nil, ?append_cons; simpl.
  - by destruct s2.
  - by rewrite IH.
Qed.

Lemma decimal_reads_back n :
  0 ≤ n →
  option_map (λ u, Z.of_N (N.of_uint u)) (NilZero.uint_of_string (decimal n)) = Some n.
Proof.
  intros Hn. unfold decimal. rewrite NilZero.usu.
  - cbn [option_map]. by rewrite DecimalN.Unsigned.of_to, Z2N.id.
  - destruct (Z.to_N n) as [|p]; [done|]. apply DecimalPos.Unsigned.to_uint_nonnil.
Qed.

Lemma length_printf_6u n :
  String.length (printf_6u n) = Nat.max 6 (String.length (decimal n)).
Proof. unfold printf_6u. cbn zeta. rewrite app_length_string, length_chars. lia. Qed.

(** X19: the line of a node begins with as many markers as its depth, followed
    by spaces up to the column 8, by the count in six columns or more, by a
    space, by the name and by a line feed; the markers are not cut at the
    column 8: for a depth of 8 or more there are no spaces, and the line is as
    much longer as the depth exceeds 8; the digits of the count, read as a
    decimal number, give the count back. *)
Theorem print_dir_format depth d :
  String.length (print_dir depth d)
  = (Nat.max 8 depth + Nat.max 6 (String.length (decimal (to_uint (nlines d))))
     + String.length (name d) + 2)%nat
  ∧ String.substring 0 depth (print_dir depth d) = chars depth "+"
  ∧ (∃ pad, print_dir depth d
            = chars depth "+" +:+ chars (8 - depth) " " +:+ chars pad " "
              +:+ decimal (to_uint (nlines d)) +:+ " " +:+ name d +:+ "
")
  ∧ ((8 ≤ depth)%nat → chars (8 - depth) " " = "")
  ∧ option_map (λ u, Z.of_N (N.of_uint u))
      (NilZero.uint_of_string (decimal (to_uint (nlines d))))
    = Some (to_uint (nlines d)).
Proof.
  unfold print_dir. split_and!.
  - rewrite !app_length_string, !length_chars, length_printf_6u. simpl. lia.
  - rewrite <-(length_chars depth "+") at 1. apply substring_prefix.
  - eexists. unfold printf_6u. cbn zeta. by rewrite !append_assoc.
  - intros Hd. by replace (8 - depth)%nat with 0%nat by lia.
  - apply decimal_reads_back. apply to_uint_range.
Qed.
